(** * dagre layout: shallow embedding of [src/util.ts], [src/data/list.ts]
      and [src/layout.ts], with the properties of the specification.

    Conventions of the embedding.
    - A JavaScript [number] is an exact rational ([Q]); the rounding of IEEE
      doubles, [NaN] and the infinities are outside the model.  The integer
      weights of the feedback-arc-set heuristic, which index an array, are
      [Z].
    - A thrown exception is the result [Throw]; a loop whose termination is
      not structural takes fuel and yields [OutOfFuel] when it is used up.
    - Objects that the code reaches through several references (the entries
      of the linked lists) live in an explicit heap; an object reached
      through one reference is a value that is passed on.
    - The graph class comes from a library outside the repository and is
      modelled from section 6 of the specification.  The helpers of lodash
      that the sources call ([_.forEach], [_.map], [_.range], [_.flatten])
      have their documented meaning on arrays; [_.max], which the sources
      call with two numbers, is a parameter.
    - An array holds up to [2^32 - 1] elements, as the language defines it,
      and an object literal inherits the properties of [Object.prototype];
      the memory of an engine is no limit of the model. *)

From Stdlib Require Import QArith Qabs Qminmax ZArith Lia Lqa String Ascii.
From Stdlib Require Import Qround.
From stdpp Require Import base option list gmap strings.
From stdpp Require Import pretty.

(** * Part I: the embedding *)

(** ** Results of fallible code *)

Inductive result (A : Type) : Type :=
  | Ok (a : A)
  | Throw
  | OutOfFuel.
Arguments Ok {A} a.
Arguments Throw {A}.
Arguments OutOfFuel {A}.

Definition rbind {A B} (r : result A) (k : A -> result B) : result B :=
  match r with
  | Ok a => k a
  | Throw => Throw
  | OutOfFuel => OutOfFuel
  end.

(** Comparisons of numbers as JavaScript evaluates them, to a boolean. *)
Definition Qltb (a b : Q) : bool := negb (Qle_bool b a).
Definition is_zero (a : Q) : bool := Qeq_bool a 0%Q.

Definition NodeId := string.

(** ** Strings *)

Definition lower_ascii (c : ascii) : ascii :=
  let n := nat_of_ascii c in
  if (65 <=? n)%nat && (n <=? 90)%nat then ascii_of_nat (n + 32) else c.

(** [s.toLowerCase()] on the ASCII letters; the letters beyond ASCII, which
    the method folds as well, are left as they are. *)
Fixpoint toLowerCase (s : string) : string :=
  match s with
  | EmptyString => EmptyString
  | String c s => String (lower_ascii c) (toLowerCase s)
  end.

(** ** Association lists in insertion order

    The graph library keeps its nodes and edges in objects whose keys are
    enumerated in insertion order; [assoc_set] overwrites the value of a key
    that is present and appends a new key at the end. *)

Section Assoc.
Context {K V : Type} `{EqDecision K}.

Fixpoint assoc_get (k : K) (l : list (K * V)) : option V :=
  match l with
  | [] => None
  | (k', x) :: l => if decide (k = k') then Some x else assoc_get k l
  end.

Fixpoint assoc_set (k : K) (x : V) (l : list (K * V)) : list (K * V) :=
  match l with
  | [] => [(k, x)]
  | (k', y) :: l =>
      if decide (k = k') then (k, x) :: l else (k', y) :: assoc_set k x l
  end.

Definition assoc_del (k : K) (l : list (K * V)) : list (K * V) :=
  filter (fun kv => kv.1 <> k) l.
End Assoc.

(** ** The ambient graph library *)

Module Graphlib.

Record Edge := mkEdge { e_v : NodeId; e_w : NodeId; e_name : option string }.

#[global] Instance Edge_eq_dec : EqDecision Edge.
Proof. solve_decision. Defined.

(** Modelled from the spec: the graph class of the external graph library
    (section 6, "ambient graph API"), of which the repository holds no
    source.  A graph has a label, labelled nodes, labelled edges identified
    by source, target and optional name, and a parent relation.  A query on
    an absent node answers [None] (the JavaScript [undefined]), [setEdge]
    creates the end nodes that are missing, [removeNode] removes the
    incident edges.  Section 6 fixes no order of [nodes()] and [edges()];
    the model lists them in the order of insertion. *)
Record Graph (GL NL EL : Type) := mkGraph {
  graph : GL;
  node_entries : list (NodeId * NL);
  edge_entries : list (Edge * EL);
  parent_entries : list (NodeId * NodeId)
}.
Arguments mkGraph {GL NL EL}.
Arguments graph {GL NL EL}.
Arguments node_entries {GL NL EL}.
Arguments edge_entries {GL NL EL}.
Arguments parent_entries {GL NL EL}.

Section Api.
Context {GL NL EL : Type}.
Implicit Types g : Graph GL NL EL.

Definition newGraph (gl : GL) : Graph GL NL EL := mkGraph gl [] [] [].

Definition nodes g : list NodeId := (node_entries g).*1.
Definition edges g : list Edge := (edge_entries g).*1.
Definition node g (v : NodeId) : option NL := assoc_get v (node_entries g).
Definition edge g (e : Edge) : option EL := assoc_get e (edge_entries g).
Definition edge_vw g (v w : NodeId) : option EL := edge g (mkEdge v w None).
Definition hasNode g (v : NodeId) : bool := bool_decide (v ∈ nodes g).
Definition nodeCount g : nat := length (node_entries g).

Definition setGraph g (gl : GL) : Graph GL NL EL :=
  mkGraph gl (node_entries g) (edge_entries g) (parent_entries g).

Definition setNode g (v : NodeId) (l : NL) : Graph GL NL EL :=
  mkGraph (graph g) (assoc_set v l (node_entries g)) (edge_entries g)
          (parent_entries g).

(** A node that [setEdge] has to create receives the default label. *)
Definition ensureNode (dflt : NL) g (v : NodeId) : Graph GL NL EL :=
  if hasNode g v then g else setNode g v dflt.

Definition setEdge (dflt : NL) g (e : Edge) (l : EL) : Graph GL NL EL :=
  let g := ensureNode dflt g (e_v e) in
  let g := ensureNode dflt g (e_w e) in
  mkGraph (graph g) (node_entries g) (assoc_set e l (edge_entries g))
          (parent_entries g).

Definition inEdges g (v : NodeId) : option (list Edge) :=
  if hasNode g v then Some (filter (fun e => e_w e = v) (edges g)) else None.

Definition outEdges g (v : NodeId) : option (list Edge) :=
  if hasNode g v then Some (filter (fun e => e_v e = v) (edges g)) else None.

(** [g.outEdges(v, w)] *)
Definition outEdgesTo g (v w : NodeId) : option (list Edge) :=
  if hasNode g v
  then Some (filter (fun e => e_v e = v /\ e_w e = w) (edges g))
  else None.

Definition children g (v : NodeId) : list NodeId :=
  (filter (fun cp => cp.2 = v) (parent_entries g)).*1.

Definition removeNode g (v : NodeId) : Graph GL NL EL :=
  if hasNode g v then
    mkGraph (graph g)
            (assoc_del v (node_entries g))
            (filter (fun el => e_v el.1 <> v /\ e_w el.1 <> v) (edge_entries g))
            (filter (fun cp => cp.1 <> v /\ cp.2 <> v) (parent_entries g))
  else g.
End Api.

End Graphlib.

(** A graph object as the library keeps it: the keys are unique and the
    edges join nodes of the graph. *)
Definition graph_wf {GL NL EL} (g : Graphlib.Graph GL NL EL) : Prop :=
  NoDup (Graphlib.nodes g) /\ NoDup (Graphlib.edges g) /\
  Forall (fun e => Graphlib.e_v e ∈ Graphlib.nodes g /\
                   Graphlib.e_w e ∈ Graphlib.nodes g)
         (Graphlib.edges g).

(** ** [src/util.ts] *)

Module Util.
Import Graphlib.
Local Open Scope Q_scope.

Record Point := mkPoint { px : Q; py : Q }.

Record Rect := mkRect { x : Q; y : Q; width : Q; height : Q }.

(** [intersectRect(rect, point)]: the local variables [w] and [h] are
    reassigned in the branches, the arguments are only read. *)
Definition intersectRect (rect : Rect) (point : Point) : result Point :=
  let x := x rect in
  let y := y rect in
  let dx := px point - x in
  let dy := py point - y in
  let w := width rect / 2 in
  let h := height rect / 2 in
  if is_zero dx && is_zero dy then Throw
  else
    if Qltb (Qabs dx * h) (Qabs dy * w) then
      let h := if Qltb dy 0 then - h else h in
      let sx := (h * dx) / dy in
      let sy := h in
      Ok (mkPoint (x + sx) (y + sy))
    else
      let w := if Qltb dx 0 then - w else w in
      let sx := w in
      let sy := (w * dy) / dx in
      Ok (mkPoint (x + sx) (y + sy)).

Record SimpleLabel := mkSimpleLabel { weight : Q; minlen : Q }.

Section Simplify.
Context {GL NL EL : Type}.
(** [undefined] is the label of a node that [setEdge] would have to
    create; [weight_of] and [minlen_of] read [label.weight] and
    [label.minlen]. *)
Context (undefined : NL) (weight_of minlen_of : EL -> Q).

(** The body of the loop over [g.edges()]. *)
Definition simplify_edge (simplified : Graph GL NL SimpleLabel)
    (el : Edge * EL) : Graph GL NL SimpleLabel :=
  let e := el.1 in
  let simpleLabel :=
    default (mkSimpleLabel 0 1) (edge_vw simplified (e_v e) (e_w e)) in
  let label := el.2 in
  setEdge undefined simplified (mkEdge (e_v e) (e_w e) None)
    (mkSimpleLabel (weight simpleLabel + weight_of label)
                   (Qmax (minlen simpleLabel) (minlen_of label))).

Definition simplify (g : Graph GL NL EL) : Graph GL NL SimpleLabel :=
  let simplified := newGraph (graph g) in
  let simplified :=
    fold_left (fun s vl => setNode s vl.1 vl.2) (node_entries g) simplified in
  fold_left simplify_edge (edge_entries g) simplified.

(** The edges of a list from [v] to [w], in their order. *)
Definition between (v w : NodeId) (els : list (Edge * EL))
  : list (Edge * EL) :=
  filter (fun el : Edge * EL => e_v el.1 = v /\ e_w el.1 = w) els.

Definition edges_between (g : Graph GL NL EL) (v w : NodeId)
  : list (Edge * EL) :=
  between v w (edge_entries g).

Definition sum_weight (els : list (Edge * EL)) : Q :=
  fold_left (fun acc el => acc + weight_of el.2) els 0.

Definition max_minlen (els : list (Edge * EL)) : Q :=
  fold_left (fun acc el => Qmax acc (minlen_of el.2)) els 1.

(** What the aggregation loop has built after the edges [pre]. *)
Definition aggregated (pre : list (Edge * EL)) (v w : NodeId)
  : option SimpleLabel :=
  match between v w pre with
  | [] => None
  | els => Some (mkSimpleLabel (sum_weight els) (max_minlen els))
  end.

Definition simple_edges_ok (s0 s : Graph GL NL SimpleLabel)
    (pre : list (Edge * EL)) : Prop :=
  graph s = graph s0 /\ node_entries s = node_entries s0 /\
  parent_entries s = parent_entries s0 /\
  NoDup (edges s) /\
  (forall e, e ∈ edges s <->
     e_name e = None /\
     exists el, el ∈ pre /\ e_v el.1 = e_v e /\ e_w el.1 = e_w e) /\
  (forall v w, edge_vw s v w = aggregated pre v w).
End Simplify.

End Util.

(** ** [src/data/list.ts] *)

Module DataList.

(** Objects are references; each property that the list code touches is a
    map from references to values, and an absent key is the JavaScript
    [undefined].  [fresh] is the next reference that [{}] or [new] yields. *)
Definition ref := nat.

Record Heap := mkHeap {
  _prev : gmap ref ref;
  _next : gmap ref ref;
  fresh : ref
}.

Definition empty_heap : Heap := mkHeap ∅ ∅ 0.

Definition M (B : Type) : Type := Heap -> result (B * Heap).

Definition mret {B} (b : B) : M B := fun h => Ok (b, h).
Definition mbind {B C} (m : M B) (k : B -> M C) : M C :=
  fun h => match m h with
           | Ok (b, h') => k b h'
           | Throw => Throw
           | OutOfFuel => OutOfFuel
           end.
Definition throw {B} : M B := fun _ => Throw.

Declare Scope list_monad_scope.
Delimit Scope list_monad_scope with LM.
Notation "x <- m ; k" := (mbind m (fun x => k))
  (at level 100, m at next level, right associativity) : list_monad_scope.
Notation "m ;; k" := (mbind m (fun _ => k))
  (at level 100, right associativity) : list_monad_scope.
Local Open Scope list_monad_scope.

Definition write (r : ref) (x : option ref) (m : gmap ref ref) : gmap ref ref :=
  match x with
  | Some y => <[r := y]> m
  | None => delete r m
  end.

Definition get_prev (r : ref) : M (option ref) := fun h => Ok (_prev h !! r, h).
Definition get_next (r : ref) : M (option ref) := fun h => Ok (_next h !! r, h).
Definition set_prev (r : ref) (x : option ref) : M unit :=
  fun h => Ok (tt, mkHeap (write r x (_prev h)) (_next h) (fresh h)).
Definition set_next (r : ref) (x : option ref) : M unit :=
  fun h => Ok (tt, mkHeap (_prev h) (write r x (_next h)) (fresh h)).

(** A property access on [undefined] is a [TypeError]. *)
Definition object (x : option ref) : M ref :=
  match x with
  | Some r => mret r
  | None => throw
  end.

(** A new object without properties. *)
Definition alloc : M ref :=
  fun h => Ok (fresh h, mkHeap (_prev h) (_next h) (S (fresh h))).

(** [unlink(entry)]; the two [delete] statements are comments in the source. *)
Definition unlink (entry : ref) : M unit :=
  p <- get_prev entry; n <- get_next entry;
  p <- object p; set_next p n;;
  n <- get_next entry; p <- get_prev entry;
  n <- object n; set_prev n p.

(** [new List()], the list is its sentinel. *)
Definition new_List : M ref :=
  sentinel <- alloc;
  set_prev sentinel (Some sentinel);;
  set_next sentinel (Some sentinel);;
  mret sentinel.

Definition dequeue (sentinel : ref) : M (option ref) :=
  entry <- get_prev sentinel;
  if decide (entry = Some sentinel) then mret None
  else
    e <- object entry;
    unlink e;;
    mret (Some e).

Definition enqueue (sentinel entry : ref) : M unit :=
  p <- get_prev entry; n <- get_next entry;
  (if bool_decide (is_Some p) && bool_decide (is_Some n)
   then unlink entry else mret tt);;
  sn <- get_next sentinel; set_next entry sn;;
  sn <- get_next sentinel; sn <- object sn; set_prev sn (Some entry);;
  set_next sentinel (Some entry);;
  set_prev entry (Some sentinel).

(** The scenario of a queue into which an entry is put again after it has
    left: [e1] in, [e1] out, [e2] in, [e1] in, then two [dequeue]s. *)
Definition requeue_scenario
  : M (ref * ref * option ref * option ref * option ref) :=
  l <- new_List;
  e1 <- alloc;
  e2 <- alloc;
  enqueue l e1;;
  d1 <- dequeue l;
  enqueue l e2;;
  enqueue l e1;;
  d2 <- dequeue l;
  d3 <- dequeue l;
  mret (e1, e2, d1, d2, d3).

End DataList.

(** ** The greedy feedback-arc-set heuristic of [src/layout.ts] *)

Module GreedyFas.
Import Graphlib DataList.

Local Open Scope Z_scope.

(** The working graph labels each node with its entry object (a node that
    [setEdge] had to create has no label) and each edge with its summed
    weight.  The properties [in] and [out] of the entries are maps from
    references, like the links of the lists. *)
Definition FasGraph (GL : Type) := Graph GL (option ref) Z.

Record State (GL : Type) := mkState {
  fasGraph : FasGraph GL;
  in_ : gmap ref Z;
  out_ : gmap ref Z;
  heap : Heap
}.
Arguments mkState {GL}.
Arguments fasGraph {GL}.
Arguments in_ {GL}.
Arguments out_ {GL}.
Arguments heap {GL}.

Record Arc := mkArc { a_v : NodeId; a_w : NodeId }.

Definition F (GL B : Type) : Type := State GL -> result (B * State GL).

Definition fret {GL B} (b : B) : F GL B := fun st => Ok (b, st).
Definition fbind {GL B C} (m : F GL B) (k : B -> F GL C): F GL C :=
  fun st => match m st with
            | Ok (b, st') => k b st'
            | Throw => Throw
            | OutOfFuel => OutOfFuel
            end.
Definition fthrow {GL B} : F GL B := fun _ => Throw.
Definition out_of_fuel {GL B} : F GL B := fun _ => OutOfFuel.

Declare Scope fas_scope.
Delimit Scope fas_scope with fas.
Notation "x <- m ; k" := (fbind m (fun x => k))
  (at level 100, m at next level, right associativity) : fas_scope.
Notation "m ;; k" := (fbind m (fun _ => k))
  (at level 100, right associativity) : fas_scope.

Section Fas.
Context {GL NL EL : Type}.

(** [addNode] is no operation of the graph interface of section 6; the
    identifier that it gives the new node, from those in use, is a
    parameter. *)
Context (newNodeId : list NodeId -> NodeId).

(** [entry.v], which [removeNode] reads: no statement of the source
    assigns this property. *)
Context (v_of : ref -> option NodeId).

Local Open Scope fas_scope.

(** A method of the list module, run on the heap of the state. *)
Definition on_heap {B} (m : M B) : F GL B :=
  fun st => match m (heap st) with
            | Ok (b, h) => Ok (b, mkState (fasGraph st) (in_ st) (out_ st) h)
            | Throw => Throw
            | OutOfFuel => OutOfFuel
            end.

Definition get_graph : F GL (FasGraph GL) := fun st => Ok (fasGraph st, st).
Definition set_graph (g : FasGraph GL) : F GL unit :=
  fun st => Ok (tt, mkState g (in_ st) (out_ st) (heap st)).
Definition get_in (r : ref) : F GL Z := fun st => Ok (default 0 (in_ st !! r), st).
Definition get_out (r : ref) : F GL Z := fun st => Ok (default 0 (out_ st !! r), st).
Definition set_in (r : ref) (x : Z) : F GL unit :=
  fun st => Ok (tt, mkState (fasGraph st) (<[r := x]> (in_ st)) (out_ st) (heap st)).
Definition set_out (r : ref) (x : Z) : F GL unit :=
  fun st => Ok (tt, mkState (fasGraph st) (in_ st) (<[r := x]> (out_ st)) (heap st)).

(** A property access or method call on [undefined] throws. *)
Definition defined {B} (x : option B) : F GL B :=
  match x with
  | Some b => fret b
  | None => fthrow
  end.

(** [_.forEach(xs, body)] *)
Fixpoint forEach {B} (xs : list B) (body : B -> F GL unit) : F GL unit :=
  match xs with
  | [] => fret tt
  | x :: xs => body x;; forEach xs body
  end.

(** [buckets[i]] for a number [i]. *)
Definition bucket_at (buckets : list ref) (i : Z) : option ref :=
  if decide (0 <= i) then buckets !! Z.to_nat i else None.

Definition assignBucket (buckets : list ref) (zeroIdx : Z) (entry : ref)
  : F GL unit :=
  out <- get_out entry;
  if decide (out = 0) then
    b <- defined (bucket_at buckets 0); on_heap (enqueue b entry)
  else
    inn <- get_in entry;
    if decide (inn = 0) then
      b <- defined (bucket_at buckets (Z.of_nat (length buckets) - 1));
      on_heap (enqueue b entry)
    else
      b <- defined (bucket_at buckets (out - inn + zeroIdx));
      on_heap (enqueue b entry).

(** Graph queries with the value of [entry.v], which may be [undefined];
    no node has that identifier. *)
Definition inEdges_of (g : FasGraph GL) (v : option NodeId) : list Edge :=
  default [] (v ≫= inEdges g).
Definition outEdges_of (g : FasGraph GL) (v : option NodeId) : list Edge :=
  default [] (v ≫= outEdges g).
Definition removeNode_of (g : FasGraph GL) (v : option NodeId) : FasGraph GL :=
  match v with
  | Some v => Graphlib.removeNode g v
  | None => g
  end.

(** [removeNode(g, buckets, zeroIdx, entry, collectPredecessors)]; the
    emitted list is threaded through the first loop. *)
Fixpoint removeNode_preds (buckets : list ref) (zeroIdx : Z)
    (collectPredecessors : bool) (es : list Edge) (results : list Arc)
  : F GL (list Arc) :=
  match es with
  | [] => fret results
  | edge :: es =>
      g <- get_graph;
      let weight := default 0 (Graphlib.edge g edge) in
      uEntry <- defined (mjoin (node g (e_v edge)));
      let results :=
        if collectPredecessors
        then results ++ [mkArc (e_v edge) (e_w edge)] else results in
      out <- get_out uEntry;
      set_out uEntry (out - weight);;
      assignBucket buckets zeroIdx uEntry;;
      removeNode_preds buckets zeroIdx collectPredecessors es results
  end.

Definition removeNode (buckets : list ref) (zeroIdx : Z) (entry : ref)
    (collectPredecessors : bool) : F GL (option (list Arc)) :=
  g <- get_graph;
  results <- removeNode_preds buckets zeroIdx collectPredecessors
               (inEdges_of g (v_of entry)) [];
  forEach (outEdges_of g (v_of entry)) (fun edge =>
    g <- get_graph;
    let weight := default 0 (Graphlib.edge g edge) in
    let w := e_w edge in
    wEntry <- defined (mjoin (node g w));
    inn <- get_in wEntry;
    set_in wEntry (inn - weight);;
    assignBucket buckets zeroIdx wEntry);;
  g <- get_graph;
  set_graph (removeNode_of g (v_of entry));;
  fret (if collectPredecessors then Some results else None).

(** [while ((entry = bucket.dequeue())) removeNode(g, buckets, zeroIdx, entry)] *)
Fixpoint drain (fuel : nat) (buckets : list ref) (zeroIdx : Z)
    (bucket : option ref) : F GL unit :=
  match fuel with
  | O => out_of_fuel
  | S fuel =>
      b <- defined bucket;
      entry <- on_heap (dequeue b);
      match entry with
      | None => fret tt
      | Some entry =>
          removeNode buckets zeroIdx entry false;;
          drain fuel buckets zeroIdx bucket
      end
  end.

(** [for (var i = buckets.length - 2; i > 0; --i)], entered with [i]. *)
Fixpoint pick (buckets : list ref) (zeroIdx : Z) (i : nat)
    (results : list Arc) : F GL (list Arc) :=
  match i with
  | O => fret results
  | S i' =>
      b <- defined (buckets !! i);
      entry <- on_heap (dequeue b);
      match entry with
      | Some entry =>
          preds <- removeNode buckets zeroIdx entry true;
          fret (results ++ default [] preds)
      | None => pick buckets zeroIdx i' results
      end
  end.

Fixpoint doGreedyFAS_loop (fuel : nat) (buckets : list ref) (zeroIdx : Z)
    (results : list Arc) : F GL (list Arc) :=
  match fuel with
  | O => out_of_fuel
  | S fuel =>
      let sources := last buckets in
      let sinks := buckets !! 0%nat in
      g <- get_graph;
      if decide (nodeCount g = 0%nat) then fret results
      else
        drain fuel buckets zeroIdx sinks;;
        drain fuel buckets zeroIdx sources;;
        g <- get_graph;
        results <-
          (if decide (nodeCount g = 0%nat) then fret results
           else pick buckets zeroIdx (length buckets - 2) results);
        doGreedyFAS_loop fuel buckets zeroIdx results
  end.

Definition doGreedyFAS (fuel : nat) (buckets : list ref) (zeroIdx : Z)
  : F GL (list Arc) :=
  doGreedyFAS_loop fuel buckets zeroIdx [].

(** [fasGraph.addNode({ in: 0, out: 0 })] *)
Definition addNode : F GL NodeId :=
  r <- on_heap alloc;
  set_in r 0;;
  set_out r 0;;
  g <- get_graph;
  let id := newNodeId (nodes g) in
  set_graph (setNode g id (Some r));;
  fret id.

Fixpoint new_buckets (n : nat) : F GL (list ref) :=
  match n with
  | O => fret []
  | S n => l <- on_heap new_List; ls <- new_buckets n; fret (l :: ls)
  end.

Fixpoint buildState_edges (weightFn : Edge -> Z) (es : list Edge)
    (maxIn maxOut : Z) : F GL (Z * Z) :=
  match es with
  | [] => fret (maxIn, maxOut)
  | e :: es =>
      g <- get_graph;
      let prevWeight := default 0 (edge_vw g (e_v e) (e_w e)) in
      let weight := weightFn e in
      let edgeWeight := prevWeight + weight in
      set_graph (setEdge None g (mkEdge (e_v e) (e_w e) None) edgeWeight);;
      g <- get_graph;
      vEntry <- defined (mjoin (node g (e_v e)));
      out <- get_out vEntry;
      set_out vEntry (out + weight);;
      let maxOut := Z.max maxOut (out + weight) in
      wEntry <- defined (mjoin (node g (e_w e)));
      inn <- get_in wEntry;
      set_in wEntry (inn + weight);;
      let maxIn := Z.max maxIn (inn + weight) in
      buildState_edges weightFn es maxIn maxOut
  end.

(** [buildState(g, weightFn)] returns the buckets and [zeroIdx]; the
    working graph is in the state. *)
Definition buildState (g : Graph GL NL EL) (weightFn : Edge -> Z)
  : F GL (list ref * Z) :=
  forEach (nodes g) (fun nodeId => addNode;; fret tt);;
  mm <- buildState_edges weightFn (edges g) 0 0;
  let maxIn := mm.1 in
  let maxOut := mm.2 in
  buckets <- new_buckets (Z.to_nat (maxOut + maxIn + 3));
  let zeroIdx := maxIn + 1 in
  fg <- get_graph;
  forEach (nodes fg) (fun v =>
    fg <- get_graph;
    entry <- defined (mjoin (node fg v));
    assignBucket buckets zeroIdx entry);;
  fret (buckets, zeroIdx).

(** "Expand multi-edges": [_.flatten(_.map(results, e => g.outEdges(e.v, e.w)))];
    an arc from a node that [g] does not have contributes [undefined]. *)
Definition expand (g : Graph GL NL EL) (results : list Arc)
  : list (option Edge) :=
  results ≫= (fun e =>
    match outEdgesTo g (a_v e) (a_w e) with
    | Some es => Some <$> es
    | None => [None]
    end).

Definition initial (g : Graph GL NL EL) : State GL :=
  mkState (newGraph (graph g)) ∅ ∅ empty_heap.

End Fas.

(** The entries that [buildState] creates are [{ in: 0, out: 0 }]: they
    have no property [v]. *)
Definition no_v (entry : ref) : option NodeId := None.

Definition greedyFAS {GL NL EL : Type} (newNodeId : list NodeId -> NodeId)
    (fuel : nat) (g : Graph GL NL EL) (weightFn : Edge -> Z)
  : result (list (option Edge)) :=
  if decide (nodeCount g <= 1)%nat then Ok []
  else
    match (state <- buildState newNodeId g weightFn;
           doGreedyFAS no_v fuel state.1 state.2)%fas (initial g) with
    | Ok (results, _) => Ok (expand g results)
    | Throw => Throw
    | OutOfFuel => OutOfFuel
    end.

Definition DEFAULT_WEIGHT_FN (edgeId : Edge) : Z := 1.

End GreedyFas.

(** ** [src/layout.ts] *)

Module Layout.
Import Graphlib.
Local Open Scope Q_scope.

(** *** Labels as attribute bags

    [updateInputGraph] and [assignRankMinMax] read and write properties by
    name on labels of any shape; a label is [undefined] or an object, an
    object is a finite map from property names to values, and a property
    that was assigned [undefined] is present. *)

Inductive Val : Type :=
  | VUndef
  | VBool (b : bool)
  | VNum (q : Q)
  | VStr (s : string)
  | VPoints (ps : list Util.Point).

Definition Label : Type := option (gmap string Val).

Definition BagGraph : Type := Graph Label Label Label.

(** [label.k] *)
Definition get (label : gmap string Val) (k : string) : Val :=
  default VUndef (label !! k).

(** The truth value of a condition. *)
Definition truthy (x : Val) : bool :=
  match x with
  | VUndef => false
  | VBool b => b
  | VNum q => negb (is_zero q)
  | VStr s => negb (bool_decide (s = EmptyString))
  | VPoints _ => true
  end.

Definition update_node (layoutGraph : BagGraph) (v : NodeId)
    (inputLabel : Label) : result Label :=
  let layoutLabel := mjoin (node layoutGraph v) in
  match inputLabel with
  | None => Ok None
  | Some inputLabel =>
      match layoutLabel with
      | None => Throw
      | Some layoutLabel =>
          let inputLabel := <["x" := get layoutLabel "x"]> inputLabel in
          let inputLabel := <["y" := get layoutLabel "y"]> inputLabel in
          if bool_decide (children layoutGraph v <> []) then
            let inputLabel := <["width" := get layoutLabel "width"]> inputLabel in
            let inputLabel := <["height" := get layoutLabel "height"]> inputLabel in
            Ok (Some inputLabel)
          else Ok (Some inputLabel)
      end
  end.

Definition update_edge (layoutGraph : BagGraph) (e : Edge)
    (inputLabel : Label) : result Label :=
  let layoutLabel := mjoin (edge layoutGraph e) in
  match layoutLabel, inputLabel with
  | Some layoutLabel, Some inputLabel =>
      let inputLabel := <["points" := get layoutLabel "points"]> inputLabel in
      if bool_decide (is_Some (layoutLabel !! "x")) then
        let inputLabel := <["x" := get layoutLabel "x"]> inputLabel in
        let inputLabel := <["y" := get layoutLabel "y"]> inputLabel in
        Ok (Some inputLabel)
      else Ok (Some inputLabel)
  | _, _ => Throw
  end.

(** A [for ... of] loop that mutates the label of each entry in turn; when
    an iteration throws, the labels written so far stay written. *)
Fixpoint for_labels {K} (body : K -> Label -> result Label)
    (entries : list (K * Label)) : result unit * list (K * Label) :=
  match entries with
  | [] => (Ok tt, [])
  | (k, l) :: entries =>
      match body k l with
      | Ok l' =>
          let r := for_labels body entries in
          (r.1, (k, l') :: r.2)
      | Throw => (Throw, (k, l) :: entries)
      | OutOfFuel => (OutOfFuel, (k, l) :: entries)
      end
  end.

Definition update_graph_label (layoutGraph : BagGraph) (inputLabel : Label)
  : result unit * Label :=
  match inputLabel, graph layoutGraph with
  | Some inputLabel, Some layoutLabel =>
      let inputLabel := <["width" := get layoutLabel "width"]> inputLabel in
      let inputLabel := <["height" := get layoutLabel "height"]> inputLabel in
      (Ok tt, Some inputLabel)
  | _, _ => (Throw, inputLabel)
  end.

(** [updateInputGraph(inputGraph, layoutGraph)]: the outcome and the input
    graph as the call leaves it. *)
Definition updateInputGraph (inputGraph layoutGraph : BagGraph)
  : result unit * BagGraph :=
  let ns := for_labels (update_node layoutGraph) (node_entries inputGraph) in
  match ns.1 with
  | Ok _ =>
      let es := for_labels (update_edge layoutGraph) (edge_entries inputGraph) in
      match es.1 with
      | Ok _ =>
          let gl := update_graph_label layoutGraph (graph inputGraph) in
          (gl.1, mkGraph gl.2 ns.2 es.2 (parent_entries inputGraph))
      | r => (r, mkGraph (graph inputGraph) ns.2 es.2 (parent_entries inputGraph))
      end
  | r => (r, mkGraph (graph inputGraph) ns.2 (edge_entries inputGraph)
               (parent_entries inputGraph))
  end.

(** [g.node(id)] for an identifier held in a property. *)
Definition node_of_val (g : BagGraph) (id : Val) : Label :=
  match id with
  | VStr v => mjoin (node g v)
  | _ => None
  end.

Definition set_last_label (g : BagGraph) (l : Label) : BagGraph :=
  match reverse (node_entries g) with
  | [] => g
  | (v, _) :: rest =>
      mkGraph (graph g) (reverse ((v, l) :: rest)) (edge_entries g)
              (parent_entries g)
  end.

(** [assignRankMinMax(g)].  The body of the [for] loop is the single
    statement [var node = g.node(v)]; the conditional that follows runs once,
    after the loop, on the label of the last node.  [_.max] belongs to a
    library that is not part of the sources and is a parameter. *)
Definition assignRankMinMax (lodash_max : Val -> Val -> Val) (g : BagGraph)
  : result BagGraph :=
  let maxRank := VNum 0 in
  match mjoin (snd <$> last (node_entries g)) with
  | None => Throw
  | Some node =>
      rbind
        (if truthy (get node "borderTop") then
           match node_of_val g (get node "borderTop") with
           | None => Throw
           | Some top =>
               let node := <["minRank" := get top "rank"]> node in
               let g := set_last_label g (Some node) in
               match node_of_val g (get node "borderBottom") with
               | None => Throw
               | Some bottom =>
                   let node := <["maxRank" := get bottom "rank"]> node in
                   let g := set_last_label g (Some node) in
                   Ok (g, lodash_max maxRank (get node "maxRank"))
               end
           end
         else Ok (g, maxRank))
        (fun r =>
           match graph r.1 with
           | None => Throw
           | Some graphLabel =>
               Ok (setGraph r.1 (Some (<["maxRank" := r.2]> graphLabel)))
           end)
  end.

(** *** Labels of the layout graph

    The passes below read and write fixed numeric and string properties;
    their labels are records with the properties that the passes touch.  A
    property that the pipeline may not have set yet is an [option]. *)

Record GraphLabel := mkGraphLabel {
  ranksep : Q;
  rankdir : string;
  marginx : option Q;
  marginy : option Q;
  width : option Q;
  height : option Q
}.

Record NodeLabel := mkNodeLabel {
  n_x : Q;
  n_y : Q;
  n_width : Q;
  n_height : Q
}.

Record EdgeLabel := mkEdgeLabel {
  minlen : Q;
  labelpos : string;
  labeloffset : Q;
  e_width : Q;
  e_height : Q;
  points : list Util.Point;
  e_x : option Q;
  e_y : option Q
}.

Definition LayoutGraph : Type := Graph GraphLabel NodeLabel EdgeLabel.

Definition map_edge_labels (f : EdgeLabel -> EdgeLabel) (g : LayoutGraph)
  : LayoutGraph :=
  mkGraph (graph g) (node_entries g) (prod_map id f <$> edge_entries g)
          (parent_entries g).

Definition map_node_labels (f : NodeLabel -> NodeLabel) (g : LayoutGraph)
  : LayoutGraph :=
  mkGraph (graph g) (prod_map id f <$> node_entries g) (edge_entries g)
          (parent_entries g).

Definition makeSpace_edge (graph : GraphLabel) (edge : EdgeLabel) : EdgeLabel :=
  let minlen := minlen edge * 2 in
  if bool_decide (toLowerCase (labelpos edge) <> "c"%string) then
    if bool_decide (rankdir graph = "TB"%string)
       || bool_decide (rankdir graph = "BT"%string)
    then
      mkEdgeLabel minlen (labelpos edge) (labeloffset edge)
        (e_width edge + labeloffset edge) (e_height edge)
        (points edge) (e_x edge) (e_y edge)
    else
      mkEdgeLabel minlen (labelpos edge) (labeloffset edge)
        (e_width edge) (e_height edge + labeloffset edge)
        (points edge) (e_x edge) (e_y edge)
  else
    mkEdgeLabel minlen (labelpos edge) (labeloffset edge)
      (e_width edge) (e_height edge) (points edge) (e_x edge) (e_y edge).

Definition makeSpaceForEdgeLabels (g : LayoutGraph) : LayoutGraph :=
  let graph0 := graph g in
  let graph :=
    mkGraphLabel (ranksep graph0 / 2) (rankdir graph0) (marginx graph0)
      (marginy graph0) (width graph0) (height graph0) in
  map_edge_labels (makeSpace_edge graph) (setGraph g graph).

(** The running extremes of [translateGraph]; [None] in [minX] and [minY]
    is [Number.POSITIVE_INFINITY]. *)
Record Extremes := mkExtremes {
  minX : option Q;
  maxX : Q;
  minY : option Q;
  maxY : Q
}.

(** [Math.min(m, a)] for a finite [a]. *)
Definition min_ext (m : option Q) (a : Q) : option Q :=
  Some (match m with
        | None => a
        | Some m => Qmin m a
        end).

Definition getExtremes (ex : Extremes) (x y w h : Q) : Extremes :=
  mkExtremes (min_ext (minX ex) (x - w / 2)) (Qmax (maxX ex) (x + w / 2))
             (min_ext (minY ex) (y - h / 2)) (Qmax (maxY ex) (y + h / 2)).

Definition extremes_of_nodes (ns : list NodeLabel) (ex : Extremes) : Extremes :=
  fold_left (fun ex n => getExtremes ex (n_x n) (n_y n) (n_width n) (n_height n))
            ns ex.

(** An edge with an [x] and no [y] would bring a [NaN], which is outside
    the model ([None]). *)
Fixpoint extremes_of_edges (es : list EdgeLabel) (ex : Extremes)
  : option Extremes :=
  match es with
  | [] => Some ex
  | edge :: es =>
      match e_x edge with
      | Some x =>
          y ← e_y edge;
          extremes_of_edges es
            (getExtremes ex x y (e_width edge) (e_height edge))
      | None => extremes_of_edges es ex
      end
  end.

Definition translate_point (minX minY : Q) (p : Util.Point) : Util.Point :=
  Util.mkPoint (Util.px p - minX) (Util.py p - minY).

(** [translateGraph(g)].  The source always returns; [None] stands for the
    runs whose values leave the numbers of the model: an edge label with an
    [x] and no [y] brings a [NaN], and on a graph without any box [minX]
    and [minY] stay [Number.POSITIVE_INFINITY], so that the points of the
    edges and the width and height of the graph become infinite. *)
Definition translateGraph (g : LayoutGraph) : option LayoutGraph :=
  let ex0 := mkExtremes None 0 None 0 in
  let graphLabel := graph g in
  let marginX := default 0 (marginx graphLabel) in
  let marginY := default 0 (marginy graphLabel) in
  let ex := extremes_of_nodes (node_entries g).*2 ex0 in
  ex ← extremes_of_edges (edge_entries g).*2 ex;
  minX0 ← minX ex;
  minY0 ← minY ex;
  let minX := minX0 - marginX in
  let minY := minY0 - marginY in
  let g :=
    map_node_labels (fun node =>
      mkNodeLabel (n_x node - minX) (n_y node - minY)
                  (n_width node) (n_height node)) g in
  let g :=
    map_edge_labels (fun edge =>
      mkEdgeLabel (minlen edge) (labelpos edge) (labeloffset edge)
        (e_width edge) (e_height edge)
        (translate_point minX minY <$> points edge)
        ((fun x => x - minX) <$> e_x edge)
        ((fun y => y - minY) <$> e_y edge)) g in
  Some (setGraph g
          (mkGraphLabel (ranksep graphLabel) (rankdir graphLabel)
             (marginx graphLabel) (marginy graphLabel)
             (Some (maxX ex - minX + marginX))
             (Some (maxY ex - minY + marginY)))).

End Layout.


(** ** Vocabulary of the statements *)

(** [new] is [old] but for the properties [written]. *)
Definition frame_label (written : list string) (old new : Layout.Label) : Prop :=
  match old, new with
  | None, None => True
  | Some a, Some a' => forall k, k ∉ written -> a' !! k = a !! k
  | _, _ => False
  end.

(** The properties that [updateInputGraph] may write on the label of the
    node [v] and of the edge [e]. *)
Definition node_writes (layoutGraph : Layout.BagGraph) (v : NodeId)
  : list string :=
  if bool_decide (Graphlib.children layoutGraph v <> [])
  then ["x"; "y"; "width"; "height"]%string else ["x"; "y"]%string.

Definition edge_writes (layoutGraph : Layout.BagGraph) (e : Graphlib.Edge)
  : list string :=
  match mjoin (Graphlib.edge layoutGraph e) with
  | Some layoutLabel =>
      if bool_decide (is_Some (layoutLabel !! "x"%string))
      then ["points"; "x"; "y"]%string else ["points"]%string
  | None => []
  end.

(** [new] holds the value of the layout label for each property of [keys]. *)
Definition copied (keys : list string) (layoutLabel new : Layout.Label) : Prop :=
  match layoutLabel, new with
  | Some ll, Some a' => forall k, k ∈ keys -> a' !! k = Some (Layout.get ll k)
  | _, None => True
  | None, Some _ => False
  end.

Definition arc_of (e : Graphlib.Edge) : GreedyFas.Arc :=
  GreedyFas.mkArc (Graphlib.e_v e) (Graphlib.e_w e).

(** [m] relates the state before to the state after by [R] whenever it
    returns. *)
Definition preserves {GL B} (R : GreedyFas.State GL -> GreedyFas.State GL -> Prop)
    (m : GreedyFas.F GL B) : Prop :=
  forall st b st', m st = Ok (b, st') -> R st st'.

(** The states with the same working graph. *)
Definition same_graph {GL} (st st' : GreedyFas.State GL) : Prop :=
  GreedyFas.fasGraph st' = GreedyFas.fasGraph st.

(** The states in which the working graph has not lost nodes. *)
Definition grows {GL} (st st' : GreedyFas.State GL) : Prop :=
  (Graphlib.nodeCount (GreedyFas.fasGraph st)
   <= Graphlib.nodeCount (GreedyFas.fasGraph st'))%nat.

Section ListVocabulary.
Import DataList.

(** [a] and [b] are neighbours: [a._prev] is [b] and [b._next] is [a]. *)
Definition link (h : Heap) (a b : ref) : Prop :=
  _prev h !! a = Some b /\ _next h !! b = Some a.

(** The entries [l] are linked from [a] to [z] along [_prev]. *)
Fixpoint chain (h : Heap) (a : ref) (l : list ref) (z : ref) : Prop :=
  match l with
  | [] => link h a z
  | b :: l => link h a b /\ chain h b l z
  end.

(** The list with sentinel [s] holds the entries [l], the next to leave
    first. *)
Definition is_list (h : Heap) (s : ref) (l : list ref) : Prop :=
  NoDup (s :: l) /\ chain h s l s.

(** An object without links, as [{}] makes it. *)
Definition unlinked (h : Heap) (e : ref) : Prop :=
  _prev h !! e = None /\ _next h !! e = None.

Fixpoint enqueue_all (s : ref) (es : list ref) : M unit :=
  match es with
  | [] => mret tt
  | e :: es => mbind (enqueue s e) (fun _ => enqueue_all s es)
  end.

Fixpoint dequeue_n (s : ref) (n : nat) : M (list (option ref)) :=
  match n with
  | O => mret []
  | S n => mbind (dequeue s) (fun d =>
           mbind (dequeue_n s n) (fun ds => mret (d :: ds)))
  end.

(** The four assignments that end [enqueue]. *)
Definition link_last (sentinel entry : ref) : M unit :=
  mbind (get_next sentinel) (fun sn =>
  mbind (set_next entry sn) (fun _ =>
  mbind (get_next sentinel) (fun sn =>
  mbind (object sn) (fun sn =>
  mbind (set_prev sn (Some entry)) (fun _ =>
  mbind (set_next sentinel (Some entry)) (fun _ =>
  set_prev entry (Some sentinel))))))).

End ListVocabulary.

Section TranslateVocabulary.
Import Graphlib Layout.
Local Open Scope Q_scope.

(** The box of a node, and the box of the label of an edge that has one. *)
Definition rect_of_node (n : NodeLabel) : Util.Rect :=
  Util.mkRect (n_x n) (n_y n) (n_width n) (n_height n).

Definition rect_of_edge (e : EdgeLabel) : option Util.Rect :=
  x ← e_x e; y ← e_y e; Some (Util.mkRect x y (e_width e) (e_height e)).

(** The boxes over which [translateGraph] takes the extremes. *)
Definition boxes (g : LayoutGraph) : list Util.Rect :=
  (rect_of_node <$> (node_entries g).*2)
  ++ omap rect_of_edge (edge_entries g).*2.

Definition left_of (r : Util.Rect) : Q := Util.x r - Util.width r / 2.
Definition right_of (r : Util.Rect) : Q := Util.x r + Util.width r / 2.
Definition top_of (r : Util.Rect) : Q := Util.y r - Util.height r / 2.
Definition bottom_of (r : Util.Rect) : Q := Util.y r + Util.height r / 2.




End TranslateVocabulary.

(** ** Example graphs *)

Module Examples.
Import Graphlib Layout.
Local Open Scope Q_scope.
Local Open Scope string_scope.

(** Two nodes and no edge. *)
Definition two_isolated_nodes : Graph unit unit unit :=
  mkGraph tt [("a", tt); ("b", tt)] [] [].

(** The cycle [a -> b -> a]. *)
Definition two_cycle : Graph unit unit unit :=
  mkGraph tt [("a", tt); ("b", tt)]
    [(mkEdge "a" "b" None, tt); (mkEdge "b" "a" None, tt)] [].

(** An [addNode] that numbers the nodes, and one that happens to give the
    identifiers of [two_cycle]. *)
Definition number_nodes (used : list NodeId) : NodeId :=
  match used with
  | [] => "0"
  | _ => "1"
  end.

Definition name_a_b (used : list NodeId) : NodeId :=
  match used with
  | [] => "a"
  | _ => "b"
  end.

(** Entries that carry the identifier of their node in [v], as
    [removeNode] reads it. *)
Definition v_a_b (r : DataList.ref) : option NodeId :=
  match r with
  | O => Some "a"
  | _ => Some "b"
  end.

(** The state that [buildState] leaves for [two_cycle]. *)
Definition two_cycle_state : GreedyFas.State unit :=
  match GreedyFas.buildState name_a_b two_cycle GreedyFas.DEFAULT_WEIGHT_FN
          (GreedyFas.initial two_cycle) with
  | Ok (_, st) => st
  | _ => GreedyFas.initial two_cycle
  end.

(** That state once the loop of [doGreedyFAS] has taken the entry of [a],
    and once it has taken both entries, from their bucket. *)
Definition two_cycle_picked_a : GreedyFas.State unit :=
  match GreedyFas.pick GreedyFas.no_v [2; 3; 4; 5; 6]%nat 2%Z 3 []
          two_cycle_state with
  | Ok (_, st) => st
  | _ => two_cycle_state
  end.

Definition two_cycle_picked : GreedyFas.State unit :=
  match GreedyFas.pick GreedyFas.no_v [2; 3; 4; 5; 6]%nat 2%Z 3 []
          two_cycle_picked_a with
  | Ok (_, st) => st
  | _ => two_cycle_picked_a
  end.

(** The state that [buildState] leaves for [two_isolated_nodes], and that
    state once the bucket of the sinks is drained. *)
Definition two_nodes_built : GreedyFas.State unit :=
  match GreedyFas.buildState number_nodes two_isolated_nodes
          GreedyFas.DEFAULT_WEIGHT_FN (GreedyFas.initial two_isolated_nodes) with
  | Ok (_, st) => st
  | _ => GreedyFas.initial two_isolated_nodes
  end.

Definition two_nodes_drained : GreedyFas.State unit :=
  match GreedyFas.drain GreedyFas.no_v 3 [2; 3; 4]%nat 1%Z (Some 2%nat) two_nodes_built with
  | Ok (_, st) => st
  | _ => two_nodes_built
  end.

(** Two parallel edges and a single one, with weights and [minlen]s. *)
Definition parallel_edges : Graph unit unit (Q * Q) :=
  mkGraph tt [("a", tt); ("b", tt); ("c", tt)]
    [(mkEdge "a" "b" (Some "e1"), (2, 1)%Q);
     (mkEdge "a" "b" (Some "e2"), (3, 4)%Q);
     (mkEdge "b" "c" None, (1, 1)%Q)] [].

(** A single node of size 2 by 2 centred at (-10, -10), no margins. *)
Definition one_node_left_of_origin : LayoutGraph :=
  mkGraph (mkGraphLabel 50 "tb" None None None None)
          [("a", mkNodeLabel (-10) (-10) 2 2)] [] [].

(** The layout graph of one edge with the default attributes of
    [graphDefaults] and [edgeDefaults]. *)
Definition default_graph_one_edge : LayoutGraph :=
  mkGraph (mkGraphLabel 50 "tb" None None None None)
          [("a", mkNodeLabel 0 0 0 0); ("b", mkNodeLabel 0 0 0 0)]
          [(mkEdge "a" "b" None, mkEdgeLabel 1 "r" 10 0 0 [] None None)] [].

Definition obj (kvs : list (string * Val)) : Label := Some (list_to_map kvs).

(** A compound node [p] listed before its two border nodes. *)
Definition parent_before_borders : BagGraph :=
  mkGraph (obj [])
    [("p", obj [("borderTop", VStr "t"); ("borderBottom", VStr "b")]);
     ("t", obj [("rank", VNum 0)]);
     ("b", obj [("rank", VNum 2)])]
    [] [("t", "p"); ("b", "p")].

(** An input graph and its layout graph for [updateInputGraph]. *)
Definition input_graph : BagGraph :=
  mkGraph (obj [("rankdir", VStr "lr")])
    [("a", obj [("width", VNum 10); ("color", VStr "red")]); ("b", None)]
    [(mkEdge "a" "b" None, obj [("weight", VNum 2)])] [].

Definition layout_graph : BagGraph :=
  mkGraph (obj [("width", VNum 100); ("height", VNum 50)])
    [("a", obj [("x", VNum 5); ("y", VNum 7); ("width", VNum 10)]);
     ("b", obj [("x", VNum 5); ("y", VNum 70)])]
    [(mkEdge "a" "b" None,
      obj [("points", VPoints [Util.mkPoint 5 7; Util.mkPoint 5 70])])] [].

End Examples.

(** * Part I, continued: the rest of the code *)

(** ** Loops whose body may throw *)

Section ResultLoops.
Context {A B : Type}.

(** [_.map(xs, f)] and a loop that updates an accumulator, for a body that
    may throw: the first exception ends the loop. *)
Fixpoint map_result (f : A -> result B) (xs : list A) : result (list B) :=
  match xs with
  | [] => Ok []
  | x :: xs => rbind (f x) (fun y => rbind (map_result f xs) (fun ys => Ok (y :: ys)))
  end.

Fixpoint fold_result (f : B -> A -> result B) (xs : list A) (acc : B) : result B :=
  match xs with
  | [] => Ok acc
  | x :: xs => rbind (f acc x) (fold_result f xs)
  end.
End ResultLoops.

(** ** Helpers of lodash and of the language on arrays and objects *)

Section Lodash.
Local Open Scope Q_scope.

(** [_.min(array)]: the least number of the array, the first of equal ones;
    entries that are [undefined] are skipped and the minimum of no number
    is [undefined]. *)
Definition lodash_min (array : list (option Q)) : option Q :=
  fold_left (fun computed current =>
               match current, computed with
               | Some a, Some b => if Qltb a b then Some a else Some b
               | Some a, None => Some a
               | None, _ => computed
               end) array None.

(** [_.zipObject(props, values)] and [Object.fromEntries(entries)]: the
    object with the given keys, a later value for a key replaces the
    earlier one. *)
Definition fromEntries {K V} `{EqDecision K} (entries : list (K * V))
  : list (K * V) :=
  fold_left (fun o kv => assoc_set kv.1 kv.2 o) entries [].

Definition zipObject {K V} `{EqDecision K} (props : list K) (values : list V)
  : list (K * V) :=
  fromEntries (zip props values).

(** [_.uniqueId(prefix)]: lodash increments a counter of its own and
    returns the prefix followed by the decimal numeral of the counter.  The
    counter is threaded through the functions that call it. *)
Definition uniqueId (prefix : string) (idCounter : nat) : string * nat :=
  let id := S idCounter in
  (prefix +:+ pretty id, id).

Definition is_integer (q : Q) : bool := Qeq_bool q (inject_Z (Qfloor q)).

(** The greatest length of an array, [2^32 - 1]. *)
Definition max_array_length : Z := 4294967295.

(** The index that a number denotes in [array[q]]: the indices are the
    whole numbers from 0 below the greatest length; any other number names
    a property that is no element of the array. *)
Definition array_index (q : Q) : option nat :=
  if Qle_bool 0 q && is_integer q && (Qfloor q <? max_array_length)%Z
  then Some (Z.to_nat (Qfloor q)) else None.

(** The length of [_.range(end)], which counts from 0 up by 1 when
    [0 < end] and down by 1 otherwise: [Math.max(Math.ceil(end / step), 0)],
    with which [Array(length)] throws a [RangeError] when it exceeds the
    greatest length. *)
Definition range_length (end_ : Q) : result nat :=
  let step := if Qltb 0 end_ then 1%Q else (-1)%Q in
  let length := Z.max (Qceiling (end_ / step)) 0 in
  if (length <=? max_array_length)%Z then Ok (Z.to_nat length) else Throw.

(** [array[i] = x] on an array with holes: an index beyond the end extends
    the array and leaves holes ([None]) before it. *)
Fixpoint sparse_set {A} (i : nat) (x : A) (array : list (option A))
  : list (option A) :=
  match i, array with
  | O, [] => [Some x]
  | O, _ :: array => Some x :: array
  | S i, [] => None :: sparse_set i x []
  | S i, y :: array => y :: sparse_set i x array
  end.

(** [array[i]], where a hole reads as [undefined]. *)
Definition sparse_get {A} (i : nat) (array : list (option A)) : option A :=
  mjoin (array !! i).
End Lodash.

(** ** The other functions of [src/util.ts] *)

Module UtilGraph.
Import Graphlib.
Local Open Scope Q_scope.

(** *** [partition] *)

Record Partition (A : Type) := mkPartition { lhs : list A; rhs : list A }.
Arguments mkPartition {A}.
Arguments lhs {A}.
Arguments rhs {A}.

(** [partition(collection, fn)] over an array; [fn] answers a boolean. *)
Definition partition {A} (collection : list A) (fn : A -> bool) : Partition A :=
  fold_left (fun result value =>
               if fn value
               then mkPartition (lhs result ++ [value]) (rhs result)
               else mkPartition (lhs result) (rhs result ++ [value]))
            collection (mkPartition [] []).

(** *** [addDummyNode] and [addBorderNode] *)

Section Dummy.
Context {GL NL EL : Type}.
(** [set_dummy type attrs] is [attrs] after [attrs.dummy = type]. *)
Context (set_dummy : string -> NL -> NL).
Implicit Types g : Graph GL NL EL.

(** The loop [do { v = _.uniqueId(name) } while (g.hasNode(v))]. *)
Fixpoint addDummyNode_loop (fuel : nat) g (name : string) (idCounter : nat)
  : result (NodeId * nat) :=
  match fuel with
  | O => OutOfFuel
  | S fuel =>
      let '(v, idCounter) := uniqueId name idCounter in
      if hasNode g v then addDummyNode_loop fuel g name idCounter
      else Ok (v, idCounter)
  end.

(** [addDummyNode(g, type, attrs, name)] returns [v], the graph with the
    new node and the counter of [_.uniqueId]. *)
Definition addDummyNode (fuel : nat) g (type : string) (attrs : NL)
    (name : string) (idCounter : nat)
  : result (NodeId * Graph GL NL EL * nat) :=
  rbind (addDummyNode_loop fuel g name idCounter) (fun '(v, idCounter) =>
    let attrs := set_dummy type attrs in
    Ok (v, setNode g v attrs, idCounter)).
End Dummy.

(** The label that [addBorderNode] makes. *)
Record BorderNode := mkBorderNode {
  b_width : Q;
  b_height : Q;
  b_rank : option Q;
  b_order : option Q;
  b_dummy : option string
}.

Definition set_border_dummy (type : string) (node : BorderNode) : BorderNode :=
  mkBorderNode (b_width node) (b_height node) (b_rank node) (b_order node)
               (Some type).


(** *** [asNonCompoundGraph] *)

Section NonCompound.
Context {GL NL EL : Type}.
(** The label of a node that [setEdge] has to create. *)
Context (undefined : NL).

Definition asNonCompoundGraph (g : Graph GL NL EL) : Graph GL NL EL :=
  let simplified := newGraph (graph g) in
  let simplified :=
    fold_left (fun s vl =>
                 if bool_decide (length (children g vl.1) = 0%nat)
                 then setNode s vl.1 vl.2 else s)
              (node_entries g) simplified in
  fold_left (fun s el => setEdge undefined s el.1 el.2)
            (edge_entries g) simplified.
End NonCompound.

(** *** [successorWeights] and [predecessorWeights] *)

(** The names of the properties that an object literal [{}] inherits from
    [Object.prototype]. *)
Definition object_prototype_names : list string :=
  ["constructor"; "__defineGetter__"; "__defineSetter__"; "hasOwnProperty";
   "__lookupGetter__"; "__lookupSetter__"; "isPrototypeOf";
   "propertyIsEnumerable"; "toString"; "valueOf"; "__proto__";
   "toLocaleString"]%string.

(** A value of the objects [sucs] and [preds]: a number, or the string
    that [+] makes of the inherited property [name], a function whose text
    is not empty, and the weights added to it, in their order. *)
Inductive WeightValue : Type :=
  | Weight (q : Q)
  | Text (name : string) (weights : list Q).

Section Weights.
Context {GL NL EL : Type}.
(** [weight_of] reads [label.weight]. *)
Context (weight_of : EL -> Q).
Implicit Types g : Graph GL NL EL.

(** What [sucs[k] = (sucs[k] || 0) + weight] stores under [k], from the
    entry that [sucs] has of its own for [k].  A number is added to (one
    that is 0 is replaced by 0), a string is appended to.  Without an own
    entry, [sucs[k]] is 0 unless [k] names an inherited property: then the
    sum is a string, and for [__proto__], which is not written through,
    nothing is stored. *)
Definition add_value (own : option WeightValue) (k : NodeId) (weight : Q)
  : option WeightValue :=
  match own with
  | Some (Weight q) => Some (Weight (q + weight))
  | Some (Text name weights) => Some (Text name (weights ++ [weight]))
  | None =>
      if decide (k = "__proto__"%string) then None
      else if decide (k ∈ object_prototype_names) then Some (Text k [weight])
      else Some (Weight (0 + weight))
  end.

(** The body of the inner loops, [sucs[e.w] = (sucs[e.w] || 0) +
    g.edge(e).weight] with [key] for [e.w] or [e.v]. *)
Definition add_weight g (key : Edge -> NodeId)
    (sucs : list (NodeId * WeightValue)) (e : Edge)
  : result (list (NodeId * WeightValue)) :=
  match edge g e with
  | Some label =>
      Ok (match add_value (assoc_get (key e) sucs) (key e) (weight_of label) with
          | Some x => assoc_set (key e) x sucs
          | None => sucs
          end)
  | None => Throw
  end.

Definition successorWeights g
  : result (list (NodeId * list (NodeId * WeightValue))) :=
  rbind (map_result (fun v =>
           fold_result (add_weight g e_w) (default [] (outEdges g v)) [])
         (nodes g))
        (fun weightMap => Ok (zipObject (nodes g) weightMap)).

Definition predecessorWeights g
  : result (list (NodeId * list (NodeId * WeightValue))) :=
  rbind (map_result (fun v =>
           fold_result (add_weight g e_v) (default [] (inEdges g v)) [])
         (nodes g))
        (fun weightMap => Ok (zipObject (nodes g) weightMap)).

(** The entry for [w] that [weights[v]] has of its own. *)
Definition weight_at (weights : list (NodeId * list (NodeId * WeightValue)))
    (v w : NodeId) : option WeightValue :=
  assoc_get v weights ≫= assoc_get w.
End Weights.

End UtilGraph.

(** *** The functions on ranks

    The node labels are records with the two properties that these
    functions read and write; an absent property is [None]. *)

Module Ranks.
Import Graphlib.
Local Open Scope Q_scope.

Record RankedNode := mkRankedNode { rank : option Q; order : option Q }.

Section Ranks.
Context {GL EL : Type}.
Implicit Types g : Graph GL RankedNode EL.

(** [_.map(g.nodes(), v => g.node(v).rank)] *)
Definition ranks g : list (option Q) := (fun vl => rank vl.2) <$> node_entries g.

Definition map_ranked (f : RankedNode -> RankedNode) g : Graph GL RankedNode EL :=
  mkGraph (graph g) (prod_map id f <$> node_entries g) (edge_entries g)
          (parent_entries g).

(** The body of the loop of [normalizeRanks]; [min] is defined when a node
    has a rank. *)
Definition normalize_node (min : option Q) (node : RankedNode) : RankedNode :=
  match rank node, min with
  | Some r, Some min => mkRankedNode (Some (r - min)) (order node)
  | _, _ => node
  end.

Definition normalizeRanks g : Graph GL RankedNode EL :=
  let min := lodash_min (ranks g) in
  map_ranked (normalize_node min) g.

Definition maxRank g : Q :=
  fold_left (fun max vl =>
               match rank vl.2 with
               | Some rank => if Qltb max rank then rank else max
               | None => max
               end)
            (node_entries g) 0.

(** [layering[rank][node.order] = v]: an exception when [rank] names no
    row of the matrix; an [order] that is no index sets a property that is
    no element of the row. *)
Definition place (layering : list (list (option NodeId))) (v : NodeId)
    (node : RankedNode) : result (list (list (option NodeId))) :=
  match rank node with
  | None => Ok layering
  | Some rank =>
      match array_index rank ≫= (fun i => pair i <$> layering !! i) with
      | None => Throw
      | Some (i, row) =>
          match order node ≫= array_index with
          | Some o => Ok (<[i := sparse_set o v row]> layering)
          | None => Ok layering
          end
      end
  end.

(** [buildLayerMatrix(g)]: a row for each entry of
    [_.range(maxRank(g) + 1)], then the loop over the nodes. *)
Definition buildLayerMatrix g : result (list (list (option NodeId))) :=
  rbind (range_length (maxRank g + 1)) (fun length =>
    let layering := replicate length [] in
    fold_result (fun layering vl => place layering vl.1 vl.2)
                (node_entries g) layering).
End Ranks.

(** The graph label of [removeEmptyRanks]. *)
Record RankConfig := mkRankConfig { nodeRankFactor : option Q }.

Section RemoveEmptyRanks.
Context {EL : Type}.
Implicit Types g : Graph RankConfig RankedNode EL.

(** [if (!layers[rank]) layers[rank] = []; layers[rank].push(v)] for a
    [rank] that is an index. *)
Definition push_layer (layers : list (option (list NodeId))) (i : nat)
    (v : NodeId) : list (option (list NodeId)) :=
  sparse_set i (default [] (sparse_get i layers) ++ [v]) layers.

(** [g.node(v).rank - offset] as the index of a layer: a node without a
    rank, or whose rank is not a whole number of ranks above the least one
    or is beyond the indices of an array, names a property that is no
    element of [layers], and the loop over the layers does not see it. *)
Definition layer_index (offset : option Q) (node : RankedNode) : option nat :=
  match rank node, offset with
  | Some r, Some offset => array_index (r - offset)
  | _, _ => None
  end.

Definition layers_of g (offset : option Q) : list (option (list NodeId)) :=
  fold_left (fun layers vl =>
               match layer_index offset vl.2 with
               | Some i => push_layer layers i vl.1
               | None => layers
               end)
            (node_entries g) [].

(** [i % nodeRankFactor === 0] for an index [i]: [nodeRankFactor] is a
    number other than 0 of which [i] is a multiple. *)
Definition is_multiple (i : nat) (nodeRankFactor : option Q) : bool :=
  match nodeRankFactor with
  | Some f => negb (is_zero f) && is_integer (inject_Z (Z.of_nat i) / f)
  | None => false
  end.

(** [g.node(v).rank += delta] *)
Definition add_rank (delta : Q) (nodes : list (NodeId * RankedNode))
    (v : NodeId) : list (NodeId * RankedNode) :=
  match assoc_get v nodes with
  | Some node =>
      assoc_set v (mkRankedNode ((fun r => r + delta) <$> rank node)
                                (order node)) nodes
  | None => nodes
  end.

(** The body of the loop over the layers: the state is [delta] and the
    node labels. *)
Definition shift_layer (nodeRankFactor : option Q)
    (st : Q * list (NodeId * RankedNode))
    (ivs : nat * option (list NodeId)) : Q * list (NodeId * RankedNode) :=
  let '(delta, nodes) := st in
  let '(i, vs) := ivs in
  match vs with
  | None =>
      if negb (is_multiple i nodeRankFactor) then (delta - 1, nodes)
      else (delta, nodes)
  | Some vs =>
      if is_zero delta then (delta, nodes)
      else (delta, fold_left (add_rank delta) vs nodes)
  end.

Definition removeEmptyRanks g : Graph RankConfig RankedNode EL :=
  let offset := lodash_min (ranks g) in
  let layers := layers_of g offset in
  let nodeRankFactor := nodeRankFactor (graph g) in
  let '(_, nodes) :=
    fold_left (shift_layer nodeRankFactor) (imap pair layers)
              (0, node_entries g) in
  mkGraph (graph g) nodes (edge_entries g) (parent_entries g).
End RemoveEmptyRanks.

End Ranks.

(** ** The other passes of [src/layout.ts] *)

Module Passes.
Import Graphlib Util.
Local Open Scope Q_scope.

(** *** [canonicalize]

    An object is the list of its entries in the order in which
    [Object.entries] enumerates them. *)
Definition canonicalize {T} (attrs : list (string * T)) : list (string * T) :=
  fromEntries ((fun '(key, value) => (toLowerCase key, value)) <$> attrs).

(** *** [assignNodeIntersects]

    The node labels are the rectangles that [intersectRect] reads; of the
    edge labels the pass touches [points]. *)
Record PathEdge := mkPathEdge { path : option (list Point) }.

Definition centre (rect : Rect) : Point := mkPoint (x rect) (y rect).

(** The body of the loop: the new [edge.points]. *)
Definition intersects_of_edge {GL} (g : Graph GL Rect PathEdge) (e : Edge)
    (edge : PathEdge) : result (list Point) :=
  match node g (e_v e), node g (e_w e) with
  | Some nodeV, Some nodeW =>
      let '(points, p1, p2) :=
        match path edge with
        | None => ([], Some (centre nodeW), Some (centre nodeV))
        | Some points => (points, head points, last points)
        end in
      match p1, p2 with
      | Some p1, Some p2 =>
          rbind (intersectRect nodeV p1) (fun q1 =>
          let points := q1 :: points in
          rbind (intersectRect nodeW p2) (fun q2 =>
          Ok (points ++ [q2])))
      | _, _ => Throw
      end
  | _, _ => Throw
  end.

Definition assignNodeIntersects {GL} (g : Graph GL Rect PathEdge)
  : result (Graph GL Rect PathEdge) :=
  rbind (map_result (fun el =>
           rbind (intersects_of_edge g el.1 el.2) (fun points =>
           Ok (el.1, mkPathEdge (Some points))))
         (edge_entries g))
        (fun edge_entries =>
           Ok (mkGraph (graph g) (node_entries g) edge_entries
                       (parent_entries g))).

(** *** [fixupEdgeLabelCoords] *)

Definition fixup_edge (edge : Layout.EdgeLabel) : Layout.EdgeLabel :=
  match Layout.e_x edge with
  | Some x =>
      let width :=
        if bool_decide (Layout.labelpos edge = "l"%string)
           || bool_decide (Layout.labelpos edge = "r"%string)
        then Layout.e_width edge - Layout.labeloffset edge
        else Layout.e_width edge in
      let x :=
        if bool_decide (Layout.labelpos edge = "l"%string)
        then x - (width / 2 + Layout.labeloffset edge)
        else if bool_decide (Layout.labelpos edge = "r"%string)
        then x + (width / 2 + Layout.labeloffset edge)
        else x in
      Layout.mkEdgeLabel (Layout.minlen edge) (Layout.labelpos edge)
        (Layout.labeloffset edge) width (Layout.e_height edge)
        (Layout.points edge) (Some x) (Layout.e_y edge)
  | None => edge
  end.

Definition fixupEdgeLabelCoords (g : Layout.LayoutGraph) : Layout.LayoutGraph :=
  Layout.map_edge_labels fixup_edge g.

(** *** [reversePointsForReversedEdges]

    [reversed] holds when [edge.reversed] is truthy. *)
Record ReversibleEdge := mkReversibleEdge {
  reversed : bool;
  r_points : option (list Point)
}.

Definition reverse_edge (edge : ReversibleEdge) : result ReversibleEdge :=
  if reversed edge then
    match r_points edge with
    | Some points => Ok (mkReversibleEdge (reversed edge) (Some (reverse points)))
    | None => Throw
    end
  else Ok edge.

Definition reversePointsForReversedEdges {GL NL}
    (g : Graph GL NL ReversibleEdge) : result (Graph GL NL ReversibleEdge) :=
  rbind (map_result (fun el =>
           rbind (reverse_edge el.2) (fun edge => Ok (el.1, edge)))
         (edge_entries g))
        (fun edge_entries =>
           Ok (mkGraph (graph g) (node_entries g) edge_entries
                       (parent_entries g))).

(** *** [removeSelfEdges]

    Of the node labels the pass touches [selfEdges], the array of the
    pairs [{e, label}]. *)
Section SelfEdges.
Context {GL EL : Type}.

Record SelfNode := mkSelfNode { selfEdges : option (list (Edge * EL)) }.

Implicit Types g : Graph GL SelfNode EL.

(** [g.removeEdge(e)] *)
Definition removeEdge g (e : Edge) : Graph GL SelfNode EL :=
  mkGraph (graph g) (node_entries g) (assoc_del e (edge_entries g))
          (parent_entries g).

(** The body of the loop. *)
Definition removeSelfEdge g (e : Edge) : result (Graph GL SelfNode EL) :=
  if bool_decide (e_v e = e_w e) then
    match node g (e_v e), edge g e with
    | Some node, Some label =>
        let selfEdges := default [] (selfEdges node) in
        let node := mkSelfNode (Some (selfEdges ++ [(e, label)])) in
        Ok (removeEdge (setNode g (e_v e) node) e)
    | _, _ => Throw
    end
  else Ok g.

Definition removeSelfEdges g : result (Graph GL SelfNode EL) :=
  fold_result removeSelfEdge (edges g) g.
End SelfEdges.
Arguments SelfNode : clear implicits.
Arguments mkSelfNode {EL}.

(** *** [injectEdgeLabelProxies] and [removeEdgeLabelProxies]

    The node labels have the rank that the ranking has given, [dummy] and
    [e]; the edge labels have the size of the label and [labelRank]. *)
Record ProxyNode := mkProxyNode {
  p_rank : Q;
  p_dummy : option string;
  p_e : option Edge
}.

Record ProxyEdge := mkProxyEdge {
  pe_width : Q;
  pe_height : Q;
  labelRank : option Q
}.

Definition set_proxy_dummy (type : string) (node : ProxyNode) : ProxyNode :=
  mkProxyNode (p_rank node) (Some type) (p_e node).

Section Proxies.
Context {GL : Type}.
Implicit Types g : Graph GL ProxyNode ProxyEdge.

(** The body of the loop of [injectEdgeLabelProxies]; the state is the
    graph and the counter of [_.uniqueId]. *)
Definition inject_proxy (fuel : nat)
    (st : Graph GL ProxyNode ProxyEdge * nat) (e : Edge)
  : result (Graph GL ProxyNode ProxyEdge * nat) :=
  let '(g, idCounter) := st in
  match edge g e with
  | Some edge =>
      if negb (is_zero (pe_width edge)) && negb (is_zero (pe_height edge)) then
        match node g (e_v e), node g (e_w e) with
        | Some v, Some w =>
            let label :=
              mkProxyNode ((p_rank w - p_rank v) / 2 + p_rank v) None (Some e) in
            rbind (UtilGraph.addDummyNode set_proxy_dummy fuel g "edge-proxy"
                     label "_ep" idCounter)
                  (fun '(_, g, idCounter) => Ok (g, idCounter))
        | _, _ => Throw
        end
      else Ok st
  | None => Throw
  end.

Definition injectEdgeLabelProxies (fuel : nat) g (idCounter : nat)
  : result (Graph GL ProxyNode ProxyEdge * nat) :=
  fold_result (inject_proxy fuel) (edges g) (g, idCounter).

(** [g.edge(e).labelRank = rank] *)
Definition set_labelRank g (e : Edge) (edge : ProxyEdge) (rank : Q)
  : Graph GL ProxyNode ProxyEdge :=
  mkGraph (graph g) (node_entries g)
          (assoc_set e (mkProxyEdge (pe_width edge) (pe_height edge) (Some rank))
                     (edge_entries g))
          (parent_entries g).

(** The body of the loop of [removeEdgeLabelProxies]. *)
Definition remove_proxy g (v : NodeId) : result (Graph GL ProxyNode ProxyEdge) :=
  match node g v with
  | Some node =>
      if bool_decide (p_dummy node = Some "edge-proxy"%string) then
        match p_e node ≫= (fun e => pair e <$> edge g e) with
        | Some (e, edge) =>
            Ok (removeNode (set_labelRank g e edge (p_rank node)) v)
        | None => Throw
        end
      else Ok g
  | None => Throw
  end.

Definition removeEdgeLabelProxies g : result (Graph GL ProxyNode ProxyEdge) :=
  fold_result remove_proxy (nodes g) g.
End Proxies.

(** *** [removeBorderNodes]

    The node labels have the box of the node, [dummy] and the border nodes
    of a node with children. *)
Record BoxNode := mkBoxNode {
  bx_x : Q;
  bx_y : Q;
  bx_width : Q;
  bx_height : Q;
  bx_dummy : option string;
  borderTop : option NodeId;
  borderBottom : option NodeId;
  borderLeft : option (list NodeId);
  borderRight : option (list NodeId)
}.

Section BorderNodes.
Context {GL EL : Type}.
Implicit Types g : Graph GL BoxNode EL.

(** The assignments to [node.width], [node.height], [node.x] and
    [node.y]; reading a property of a border node that the graph does not
    have is a [TypeError]. *)
Definition border_box g (node : BoxNode) : result BoxNode :=
  match borderTop node ≫= Graphlib.node g,
        borderBottom node ≫= Graphlib.node g,
        (borderLeft node ≫= last) ≫= Graphlib.node g,
        (borderRight node ≫= last) ≫= Graphlib.node g with
  | Some t, Some b, Some l, Some r =>
      let width := Qabs (bx_x r - bx_x l) in
      let height := Qabs (bx_y b - bx_y t) in
      Ok (mkBoxNode (bx_x l + width / 2) (bx_y t + height / 2) width height
            (bx_dummy node) (borderTop node) (borderBottom node)
            (borderLeft node) (borderRight node))
  | _, _, _, _ => Throw
  end.

(** The body of the first loop. *)
Definition size_from_borders g (v : NodeId) : result (Graph GL BoxNode EL) :=
  if bool_decide (length (children g v) <> 0%nat) then
    match Graphlib.node g v with
    | Some node => rbind (border_box g node) (fun node => Ok (setNode g v node))
    | None => Throw
    end
  else Ok g.

(** The body of the second loop. *)
Definition remove_border g (v : NodeId) : result (Graph GL BoxNode EL) :=
  match Graphlib.node g v with
  | Some node =>
      if bool_decide (bx_dummy node = Some "border"%string)
      then Ok (removeNode g v) else Ok g
  | None => Throw
  end.

Definition removeBorderNodes g : result (Graph GL BoxNode EL) :=
  rbind (fold_result size_from_borders (nodes g) g) (fun g =>
  fold_result remove_border (nodes g) g).
End BorderNodes.

End Passes.

(** ** Vocabulary of the further statements *)

Section WeightVocabulary.
Import Graphlib.
Local Open Scope Q_scope.
Context {EL : Type} (weight_of : EL -> Q).

(** The body of the inner loops of [successorWeights] and
    [predecessorWeights] on an edge together with its label. *)
Definition add_labelled (key : Edge -> NodeId)
    (sucs : list (NodeId * UtilGraph.WeightValue)) (el : Edge * EL)
  : list (NodeId * UtilGraph.WeightValue) :=
  match UtilGraph.add_value (assoc_get (key el.1) sucs) (key el.1)
          (weight_of el.2) with
  | Some x => assoc_set (key el.1) x sucs
  | None => sucs
  end.

(** The entry that the loop leaves under [k] after the edges [els], from
    the entry [own] at its start. *)
Definition added (k : NodeId) (els : list (Edge * EL))
    (own : option UtilGraph.WeightValue) : option UtilGraph.WeightValue :=
  fold_left (fun own el => UtilGraph.add_value own k (weight_of el.2)) els own.
End WeightVocabulary.

Section ClipVocabulary.
Import Util.
Local Open Scope Q_scope.

(** [q] is where the ray from the centre of [rect] through [p] leaves the
    rectangle: its offset from the centre is a positive multiple of that of
    [p], it is within the half extents and on one of the sides. *)
Definition clipped (rect : Rect) (p q : Point) : Prop :=
  exists t, 0 < t /\
    px q - x rect == t * (px p - x rect) /\
    py q - y rect == t * (py p - y rect) /\
    Qabs (px q - x rect) <= width rect / 2 /\
    Qabs (py q - y rect) <= height rect / 2 /\
    (Qabs (px q - x rect) == width rect / 2 \/
     Qabs (py q - y rect) == height rect / 2).
End ClipVocabulary.

Section SelfEdgeVocabulary.
Import Graphlib Passes.
Context {EL : Type}.

(** The self-loops at [v] among labelled edges, in their order. *)
Definition loops_at (v : NodeId) (els : list (Edge * EL)) : list (Edge * EL) :=
  filter (fun el : Edge * EL => e_v el.1 = v /\ e_w el.1 = v) els.

(** A node label once the loops [loops] are pushed on its [selfEdges]. *)
Definition with_loops (node : SelfNode EL) (loops : list (Edge * EL))
  : SelfNode EL :=
  match loops with
  | [] => node
  | _ => mkSelfNode (Some (default [] (selfEdges node) ++ loops))
  end.
End SelfEdgeVocabulary.

Section LayerVocabulary.
Import Graphlib Ranks.

(** The row and the column that [buildLayerMatrix] gives to a node. *)
Definition position (node : RankedNode) : option (nat * nat) :=
  i ← rank node ≫= array_index;
  o ← order node ≫= array_index;
  Some (i, o).

(** The last of the nodes of a list whose position is row [i], column
    [o]. *)
Definition occupant (i o : nat) (entries : list (NodeId * RankedNode))
  : option NodeId :=
  last (filter (fun vl : NodeId * RankedNode => position vl.2 = Some (i, o))
               entries).*1.

(** [layering[i][o]] *)
Definition cell (layering : list (list (option NodeId))) (i o : nat)
  : option NodeId :=
  layering !! i ≫= sparse_get o.
End LayerVocabulary.

Section EmptyRankVocabulary.
Import Graphlib Ranks.
Local Open Scope Q_scope.

(** [delta] after [n] runs of [--delta]. *)
Definition delta_after (n : nat) : Q := Nat.iter n (fun delta => delta - 1) 0.

(** A node label after [rank += delta], which the loop skips when [delta]
    is 0. *)
Definition shift_by (delta : Q) (node : RankedNode) : RankedNode :=
  if is_zero delta then node
  else mkRankedNode ((fun r => r + delta) <$> rank node) (order node).

(** [g.node(v).rank - offset] as a number of whole ranks above the least
    one, be it the index of a layer or beyond the indices of an array. *)
Definition rank_steps (offset : option Q) (node : RankedNode) : option nat :=
  match rank node, offset with
  | Some r, Some offset =>
      if Qle_bool 0 (r - offset) && is_integer (r - offset)
      then Some (Z.to_nat (Qfloor (r - offset))) else None
  | _, _ => None
  end.

(** The layer [j] holds a node. *)
Definition occupied (offset : option Q) (entries : list (NodeId * RankedNode))
    (j : nat) : bool :=
  bool_decide (Exists (fun vl : NodeId * RankedNode =>
                         layer_index offset vl.2 = Some j) entries).

(** The layers below [i] that hold no node and whose index is not a
    multiple of [nodeRankFactor]. *)
Fixpoint gaps_below (nodeRankFactor offset : option Q)
    (entries : list (NodeId * RankedNode)) (i : nat) : nat :=
  match i with
  | O => O
  | S j =>
      (gaps_below nodeRankFactor offset entries j
       + if negb (occupied offset entries j)
            && negb (is_multiple j nodeRankFactor)
         then 1 else 0)%nat
  end.
End EmptyRankVocabulary.

Section LayerNodesVocabulary.
Import Graphlib Ranks.

(** The nodes of layer [j], in the order of the entries. *)
Definition layer_nodes (offset : option Q) (entries : list (NodeId * RankedNode))
    (j : nat) : list NodeId :=
  (filter (fun vl : NodeId * RankedNode => layer_index offset vl.2 = Some j)
          entries).*1.
End LayerNodesVocabulary.

Section ProxyVocabulary.
Import Graphlib Passes.
Local Open Scope Q_scope.
Context {GL : Type}.

(** [edge.width && edge.height] *)
Definition has_label (edge : ProxyEdge) : bool :=
  negb (is_zero (pe_width edge)) && negb (is_zero (pe_height edge)).

(** The rank half way between the ends of an edge. *)
Definition label_rank (g : Graph GL ProxyNode ProxyEdge) (e : Edge) : option Q :=
  v ← node g (e_v e);
  w ← node g (e_w e);
  Some ((p_rank w - p_rank v) / 2 + p_rank v).

(** The graph [g] with other nodes. *)
Definition with_nodes (g : Graph GL ProxyNode ProxyEdge)
    (entries : list (NodeId * ProxyNode)) : Graph GL ProxyNode ProxyEdge :=
  mkGraph (graph g) entries (edge_entries g) (parent_entries g).

(** [p] is the proxy of the labelled edge [el]. *)
Definition proxy_of (g : Graph GL ProxyNode ProxyEdge) (el : Edge * ProxyEdge)
    (p : NodeId * ProxyNode) : Prop :=
  exists r, label_rank g el.1 = Some r /\
            p.2 = mkProxyNode r (Some "edge-proxy"%string) (Some el.1).
End ProxyVocabulary.

Section BorderVocabulary.
Import Graphlib Passes.
Local Open Scope Q_scope.
Context {GL EL : Type}.

(** The four border nodes that [removeBorderNodes] reads for a node with
    children: they are nodes of the graph without children. *)
Definition borders_of (g : Graph GL BoxNode EL) (nd : BoxNode)
    (t b l r : BoxNode) : Prop :=
  exists tid bid lid rid,
    borderTop nd = Some tid /\ borderBottom nd = Some bid /\
    borderLeft nd ≫= last = Some lid /\ borderRight nd ≫= last = Some rid /\
    node g tid = Some t /\ node g bid = Some b /\
    node g lid = Some l /\ node g rid = Some r /\
    children g tid = [] /\ children g bid = [] /\
    children g lid = [] /\ children g rid = [].

(** The label of a node with children once its box is taken from the
    border nodes. *)
Definition boxed (nd t b l r : BoxNode) : BoxNode :=
  mkBoxNode (bx_x l + Qabs (bx_x r - bx_x l) / 2)
            (bx_y t + Qabs (bx_y b - bx_y t) / 2)
            (Qabs (bx_x r - bx_x l)) (Qabs (bx_y b - bx_y t))
            (bx_dummy nd) (borderTop nd) (borderBottom nd)
            (borderLeft nd) (borderRight nd).

Definition is_border (nd : BoxNode) : Prop := bx_dummy nd = Some "border"%string.
End BorderVocabulary.

Section BorderVocabulary2.
Import Graphlib Passes.
Context {GL EL : Type}.

(** The label of a node after the first loop of [removeBorderNodes]. *)
Definition box_of (g : Graph GL BoxNode EL) (v : NodeId) (nd : BoxNode) : BoxNode :=
  if decide (children g v = []) then nd
  else match border_box g nd with
       | Ok nd' => nd'
       | _ => nd
       end.

(** [v] is a border node of [g]. *)
Definition is_border_node (g : Graph GL BoxNode EL) (v : NodeId) : bool :=
  match node g v with
  | Some nd => bool_decide (is_border nd)
  | None => false
  end.
End BorderVocabulary2.

Section BorderVocabulary3.
Import Graphlib Passes.
Context {GL EL : Type}.

(** The graph after the first loop of [removeBorderNodes] has handled the
    nodes [done]. *)
Definition sized (g : Graph GL BoxNode EL) (done : list NodeId)
    (cur : Graph GL BoxNode EL) : Prop :=
  graph cur = graph g /\ edge_entries cur = edge_entries g /\
  parent_entries cur = parent_entries g /\ nodes cur = nodes g /\
  forall v nd, node g v = Some nd ->
    node cur v = Some (if decide (v ∈ done) then box_of g v nd else nd).
End BorderVocabulary3.

(** ** Further examples *)

Module ListExamples.
Import DataList.
Local Open Scope list_monad_scope.

(** The heap after [l = new List(); e1 = {}; e2 = {}]: the list is the
    reference 0, the entries are 1 and 2. *)
Definition empty_list_two_objects : Heap :=
  match (l <- new_List; e1 <- alloc; e2 <- alloc; mret l) empty_heap with
  | Ok (_, h) => h
  | _ => empty_heap
  end.

(** That heap after [l.enqueue(e1); l.enqueue(e2)]. *)
Definition list_of_two : Heap :=
  match (enqueue 0 1;; enqueue 0 2) empty_list_two_objects with
  | Ok (_, h) => h
  | _ => empty_heap
  end.

End ListExamples.

Module RankExamples.
Import Graphlib Ranks.
Local Open Scope Q_scope.
Local Open Scope string_scope.

(** Nodes of ranks 3 and 5 and a node without a rank. *)
Definition ranks_3_5 : Graph RankConfig RankedNode unit :=
  mkGraph (mkRankConfig None)
    [("a", mkRankedNode (Some 3) (Some 0));
     ("b", mkRankedNode (Some 5) (Some 0));
     ("c", mkRankedNode None None)] [] [].

End RankExamples.

Module DummyExamples.
Import Graphlib UtilGraph.
Local Open Scope Q_scope.
Local Open Scope string_scope.

(** A graph in which the first two identifiers that [_.uniqueId("_bt")]
    yields are taken. *)
Definition taken_ids : Graph unit BorderNode unit :=
  mkGraph tt
    [("_bt1", mkBorderNode 0 0 None None (Some "border"));
     ("a", mkBorderNode 10 10 None None None);
     ("_bt2", mkBorderNode 0 0 None None (Some "border"))] [] [].

End DummyExamples.

Module GraphExamples.
Import Graphlib.
Local Open Scope Q_scope.
Local Open Scope string_scope.

(** A compound node [p] with the child [c], an edge from [p] and two
    parallel edges; the edge labels are weights, the node labels names. *)
Definition compound_with_edges : Graph unit string Q :=
  mkGraph tt
    [("p", "parent"); ("c", "child"); ("a", "left"); ("b", "right")]
    [(mkEdge "p" "a" None, 1);
     (mkEdge "a" "b" (Some "e1"), 2);
     (mkEdge "a" "b" (Some "e2"), 3)]
    [("c", "p")].

(** An edge to a node that has the name of a property of
    [Object.prototype]. *)
Definition inherited_name : Graph unit string Q :=
  mkGraph tt [("a", "left"); ("constructor", "right")]
    [(mkEdge "a" "constructor" None, 1)] [].

End GraphExamples.

Module PassExamples.
Import Graphlib Util Passes.
Local Open Scope Q_scope.
Local Open Scope string_scope.

(** Two boxes side by side, an edge without points and one with a bend. *)
Definition two_boxes : Graph unit Rect PathEdge :=
  mkGraph tt
    [("a", mkRect 0 0 4 2); ("b", mkRect 10 0 4 2)]
    [(mkEdge "a" "b" None, mkPathEdge None);
     (mkEdge "b" "a" None, mkPathEdge (Some [mkPoint 5 5]))] [].

(** What [assignNodeIntersects] makes of [two_boxes]. *)
Definition two_boxes_clipped : Graph unit Rect PathEdge :=
  match assignNodeIntersects two_boxes with
  | Ok g => g
  | _ => two_boxes
  end.

(** A layout graph drawn from top to bottom with a label on the left of
    its edge, once the edge has a position. *)
Definition labelled_edge : Layout.LayoutGraph :=
  mkGraph (Layout.mkGraphLabel 50 "TB" None None None None)
          [("a", Layout.mkNodeLabel 0 0 0 0); ("b", Layout.mkNodeLabel 0 0 0 0)]
          [(mkEdge "a" "b" None,
            Layout.mkEdgeLabel 1 "l" 10 30 20 [] (Some 100) (Some 50))] [].

(** The same with the position of the label in upper case. *)
Definition labelled_edge_upper : Layout.LayoutGraph :=
  mkGraph (Layout.mkGraphLabel 50 "TB" None None None None)
          [("a", Layout.mkNodeLabel 0 0 0 0); ("b", Layout.mkNodeLabel 0 0 0 0)]
          [(mkEdge "a" "b" None,
            Layout.mkEdgeLabel 1 "L" 10 30 20 [] (Some 100) (Some 50))] [].

(** An edge that the acyclic phase has reversed and one that it has not. *)
Definition one_reversed : Graph unit unit ReversibleEdge :=
  mkGraph tt [("a", tt); ("b", tt)]
    [(mkEdge "a" "b" None,
      mkReversibleEdge true (Some [mkPoint 0 0; mkPoint 1 1; mkPoint 2 0]));
     (mkEdge "b" "a" None,
      mkReversibleEdge false (Some [mkPoint 2 0; mkPoint 0 0]))] [].

Definition one_reversed_back : Graph unit unit ReversibleEdge :=
  match reversePointsForReversedEdges one_reversed with
  | Ok g => g
  | _ => one_reversed
  end.

(** Two self-loops at [a], one of them named, and an edge to [b]; [a]
    has no [selfEdges]. *)
Definition two_loops : Graph unit (SelfNode Q) Q :=
  mkGraph tt [("a", mkSelfNode None); ("b", mkSelfNode None)]
    [(mkEdge "a" "a" None, 1);
     (mkEdge "a" "b" None, 2);
     (mkEdge "a" "a" (Some "again"), 3)] [].

End PassExamples.

Module LayerExamples.
Import Graphlib Ranks.
Local Open Scope Q_scope.
Local Open Scope string_scope.

(** Three ranked nodes, two of them with the same rank and order, and a
    node without a rank. *)
Definition three_ranked : Graph unit RankedNode unit :=
  mkGraph tt
    [("a", mkRankedNode (Some 0) (Some 0));
     ("b", mkRankedNode (Some 1) (Some 1));
     ("c", mkRankedNode None None);
     ("d", mkRankedNode (Some 1) (Some 1))] [] [].

(** Ranks 0, 3 and 4: the ranks 1 and 2 are empty. *)
Definition sparse_ranks : Graph RankConfig RankedNode unit :=
  mkGraph (mkRankConfig (Some 3))
    [("a", mkRankedNode (Some 10) None);
     ("b", mkRankedNode (Some 13) None);
     ("c", mkRankedNode (Some 14) None)] [] [].

(** A node whose rank, [2^32 - 1], is beyond the indices of an array. *)
Definition far_rank : Graph RankConfig RankedNode unit :=
  mkGraph (mkRankConfig None)
    [("a", mkRankedNode (Some 0) (Some 0));
     ("b", mkRankedNode (Some 4294967295) (Some 0))] [] [].

End LayerExamples.

Module TranslateExamples.
Import Graphlib Layout.
Local Open Scope Q_scope.
Local Open Scope string_scope.

(** A node and the label of an edge, with margins. *)
Definition node_and_label : LayoutGraph :=
  mkGraph (mkGraphLabel 50 "TB" (Some 5) (Some 7) None None)
          [("a", mkNodeLabel 10 20 4 2); ("b", mkNodeLabel 30 60 4 2)]
          [(mkEdge "a" "b" None,
            mkEdgeLabel 1 "c" 10 6 4 [Util.mkPoint 10 20; Util.mkPoint 30 60]
                        (Some 20) (Some 40))] [].

Definition node_and_label_translated : LayoutGraph :=
  match translateGraph node_and_label with
  | Some g => g
  | None => node_and_label
  end.

End TranslateExamples.

Module ProxyExamples.
Import Graphlib Passes.
Local Open Scope Q_scope.
Local Open Scope string_scope.

(** An edge with a label over two ranks and an edge without a label; the
    identifier that [_.uniqueId] gives first is taken. *)
Definition one_label : Graph unit ProxyNode ProxyEdge :=
  mkGraph tt
    [("a", mkProxyNode 0 None None); ("b", mkProxyNode 4 None None);
     ("_ep1", mkProxyNode 2 None None)]
    [(mkEdge "a" "b" None, mkProxyEdge 30 20 None);
     (mkEdge "b" "_ep1" None, mkProxyEdge 0 0 None)] [].

End ProxyExamples.

Module BorderExamples.
Import Graphlib Passes.
Local Open Scope Q_scope.
Local Open Scope string_scope.

Definition plain (x y w h : Q) (dummy : option string) : BoxNode :=
  mkBoxNode x y w h dummy None None None None.

(** A node [p] with the child [c] and four border nodes around it. *)
Definition bordered : Graph unit BoxNode unit :=
  mkGraph tt
    [("p", mkBoxNode 0 0 0 0 None (Some "t") (Some "b")
             (Some ["l"]) (Some ["r"]));
     ("c", plain 5 5 2 2 None);
     ("t", plain 5 0 0 0 (Some "border"));
     ("b", plain 5 10 0 0 (Some "border"));
     ("l", plain 1 5 0 0 (Some "border"));
     ("r", plain 9 5 0 0 (Some "border"))]
    [(mkEdge "t" "c" None, tt); (mkEdge "c" "c" None, tt)]
    [("c", "p"); ("t", "p"); ("b", "p"); ("l", "p"); ("r", "p")].

End BorderExamples.

(** * Part II: properties *)

(** ** Numbers *)

Section Numbers.
Local Open Scope Q_scope.

Lemma Qltb_lt a b : Qltb a b = true <-> a < b.
Proof.
  unfold Qltb. rewrite negb_true_iff, <- not_true_iff_false, Qle_bool_iff.
  split; [apply Qnot_le_lt | apply Qlt_not_le].
Qed.

Lemma Qltb_ge a b : Qltb a b = false <-> b <= a.
Proof. unfold Qltb. rewrite negb_false_iff. apply Qle_bool_iff. Qed.

Lemma is_zero_eq a : is_zero a = true <-> a == 0.
Proof. apply Qeq_bool_iff. Qed.

Lemma is_zero_neq a : is_zero a = false <-> ~ a == 0.
Proof. rewrite <- is_zero_eq. destruct (is_zero a); intuition congruence. Qed.

Lemma Qdiv_mul_cancel (a d : Q) : ~ d == 0 -> (a / d) * d == a.
Proof. intros Hd. field. exact Hd. Qed.

Lemma Qhalf_pos (a : Q) : 0 < a -> 0 < a / 2.
Proof. intros Ha. apply Qlt_shift_div_l; lra. Qed.

Lemma Qabs_cases (a : Q) : (0 <= a /\ Qabs a == a) \/ (a < 0 /\ Qabs a == - a).
Proof.
  destruct (Qlt_le_dec a 0) as [Hn|Hp].
  - right. split; [exact Hn|]. apply Qabs_neg. lra.
  - left. split; [exact Hp|]. now apply Qabs_pos.
Qed.

End Numbers.

(** ** [intersectRect] *)

Section IntersectRect.
Import Util.
Local Open Scope Q_scope.

(** C2. For a rectangle of positive width and height and a point other than
    its centre, [intersectRect] returns [(x + sx, y + sy)] where, with
    [w] and [h] the half extents: when [|dy| w > |dx| h], [sy] is [h] with
    the sign of [dy] and [sx = sy dx / dy]; otherwise [sx] is [w] with the
    sign of [dx] and [sy = sx dy / dx]; and the point is on the boundary:
    [|sx| <= w], [|sy| <= h], with equality in one coordinate. *)
Theorem intersectRect_boundary (rect : Rect) (p : Point) :
  0 < width rect -> 0 < height rect ->
  ~ (px p == x rect /\ py p == y rect) ->
  let dx := px p - x rect in
  let dy := py p - y rect in
  let w := width rect / 2 in
  let h := height rect / 2 in
  exists sx sy,
    intersectRect rect p = Ok (mkPoint (x rect + sx) (y rect + sy)) /\
    (Qabs dx * h < Qabs dy * w ->
       sy == (if Qltb dy 0 then - h else h) /\ sx == sy * dx / dy) /\
    (Qabs dy * w <= Qabs dx * h ->
       sx == (if Qltb dx 0 then - w else w) /\ sy == sx * dy / dx) /\
    Qabs sx <= w /\ Qabs sy <= h /\ (Qabs sx == w \/ Qabs sy == h).
Proof.
  intros Hw Hh Hne dx dy w h.
  assert (Hw2 : 0 < w) by (apply Qhalf_pos, Hw).
  assert (Hh2 : 0 < h) by (apply Qhalf_pos, Hh).
  assert (Hd : ~ (dx == 0 /\ dy == 0)).
  { intros [H1 H2]. apply Hne. unfold dx, dy in *. split; lra. }
  unfold intersectRect. fold dx dy w h.
  destruct (is_zero dx && is_zero dy) eqn:Hz.
  { apply andb_true_iff in Hz as [H1 H2]. apply is_zero_eq in H1, H2. tauto. }
  clear Hz.
  destruct (Qltb (Qabs dx * h) (Qabs dy * w)) eqn:Hc.
  - apply Qltb_lt in Hc.
    assert (Hdy : ~ dy == 0).
    { intros E. assert (E0 : Qabs dy == 0) by (rewrite E; reflexivity).
      pose proof (Qabs_nonneg dx). rewrite E0 in Hc. nra. }
    set (hs := if Qltb dy 0 then - h else h).
    exists (hs * dx / dy), hs.
    split; [reflexivity|].
    split; [intros _; split; reflexivity|].
    split; [intros Hc'; lra|].
    pose proof (Qdiv_mul_cancel (hs * dx) dy Hdy) as Hsx.
    set (sx := hs * dx / dy) in *.
    assert (Hhs : Qabs hs == h).
    { unfold hs. destruct (Qltb dy 0); [rewrite Qabs_opp|]; apply Qabs_pos; lra. }
    split; [|split; [lra|right; exact Hhs]].
    apply Qabs_Qle_condition.
    unfold hs in Hsx.
    destruct (Qltb dy 0) eqn:Hs.
    + apply Qltb_lt in Hs.
      destruct (Qabs_cases dx) as [[? Ex]|[? Ex]];
        rewrite Ex in Hc; rewrite (Qabs_neg dy) in Hc by lra; split; nra.
    + apply Qltb_ge in Hs.
      destruct (Qabs_cases dx) as [[? Ex]|[? Ex]];
        rewrite Ex in Hc; rewrite (Qabs_pos dy) in Hc by lra; split; nra.
  - apply Qltb_ge in Hc.
    assert (Hdx : ~ dx == 0).
    { intros E. apply Hd. split; [exact E|].
      assert (E0 : Qabs dx == 0) by (rewrite E; reflexivity).
      rewrite E0 in Hc.
      destruct (Qabs_cases dy) as [[? Ey]|[? Ey]]; rewrite Ey in Hc; nra. }
    set (ws := if Qltb dx 0 then - w else w).
    exists ws, (ws * dy / dx).
    split; [reflexivity|].
    split; [intros Hc'; lra|].
    split; [intros _; split; reflexivity|].
    pose proof (Qdiv_mul_cancel (ws * dy) dx Hdx) as Hsy.
    set (sy := ws * dy / dx) in *.
    assert (Hws : Qabs ws == w).
    { unfold ws. destruct (Qltb dx 0); [rewrite Qabs_opp|]; apply Qabs_pos; lra. }
    split; [lra|]. split; [|left; exact Hws].
    apply Qabs_Qle_condition.
    unfold ws in Hsy.
    destruct (Qltb dx 0) eqn:Hs.
    + apply Qltb_lt in Hs.
      destruct (Qabs_cases dy) as [[? Ey]|[? Ey]];
        rewrite Ey in Hc; rewrite (Qabs_neg dx) in Hc by lra; split; nra.
    + apply Qltb_ge in Hs.
      destruct (Qabs_cases dy) as [[? Ey]|[? Ey]];
        rewrite Ey in Hc; rewrite (Qabs_pos dx) in Hc by lra; split; nra.
Qed.

Lemma intersectRect_boundary_witness :
  exists sx sy,
    intersectRect (mkRect 0 0 4 2) (mkPoint 10 1)
      = Ok (mkPoint (0 + sx) (0 + sy)) /\
    Qabs sx <= 4 / 2 /\ Qabs sy <= 2 / 2.
Proof.
  destruct (intersectRect_boundary (mkRect 0 0 4 2) (mkPoint 10 1))
    as (sx & sy & H & _ & _ & Hx & Hy & _).
  - reflexivity.
  - reflexivity.
  - intros [H _]. discriminate H.
  - exists sx, sy. split; [exact H|]. split; [exact Hx|exact Hy].
Defined.

(** C3. [intersectRect] throws exactly when the point is the centre of the
    rectangle, that is when [point.x - rect.x] and [point.y - rect.y] are
    both zero, and returns a point otherwise.  The function of the model
    takes its arguments by value and has no state: the source assigns only
    its local variables. *)
Theorem intersectRect_throws_iff (rect : Rect) (p : Point) :
  (intersectRect rect p = Throw <->
   px p - x rect == 0 /\ py p - y rect == 0) /\
  (intersectRect rect p <> Throw -> exists q, intersectRect rect p = Ok q) /\
  intersectRect rect p <> OutOfFuel.
Proof.
  unfold intersectRect.
  destruct (is_zero (px p - x rect) && is_zero (py p - y rect)) eqn:Hz.
  - apply andb_true_iff in Hz as [H1 H2]. apply is_zero_eq in H1, H2.
    split; [tauto|]. split; [tauto|discriminate].
  - assert (Hn : ~ (px p - x rect == 0 /\ py p - y rect == 0)).
    { intros [H1 H2]. apply is_zero_eq in H1, H2. rewrite H1, H2 in Hz.
      discriminate Hz. }
    destruct (Qltb _ _); (split; [split; [discriminate|tauto]|]);
      (split; [eauto|discriminate]).
Qed.
End IntersectRect.

(** ** Association lists *)

Section AssocFacts.
Context {K V : Type} `{EqDecision K}.
Implicit Types (l : list (K * V)) (k : K) (x : V).

Lemma assoc_get_set_eq k x l : assoc_get k (assoc_set k x l) = Some x.
Proof.
  induction l as [|[k' y] l IH]; simpl.
  - by rewrite decide_True.
  - destruct (decide (k = k')) as [->|Hne]; simpl.
    + by rewrite decide_True.
    + by rewrite decide_False.
Qed.

Lemma assoc_get_set_ne k k' x l :
  k <> k' -> assoc_get k' (assoc_set k x l) = assoc_get k' l.
Proof.
  intros Hne. induction l as [|[k0 y] l IH]; simpl.
  - by rewrite decide_False.
  - destruct (decide (k = k0)) as [->|Hne0]; simpl.
    + by rewrite !decide_False.
    + destruct (decide (k' = k0)); done.
Qed.

Lemma assoc_get_None k l : assoc_get k l = None <-> k ∉ l.*1.
Proof.
  induction l as [|[k0 y] l IH]; simpl.
  - split; [intros _; apply not_elem_of_nil|done].
  - rewrite not_elem_of_cons. destruct (decide (k = k0)) as [->|Hne].
    + split; [done|intros [? _]; done].
    + rewrite IH. tauto.
Qed.

Lemma assoc_get_Some_elem k x l : assoc_get k l = Some x -> (k, x) ∈ l.
Proof.
  induction l as [|[k0 y] l IH]; simpl; [done|].
  destruct (decide (k = k0)) as [->|Hne].
  - intros [= ->]. apply list_elem_of_here.
  - intros Hg. apply list_elem_of_further, IH, Hg.
Qed.

Lemma assoc_set_keys_in k x l : k ∈ l.*1 -> (assoc_set k x l).*1 = l.*1.
Proof.
  induction l as [|[k0 y] l IH]; simpl.
  - intros Hin. by apply elem_of_nil in Hin.
  - intros Hin. destruct (decide (k = k0)) as [->|Hne]; simpl; [done|].
    f_equal. apply IH. apply elem_of_cons in Hin as [?|?]; done.
Qed.

Lemma assoc_set_notin k x l : k ∉ l.*1 -> assoc_set k x l = l ++ [(k, x)].
Proof.
  induction l as [|[k0 y] l IH]; simpl; [done|].
  intros Hin. apply not_elem_of_cons in Hin as [Hne Hin].
  rewrite decide_False by done. f_equal. by apply IH.
Qed.

Lemma assoc_set_keys_elem k k' x l :
  k' ∈ (assoc_set k x l).*1 <-> k' = k \/ k' ∈ l.*1.
Proof.
  destruct (decide (k ∈ l.*1)) as [Hin|Hin].
  - rewrite assoc_set_keys_in by done. split; [tauto|]. intros [->|?]; done.
  - rewrite assoc_set_notin by done. rewrite fmap_app, elem_of_app. simpl.
    rewrite list_elem_of_singleton. tauto.
Qed.

Lemma assoc_set_NoDup k x l : NoDup l.*1 -> NoDup (assoc_set k x l).*1.
Proof.
  intros Hnd. destruct (decide (k ∈ l.*1)) as [Hin|Hin].
  - by rewrite assoc_set_keys_in.
  - rewrite assoc_set_notin by done. rewrite fmap_app. simpl.
    apply NoDup_app. split; [done|]. split.
    + intros k0 Hk0 ->%list_elem_of_singleton. done.
    + apply NoDup_singleton.
Qed.

(** Copying the entries of a list without duplicate keys rebuilds it. *)
Lemma fold_assoc_set_copy (es acc : list (K * V)) :
  NoDup (acc ++ es).*1 ->
  fold_left (fun s kv => assoc_set kv.1 kv.2 s) es acc = acc ++ es.
Proof.
  revert acc. induction es as [|[k x] es IH]; intros acc Hnd; simpl.
  - by rewrite app_nil_r.
  - rewrite assoc_set_notin.
    + rewrite IH; rewrite <- app_assoc; done.
    + rewrite fmap_app in Hnd. apply NoDup_app in Hnd as (_ & Hd & _).
      intros Hin. apply (Hd k Hin). simpl. apply list_elem_of_here.
Qed.
End AssocFacts.


Section SimplifyFacts.
Import Graphlib Util.
Local Open Scope Q_scope.
Context {GL NL EL : Type}.
Context (undefined : NL) (weight_of minlen_of : EL -> Q).
Abbreviation simplify_edge := (simplify_edge (GL:=GL) undefined weight_of minlen_of).
Abbreviation aggregated := (aggregated (EL:=EL) weight_of minlen_of).
Abbreviation simple_edges_ok := (simple_edges_ok (GL:=GL) (NL:=NL) weight_of minlen_of).
Abbreviation sum_weight := (sum_weight weight_of).
Abbreviation max_minlen := (max_minlen minlen_of).

Lemma fold_setNode_entries (es : list (NodeId * NL)) (s : Graph GL NL SimpleLabel) :
  let s' := fold_left (fun s vl => setNode s vl.1 vl.2) es s in
  graph s' = graph s /\ edge_entries s' = edge_entries s /\
  parent_entries s' = parent_entries s /\
  node_entries s' =
    fold_left (fun l kv => assoc_set kv.1 kv.2 l) es (node_entries s).
Proof.
  revert s. induction es as [|[v l] es IH]; intros s; simpl; [done|].
  destruct (IH (setNode s v l)) as (H1 & H2 & H3 & H4). simpl in *.
  by rewrite H1, H2, H3, H4.
Qed.

Lemma ensureNode_present (s : Graph GL NL SimpleLabel) v :
  v ∈ nodes s -> ensureNode undefined s v = s.
Proof. intros Hin. unfold ensureNode, hasNode. by rewrite bool_decide_eq_true_2. Qed.

Lemma simplify_edge_frame (s : Graph GL NL SimpleLabel) (el : Edge * EL) :
  e_v el.1 ∈ nodes s -> e_w el.1 ∈ nodes s ->
  let s' := simplify_edge s el in
  graph s' = graph s /\ node_entries s' = node_entries s /\
  parent_entries s' = parent_entries s /\
  edge_entries s' =
    assoc_set (mkEdge (e_v el.1) (e_w el.1) None)
      (mkSimpleLabel
         (weight (default (mkSimpleLabel 0 1) (edge_vw s (e_v el.1) (e_w el.1)))
          + weight_of el.2)
         (Qmax (minlen (default (mkSimpleLabel 0 1) (edge_vw s (e_v el.1) (e_w el.1))))
               (minlen_of el.2)))
      (edge_entries s).
Proof.
  intros Hv Hw. unfold Util.simplify_edge, setEdge. simpl.
  rewrite (ensureNode_present s _ Hv), (ensureNode_present s _ Hw). done.
Qed.

Lemma aggregated_snoc_same pre el :
  aggregated (pre ++ [el]) (e_v el.1) (e_w el.1) =
  Some (mkSimpleLabel
          (weight (default (mkSimpleLabel 0 1) (aggregated pre (e_v el.1) (e_w el.1)))
           + weight_of el.2)
          (Qmax (minlen (default (mkSimpleLabel 0 1) (aggregated pre (e_v el.1) (e_w el.1))))
                (minlen_of el.2))).
Proof.
  unfold aggregated, between. rewrite filter_app.
  rewrite (filter_cons_True _ el []) by done. rewrite filter_nil.
  destruct (filter _ pre) as [|x xs] eqn:E.
  - reflexivity.
  - change ((x :: xs) ++ [el]) with (x :: (xs ++ [el])). cbv beta iota.
    unfold Util.sum_weight, Util.max_minlen.
    change (x :: (xs ++ [el])) with ((x :: xs) ++ [el]).
    rewrite !fold_left_app. reflexivity.
Qed.

Lemma aggregated_snoc_other pre el v w :
  ~ (e_v el.1 = v /\ e_w el.1 = w) ->
  aggregated (pre ++ [el]) v w = aggregated pre v w.
Proof.
  intros Hne. unfold aggregated, between. rewrite filter_app.
  rewrite (filter_cons_False _ el []) by done.
  rewrite filter_nil, app_nil_r. done.
Qed.

Lemma simplify_edges_ok (s0 : Graph GL NL SimpleLabel) (es : list (Edge * EL)) :
  edge_entries s0 = [] ->
  Forall (fun el => e_v el.1 ∈ nodes s0 /\ e_w el.1 ∈ nodes s0) es ->
  simple_edges_ok s0 (fold_left simplify_edge es s0) es.
Proof.
  intros He0. induction es as [|el es IH] using rev_ind; intros Hwf.
  - simpl. unfold simple_edges_ok, edges, edge_vw, edge. rewrite He0. simpl.
    split_and!; try done.
    + apply NoDup_nil_2.
    + intros e. split.
      * intros Hin. by apply elem_of_nil in Hin.
      * intros [_ (el & Hel & _)]. by apply elem_of_nil in Hel.
  - apply Forall_app in Hwf as [Hwf Hel]. apply Forall_singleton in Hel as [Hv Hw].
    specialize (IH Hwf). rewrite fold_left_app. simpl.
    set (s := fold_left simplify_edge es s0) in *.
    destruct IH as (Hg & Hn & Hp & Hnd & Hed & Hagg).
    assert (Hv' : e_v el.1 ∈ nodes s) by (unfold nodes; by rewrite Hn).
    assert (Hw' : e_w el.1 ∈ nodes s) by (unfold nodes; by rewrite Hn).
    destruct (simplify_edge_frame s el Hv' Hw') as (Fg & Fn & Fp & Fe).
    unfold simple_edges_ok.
    split; [congruence|]. split; [congruence|]. split; [congruence|].
    split; [|split].
    + unfold edges. rewrite Fe. by apply assoc_set_NoDup.
    + intros e. unfold edges. rewrite Fe, assoc_set_keys_elem.
      fold (edges s). rewrite Hed. split.
      * intros [->|[Hnm (el' & Hin & Hvw)]].
        -- split; [done|]. exists el. split; [|done].
           apply elem_of_app. right. apply list_elem_of_here.
        -- split; [done|]. exists el'. split; [|done].
           apply elem_of_app. by left.
      * intros [Hnm (el' & Hin & Hv2 & Hw2)].
        apply elem_of_app in Hin as [Hin|Hin].
        -- right. split; [done|]. by exists el'.
        -- apply list_elem_of_singleton in Hin as ->. left.
           destruct e as [ev ew en]; simpl in *. by subst.
    + intros v w. unfold edge_vw, edge. rewrite Fe.
      destruct (decide (e_v el.1 = v /\ e_w el.1 = w)) as [[<- <-]|Hne].
      * rewrite assoc_get_set_eq, aggregated_snoc_same, <- Hagg. done.
      * rewrite assoc_get_set_ne.
        -- rewrite aggregated_snoc_other by done. apply Hagg.
        -- intros [= ? ?]. by apply Hne.
Qed.
End SimplifyFacts.

Lemma NoDup_all_eq_singleton {A} (x : A) (l : list A) :
  NoDup l -> x ∈ l -> (forall y, y ∈ l -> y = x) -> l = [x].
Proof.
  intros Hnd Hin Hall. destruct l as [|a l]; [by apply elem_of_nil in Hin|].
  assert (a = x) as -> by (apply Hall, list_elem_of_here).
  f_equal. destruct l as [|b l]; [done|].
  assert (b = x) as -> by (apply Hall, list_elem_of_further, list_elem_of_here).
  apply NoDup_cons in Hnd as [Hx _]. exfalso. apply Hx, list_elem_of_here.
Qed.

Section MaxMinlen.
Import Graphlib Util.
Local Open Scope Q_scope.
Context {EL : Type} (minlen_of : EL -> Q).

Lemma max_minlen_spec (els : list (Edge * EL)) :
  let m := max_minlen minlen_of els in
  1 <= m /\ Forall (fun el => minlen_of el.2 <= m) els /\
  (m == 1 \/ Exists (fun el => m == minlen_of el.2) els).
Proof.
  induction els as [|el els IH] using rev_ind; simpl.
  - split; [apply Qle_refl|]. split; [constructor|]. left. reflexivity.
  - unfold max_minlen in *. rewrite fold_left_app. simpl.
    set (m := fold_left _ els 1) in *. destruct IH as (H1 & Hall & Hex).
    split; [|split].
    + eapply Qle_trans; [exact H1|]. apply Q.le_max_l.
    + apply Forall_app. split.
      * eapply Forall_impl; [exact Hall|]. intros x Hx. simpl in Hx.
        eapply Qle_trans; [exact Hx|]. apply Q.le_max_l.
      * apply Forall_singleton. apply Q.le_max_r.
    + destruct (Q.max_spec m (minlen_of el.2)) as [[_ E]|[_ E]].
      * right. apply Exists_app. right. apply Exists_cons_hd. exact E.
      * destruct Hex as [Hex|Hex].
        -- left. rewrite E. exact Hex.
        -- right. apply Exists_app. left.
           eapply Exists_impl; [exact Hex|]. intros x Hx. simpl in Hx.
           rewrite E. exact Hx.
Qed.
End MaxMinlen.

Section SimplifyTheorem.
Import Graphlib Util.
Local Open Scope Q_scope.

(** C6. [simplify] keeps the nodes, the node labels and the graph label,
    has no multi-edges, and for every ordered pair [(v, w)] joined by at
    least one edge of [g] holds exactly one edge from [v] to [w], whose
    weight is the sum of the weights and whose [minlen] is the maximum of 1
    and the [minlen] values of the edges of [g] from [v] to [w]. *)
Theorem simplify_aggregates {GL NL EL : Type} (undefined : NL)
    (weight_of minlen_of : EL -> Q) (g : Graph GL NL EL) :
  graph_wf g ->
  let s := simplify undefined weight_of minlen_of g in
  node_entries s = node_entries g /\
  graph s = graph g /\
  NoDup ((fun e => (e_v e, e_w e)) <$> edges s) /\
  forall v w els, edges_between g v w = els -> els <> [] ->
    edge_vw s v w
      = Some (mkSimpleLabel (sum_weight weight_of els) (max_minlen minlen_of els)) /\
    filter (fun e => e_v e = v /\ e_w e = w) (edges s) = [mkEdge v w None] /\
    1 <= max_minlen minlen_of els /\
    Forall (fun el => minlen_of el.2 <= max_minlen minlen_of els) els /\
    (max_minlen minlen_of els == 1 \/
     Exists (fun el => max_minlen minlen_of els == minlen_of el.2) els).
Proof.
  intros (Hnd & Hnde & Hends) s. unfold simplify in s.
  set (s0 := fold_left (fun s vl => setNode s vl.1 vl.2) (node_entries g)
               (newGraph (graph g))) in *.
  destruct (fold_setNode_entries (node_entries g) (newGraph (graph g)))
    as (G0 & E0 & P0 & N0).
  fold s0 in G0, E0, P0, N0. simpl in G0, E0, P0, N0.
  rewrite fold_assoc_set_copy in N0 by exact Hnd. simpl in N0.
  assert (Hwf : Forall (fun el : Edge * EL => e_v el.1 ∈ nodes s0 /\ e_w el.1 ∈ nodes s0)
                       (edge_entries g)).
  { unfold nodes at 1 2. rewrite N0. apply Forall_fmap in Hends. exact Hends. }
  destruct (simplify_edges_ok undefined weight_of minlen_of s0 (edge_entries g) E0 Hwf)
    as (Hg & Hn & Hp & Hnds & Hed & Hagg).
  fold s in Hg, Hn, Hp, Hnds, Hed, Hagg.
  split; [congruence|]. split; [congruence|]. split.
  - apply NoDup_fmap_2_strong; [|exact Hnds].
    intros e1 e2 H1 H2 [= Hv Hw]. apply Hed in H1 as [N1 _]. apply Hed in H2 as [N2 _].
    destruct e1, e2; simpl in *; congruence.
  - intros v w els Hels Hne.
    assert (Hlk : edge_vw s v w
      = Some (mkSimpleLabel (sum_weight weight_of els) (max_minlen minlen_of els))).
    { rewrite Hagg. unfold aggregated. unfold edges_between in Hels.
      rewrite Hels. destruct els; [done|reflexivity]. }
    split; [exact Hlk|]. split; [|apply max_minlen_spec].
    apply NoDup_all_eq_singleton.
    + by apply NoDup_filter.
    + apply list_elem_of_filter. split; [done|].
      unfold edge_vw, edge in Hlk. apply assoc_get_Some_elem in Hlk.
      unfold edges. apply list_elem_of_fmap. by eexists (_, _).
    + intros e [[Hv Hw] Hin]%list_elem_of_filter. apply Hed in Hin as [Hnm _].
      destruct e; simpl in *; congruence.
Qed.

Lemma simplify_aggregates_witness :
  let s := simplify tt fst snd Examples.parallel_edges in
  edge_vw s "a" "b" = Some (mkSimpleLabel (0 + 2 + 3) (Qmax (Qmax 1 1) 4)) /\
  filter (fun e => e_v e = "a"%string /\ e_w e = "b"%string) (edges s)
    = [mkEdge "a" "b" None].
Proof.
  assert (Hwf : graph_wf Examples.parallel_edges).
  { unfold graph_wf. split_and!; apply (bool_decide_unpack _); by vm_compute. }
  destruct (simplify_aggregates tt fst snd Examples.parallel_edges Hwf)
    as (_ & _ & _ & H).
  destruct (H "a"%string "b"%string _ eq_refl) as (H1 & H2 & _).
  - discriminate.
  - split; [exact H1|exact H2].
Defined.
End SimplifyTheorem.

(** ** [updateInputGraph] *)

Section UpdateInputGraph.
Import Graphlib Layout.
Local Open Scope string_scope.

Lemma frame_label_refl ks l : frame_label ks l l.
Proof. destruct l; simpl; done. Qed.

Lemma for_labels_Forall2 {K} (body : K -> Label -> result Label)
    (P : K -> Label -> Label -> Prop) (entries : list (K * Label)) :
  (forall k l l', body k l = Ok l' -> P k l l') ->
  (forall k l, P k l l) ->
  Forall2 (fun old new => new.1 = old.1 /\ P old.1 old.2 new.2)
          entries (for_labels body entries).2.
Proof.
  intros Hbody Hrefl. induction entries as [|[k l] entries IH]; simpl.
  - constructor.
  - destruct (body k l) as [l'| |] eqn:E; simpl.
    + constructor; [split; [done|by apply Hbody]|exact IH].
    + apply Forall2_same_length_lookup_2; [done|].
      intros i x y Hx Hy. rewrite Hx in Hy. injection Hy as <-. split; [done|apply Hrefl].
    + apply Forall2_same_length_lookup_2; [done|].
      intros i x y Hx Hy. rewrite Hx in Hy. injection Hy as <-. split; [done|apply Hrefl].
Qed.

Lemma for_labels_Ok {K} (body : K -> Label -> result Label)
    (entries : list (K * Label)) u :
  (for_labels body entries).1 = Ok u ->
  Forall2 (fun old new => body old.1 old.2 = Ok new.2)
          entries (for_labels body entries).2.
Proof.
  induction entries as [|[k l] entries IH]; simpl.
  - constructor.
  - destruct (body k l) as [l'| |] eqn:E; simpl; [|done|done].
    intros Hok. constructor; [done|by apply IH].
Qed.

Lemma for_labels_total {K} (body : K -> Label -> result Label)
    (entries : list (K * Label)) :
  Forall (fun kl => exists l', body kl.1 kl.2 = Ok l') entries ->
  (for_labels body entries).1 = Ok tt.
Proof.
  induction 1 as [|[k l] entries [l' Hb] _ IH]; simpl; [done|].
  simpl in Hb. by rewrite Hb.
Qed.

Lemma update_node_frame lg v l l' :
  update_node lg v l = Ok l' ->
  frame_label (node_writes lg v) l l' /\
  copied (node_writes lg v) (mjoin (node lg v)) l'.
Proof.
  unfold update_node, node_writes.
  destruct l as [a|]; [|intros [= <-]; simpl; by destruct (mjoin _)].
  destruct (mjoin (node lg v)) as [ll|]; [|done].
  case_bool_decide; intros [= <-]; simpl; split; intros k Hk.
  - rewrite !lookup_insert_ne; [done|..]; intros E; subst k; apply Hk; set_solver.
  - repeat (apply elem_of_cons in Hk as [->|Hk]); [..|by apply elem_of_nil in Hk];
      by simplify_map_eq.
  - rewrite !lookup_insert_ne; [done|..]; intros E; subst k; apply Hk; set_solver.
  - repeat (apply elem_of_cons in Hk as [->|Hk]); [..|by apply elem_of_nil in Hk];
      by simplify_map_eq.
Qed.

Lemma update_edge_frame lg e l l' :
  update_edge lg e l = Ok l' ->
  frame_label (edge_writes lg e) l l' /\
  copied (edge_writes lg e) (mjoin (edge lg e)) l'.
Proof.
  unfold update_edge, edge_writes.
  destruct (mjoin (edge lg e)) as [ll|]; [|done].
  destruct l as [a|]; [|done].
  case_bool_decide; intros [= <-]; simpl; split; intros k Hk.
  - rewrite !lookup_insert_ne; [done|..]; intros E; subst k; apply Hk; set_solver.
  - repeat (apply elem_of_cons in Hk as [->|Hk]); [..|by apply elem_of_nil in Hk];
      by simplify_map_eq.
  - rewrite !lookup_insert_ne; [done|..]; intros E; subst k; apply Hk; set_solver.
  - repeat (apply elem_of_cons in Hk as [->|Hk]); [..|by apply elem_of_nil in Hk];
      by simplify_map_eq.
Qed.

Lemma update_graph_label_frame lg l :
  frame_label ["width"; "height"] l (update_graph_label lg l).2 /\
  ((update_graph_label lg l).1 = Ok tt ->
   copied ["width"; "height"] (graph lg) (update_graph_label lg l).2).
Proof.
  unfold update_graph_label.
  destruct l as [a|]; [|simpl; split; [done|by destruct (graph lg)]].
  destruct (graph lg) as [ll|]; simpl; [|split; done].
  split; [|intros _]; intros k Hk.
  - rewrite !lookup_insert_ne; [done|..]; intros E; subst k; apply Hk; set_solver.
  - repeat (apply elem_of_cons in Hk as [->|Hk]); [..|by apply elem_of_nil in Hk];
      by simplify_map_eq.
Qed.

(** C7. [updateInputGraph] leaves the node set, the edge set and the parent
    relation of the input graph as they are, and writes on the labels only
    [x], [y] (and [width], [height] when the node has children in the layout
    graph) for a node, [points] (and [x], [y] when the layout label has an
    [x]) for an edge, and [width], [height] for the graph; this holds of the
    input graph as the call leaves it, whether it returns or throws.  When it
    returns, the listed properties hold the values of the layout graph. *)
Theorem updateInputGraph_frame (inputGraph layoutGraph : BagGraph) :
  let r := updateInputGraph inputGraph layoutGraph in
  parent_entries r.2 = parent_entries inputGraph /\
  Forall2 (fun old new =>
             new.1 = old.1 /\
             frame_label (node_writes layoutGraph old.1) old.2 new.2)
          (node_entries inputGraph) (node_entries r.2) /\
  Forall2 (fun old new =>
             new.1 = old.1 /\
             frame_label (edge_writes layoutGraph old.1) old.2 new.2)
          (edge_entries inputGraph) (edge_entries r.2) /\
  frame_label ["width"; "height"] (graph inputGraph) (graph r.2) /\
  (r.1 = Ok tt ->
   Forall2 (fun old new =>
              copied (node_writes layoutGraph old.1)
                     (mjoin (node layoutGraph old.1)) new.2)
           (node_entries inputGraph) (node_entries r.2) /\
   Forall2 (fun old new =>
              copied (edge_writes layoutGraph old.1)
                     (mjoin (edge layoutGraph old.1)) new.2)
           (edge_entries inputGraph) (edge_entries r.2) /\
   copied ["width"; "height"] (graph layoutGraph) (graph r.2)).
Proof.
  cbv zeta.
  pose proof (for_labels_Forall2 (update_node layoutGraph)
    (fun v l l' => frame_label (node_writes layoutGraph v) l l')
    (node_entries inputGraph)
    (fun k l l' H => proj1 (update_node_frame _ _ _ _ H))
    (fun k l => frame_label_refl _ l)) as Hn.
  pose proof (for_labels_Forall2 (update_edge layoutGraph)
    (fun e l l' => frame_label (edge_writes layoutGraph e) l l')
    (edge_entries inputGraph)
    (fun k l l' H => proj1 (update_edge_frame _ _ _ _ H))
    (fun k l => frame_label_refl _ l)) as He.
  assert (Hid : forall {K} (P : K -> Label -> Label -> Prop) (l : list (K * Label)),
             (forall k x, P k x x) ->
             Forall2 (fun old new => new.1 = old.1 /\ P old.1 old.2 new.2) l l).
  { intros K P l HP. apply Forall2_same_length_lookup_2; [done|].
    intros i x y Hx Hy. rewrite Hx in Hy. injection Hy as <-. split; [done|apply HP]. }
  unfold updateInputGraph. cbv zeta.
  destruct (for_labels (update_node layoutGraph) (node_entries inputGraph)).1
    as [[]| |] eqn:En; simpl.
  - destruct (for_labels (update_edge layoutGraph) (edge_entries inputGraph)).1
      as [[]| |] eqn:Ee; simpl.
    + destruct (update_graph_label_frame layoutGraph (graph inputGraph)) as [Fg Cg].
      split_and!; try done. intros Hok. split_and!.
      * apply for_labels_Ok in En. eapply Forall2_impl; [exact En|].
        intros [v l] [v' l'] H. simpl in *. by apply update_node_frame in H as [_ ?].
      * apply for_labels_Ok in Ee. eapply Forall2_impl; [exact Ee|].
        intros [e l] [e' l'] H. simpl in *. by apply update_edge_frame in H as [_ ?].
      * by apply Cg.
    + split_and!; try done. apply frame_label_refl.
    + split_and!; try done. apply frame_label_refl.
  - split_and!; try done.
    + apply (Hid _ (fun e l l' => frame_label (edge_writes layoutGraph e) l l')).
      intros; apply frame_label_refl.
    + apply frame_label_refl.
  - split_and!; try done.
    + apply (Hid _ (fun e l l' => frame_label (edge_writes layoutGraph e) l l')).
      intros; apply frame_label_refl.
    + apply frame_label_refl.
Qed.

(** [updateInputGraph] returns when the layout graph labels every labelled
    node and every edge of the input graph and both graphs have a label. *)
Lemma updateInputGraph_returns (inputGraph layoutGraph : BagGraph) :
  Forall (fun vl => is_Some vl.2 -> is_Some (mjoin (node layoutGraph vl.1)))
         (node_entries inputGraph) ->
  Forall (fun el => is_Some el.2 /\ is_Some (mjoin (edge layoutGraph el.1)))
         (edge_entries inputGraph) ->
  is_Some (graph inputGraph) -> is_Some (graph layoutGraph) ->
  (updateInputGraph inputGraph layoutGraph).1 = Ok tt.
Proof.
  intros Hn He [a Ha] [ll Hll]. unfold updateInputGraph. cbv zeta.
  rewrite for_labels_total.
  - rewrite for_labels_total.
    + simpl. unfold update_graph_label. by rewrite Ha, Hll.
    + eapply Forall_impl; [exact He|]. intros [e l] [[b Hb] [c Hc]]. simpl in *.
      subst l. unfold update_edge. rewrite Hc. case_bool_decide; eauto.
  - eapply Forall_impl; [exact Hn|]. intros [v l] H. simpl in *.
    unfold update_node. destruct l as [b|]; [|eauto].
    destruct H as [c Hc]; [done|]. rewrite Hc. case_bool_decide; eauto.
Qed.

Example updateInputGraph_returns_ex :
  (updateInputGraph Examples.input_graph Examples.layout_graph).1 = Ok tt.
Proof. reflexivity. Qed.
End UpdateInputGraph.

(** ** The linked list *)

Section ListFacts.
Import DataList.

Lemma chain_frame h h' a l z :
  (forall r, r ∈ a :: l -> _prev h' !! r = _prev h !! r) ->
  (forall r, r ∈ l ++ [z] -> _next h' !! r = _next h !! r) ->
  chain h a l z -> chain h' a l z.
Proof.
  revert a. induction l as [|b l IH]; intros a Hp Hn; simpl.
  - intros [H1 H2]. split.
    + rewrite Hp; [done|]. apply list_elem_of_here.
    + rewrite Hn; [done|]. apply list_elem_of_here.
  - intros [[H1 H2] Hc]. split; [split|].
    + rewrite Hp; [done|]. apply list_elem_of_here.
    + rewrite Hn; [done|]. apply list_elem_of_here.
    + apply IH; [| |done].
      * intros r Hr. apply Hp. by apply list_elem_of_further.
      * intros r Hr. apply Hn. by apply list_elem_of_further.
Qed.

Lemma chain_snoc h a l b z :
  chain h a (l ++ [b]) z <-> chain h a l b /\ link h b z.
Proof.
  revert a. induction l as [|c l IH]; intros a; simpl.
  - tauto.
  - rewrite IH. tauto.
Qed.

(** The entry that [s._next] names: the last one in, or [s]. *)
Lemma chain_last_next h s l :
  chain h s l s -> _next h !! s = Some (List.last l s).
Proof.
  destruct l as [|b l] using rev_ind.
  - simpl. by intros [_ H].
  - rewrite chain_snoc. intros [_ [_ H]]. by rewrite last_last.
Qed.

Lemma dequeue_empty h s :
  is_list h s [] -> dequeue s h = Ok (None, h).
Proof.
  intros [_ [Hp _]]. unfold dequeue, mbind, get_prev. rewrite Hp.
  by rewrite decide_True.
Qed.

Lemma dequeue_first h s x l :
  is_list h s (x :: l) ->
  exists h', dequeue s h = Ok (Some x, h') /\ is_list h' s l /\
             fresh h' = fresh h /\
             (forall r, r <> s -> _prev h' !! r = _prev h !! r) /\
             (forall r, r ∉ s :: l -> _next h' !! r = _next h !! r).
Proof.
  intros [Hnd [[Hsx Hxs] Hc]].
  apply NoDup_cons in Hnd as [Hs Hnd]. apply NoDup_cons in Hnd as [Hx Hnd].
  assert (Hxs' : x <> s) by (intros ->; apply Hs, list_elem_of_here).
  assert (Hsl : s ∉ l) by (intros ?; by apply Hs, list_elem_of_further).
  set (p := List.hd s l).
  assert (Hxp : _prev h !! x = Some p).
  { unfold p. destruct l as [|y l]; simpl in *; [apply Hc|apply Hc]. }
  assert (Hpx : p <> x).
  { unfold p. destruct l as [|y l]; simpl; [done|].
    intros ->. apply Hx, list_elem_of_here. }
  eexists. split.
  { unfold dequeue, mbind, get_prev. rewrite Hsx.
    rewrite decide_False by congruence. simpl.
    unfold unlink, mbind, get_prev, get_next, set_next, set_prev, object, mret.
    simpl. rewrite Hxp, Hxs. simpl.
    rewrite lookup_insert_ne by done. rewrite Hxs, Hxp. reflexivity. }
  simpl. split; [split|].
  - by apply NoDup_cons.
  - destruct l as [|y l]; simpl in *.
    + unfold p. simpl. split; simpl; by rewrite lookup_insert_eq.
    + destruct Hc as [[Hxy Hyx] Hc]. unfold p. simpl.
      split; [split; simpl; by rewrite lookup_insert_eq|].
      apply NoDup_cons in Hnd as [Hy Hnd].
      eapply chain_frame; [| |exact Hc]; simpl.
      * intros r Hr. rewrite lookup_insert_ne; [done|].
        intros <-. apply Hs. by apply list_elem_of_further.
      * intros r Hr. rewrite lookup_insert_ne; [done|].
        intros <-. apply elem_of_app in Hr as [Hr|Hr]; [done|].
        apply list_elem_of_singleton in Hr. subst.
        apply Hs, list_elem_of_further, list_elem_of_here.
  - split; [done|]. split.
    + intros r Hr. simpl. by rewrite lookup_insert_ne.
    + intros r Hr. simpl. rewrite lookup_insert_ne; [done|].
      intros <-. apply Hr. unfold p. destruct l as [|y l]; simpl.
      * apply list_elem_of_here.
      * apply list_elem_of_further, list_elem_of_here.
Qed.

Lemma last_cons_eq (a b : ref) (l : list ref) :
  List.last (b :: l) a = List.last l b.
Proof.
  revert a b. induction l as [|c l IH]; intros a b; [done|].
  change (List.last (b :: c :: l) a) with (List.last (c :: l) a).
  by rewrite (IH a c), (IH b c).
Qed.

Lemma last_elem (a : ref) (l : list ref) : List.last l a ∈ a :: l.
Proof.
  revert a. induction l as [|b l IH]; intros a.
  - apply list_elem_of_here.
  - rewrite last_cons_eq. apply list_elem_of_further, IH.
Qed.

Lemma chain_app h a l1 b l2 z :
  chain h a (l1 ++ b :: l2) z <-> chain h a l1 b /\ chain h b l2 z.
Proof.
  revert a. induction l1 as [|c l1 IH]; intros a; simpl.
  - tauto.
  - rewrite IH. tauto.
Qed.

Lemma chain_last_link h a l z : chain h a l z -> link h (List.last l a) z.
Proof.
  revert a. induction l as [|b l IH]; intros a Hc.
  - exact Hc.
  - rewrite last_cons_eq. destruct Hc as [_ Hc]. by apply IH.
Qed.

Lemma chain_first_prev h a l z : chain h a l z -> _prev h !! a = Some (List.hd z l).
Proof. destruct l; simpl; [by intros [? _]|by intros [[? _] _]]. Qed.

(** The links of a chain but the last, which goes to [z'] instead. *)
Lemma chain_retarget h h' a l z z' :
  NoDup (a :: l) ->
  (forall r, r ∈ a :: l -> r <> List.last l a -> _prev h' !! r = _prev h !! r) ->
  (forall r, r ∈ l -> _next h' !! r = _next h !! r) ->
  link h' (List.last l a) z' ->
  chain h a l z -> chain h' a l z'.
Proof.
  revert a. induction l as [|b l IH]; intros a Hnd Hp Hn Hl; cbn [chain].
  - intros _. exact Hl.
  - intros [[H1 H2] Hc]. rewrite last_cons_eq in Hl, Hp.
    apply NoDup_cons in Hnd as [Ha Hnd].
    split; [split|].
    + rewrite Hp; [done|apply list_elem_of_here|].
      intros ->. apply Ha, last_elem.
    + rewrite Hn; [done|apply list_elem_of_here].
    + apply IH; [done| | |done|done].
      * intros r Hr Hne. apply Hp; [by apply list_elem_of_further|done].
      * intros r Hr. apply Hn. by apply list_elem_of_further.
Qed.

Lemma link_last_spec h s l e :
  is_list h s l -> e ∉ s :: l ->
  exists h', link_last s e h = Ok (tt, h') /\ is_list h' s (l ++ [e]) /\
             fresh h' = fresh h /\
             (forall r, r <> e -> r <> List.last l s -> _prev h' !! r = _prev h !! r) /\
             (forall r, r <> e -> r <> s -> _next h' !! r = _next h !! r).
Proof.
  intros [Hnd Hc] He.
  assert (Hes : e <> s) by (intros ->; apply He, list_elem_of_here).
  assert (Hel : e ∉ l) by (intros ?; by apply He, list_elem_of_further).
  pose proof (chain_last_next _ _ _ Hc) as Hsn.
  set (t := List.last l s) in *.
  assert (Het : e <> t).
  { intros ->. apply He. apply last_elem. }
  eexists. split.
  { unfold link_last, mbind, get_next, set_next, set_prev, object, mret. simpl.
    rewrite Hsn. simpl. rewrite lookup_insert_ne by done. rewrite Hsn. simpl.
    reflexivity. }
  simpl. split; [split|].
  - rewrite app_comm_cons. apply NoDup_app. split; [done|]. split.
    + intros r Hr ->%list_elem_of_singleton. done.
    + apply NoDup_singleton.
  - apply chain_snoc. split.
    + eapply chain_retarget; [done| | | |exact Hc]; simpl.
      * intros r Hr Hne. rewrite !lookup_insert_ne; [done|done|].
        intros <-. done.
      * intros r Hr. rewrite !lookup_insert_ne; [done| |].
        -- intros <-. done.
        -- intros <-. apply NoDup_cons in Hnd as [Hs _]. done.
      * fold t. split; simpl.
        -- rewrite lookup_insert_ne by done. by rewrite lookup_insert_eq.
        -- rewrite lookup_insert_ne by done. by rewrite lookup_insert_eq.
    + split; simpl; by rewrite lookup_insert_eq.
  - split; [done|]. split.
    + intros r H1 H2. simpl. by rewrite !lookup_insert_ne.
    + intros r H1 H2. simpl. by rewrite !lookup_insert_ne.
Qed.

Lemma unlink_spec h s l1 e l2 :
  is_list h s (l1 ++ e :: l2) ->
  exists h', unlink e h = Ok (tt, h') /\ is_list h' s (l1 ++ l2) /\
             fresh h' = fresh h.
Proof.
  intros [Hnd Hc]. apply chain_app in Hc as [Hc1 Hc2].
  assert (Hnd' : NoDup (s :: l1 ++ l2)).
  { rewrite app_comm_cons in Hnd |- *. apply NoDup_app in Hnd as (H1 & H2 & H3).
    apply NoDup_cons in H3 as [_ H3]. apply NoDup_app. split; [done|].
    split; [|done]. intros r Hr Hr2. apply (H2 r Hr). by apply list_elem_of_further. }
  assert (Hesl1 : e ∉ s :: l1).
  { rewrite app_comm_cons in Hnd. apply NoDup_app in Hnd as (_ & H2 & _).
    intros Hin. apply (H2 e Hin). apply list_elem_of_here. }
  assert (Hel2 : e ∉ l2).
  { rewrite app_comm_cons in Hnd. apply NoDup_app in Hnd as (_ & _ & H3).
    by apply NoDup_cons in H3 as [? _]. }
  set (n := List.last l1 s). set (p := List.hd s l2).
  pose proof (chain_last_link _ _ _ _ Hc1) as [Hne Hen]. fold n in Hne, Hen.
  pose proof (chain_first_prev _ _ _ _ Hc2) as Hep. fold p in Hep.
  assert (Hpe : p <> e).
  { unfold p. destruct l2 as [|y l2]; simpl.
    - intros ->. apply Hesl1, list_elem_of_here.
    - intros ->. apply Hel2, list_elem_of_here. }
  eexists. split.
  { unfold unlink, mbind, get_prev, get_next, set_next, set_prev, object, mret.
    simpl. rewrite Hep, Hen. simpl. rewrite lookup_insert_ne by done.
    rewrite Hen, Hep. reflexivity. }
  simpl. split; [split; [done|]|done].
  assert (Hns : n ∈ s :: l1) by apply last_elem.
  apply NoDup_cons in Hnd' as [Hs Hnd'].
  destruct l2 as [|y l2].
  - rewrite app_nil_r in *. unfold p in *. simpl in *.
    eapply chain_retarget; [| | | |exact Hc1]; simpl.
    + apply NoDup_cons. split; [done|]. done.
    + intros r Hr Hrn. by rewrite lookup_insert_ne.
    + intros r Hr. rewrite lookup_insert_ne; [done|]. intros <-. done.
    + fold n. split; simpl; by rewrite lookup_insert_eq.
  - unfold p in *. simpl in *. destruct Hc2 as [_ Hc2].
    apply NoDup_app in Hnd' as (Hn1 & Hdisj & Hn2).
    apply NoDup_cons in Hn2 as [Hy Hn2].
    assert (Hys : y <> s).
    { intros ->. apply Hs. apply elem_of_app. right. apply list_elem_of_here. }
    assert (Hyl1 : y ∉ l1).
    { intros Hin. apply (Hdisj y Hin). apply list_elem_of_here. }
    apply chain_app. split.
    + eapply chain_retarget; [| | | |exact Hc1]; simpl.
      * apply NoDup_cons. split; [|done]. intros Hin. apply Hs.
        apply elem_of_app. by left.
      * intros r Hr Hrn. by rewrite lookup_insert_ne.
      * intros r Hr. rewrite lookup_insert_ne; [done|]. intros <-. done.
      * fold n. split; simpl; by rewrite lookup_insert_eq.
    + eapply chain_frame; [| |exact Hc2]; simpl.
      * intros r Hr. rewrite lookup_insert_ne; [done|]. intros <-.
        apply elem_of_cons in Hns as [->|Hns].
        -- apply Hs. apply elem_of_app. by right.
        -- by apply (Hdisj n Hns).
      * intros r Hr. rewrite lookup_insert_ne; [done|]. intros <-.
        apply elem_of_app in Hr as [Hr|Hr]; [done|].
        by apply list_elem_of_singleton in Hr.
Qed.

Lemma enqueue_unfold s e :
  enqueue s e =
  mbind (get_prev e) (fun p =>
  mbind (get_next e) (fun n =>
  mbind (if bool_decide (is_Some p) && bool_decide (is_Some n)
         then unlink e else mret tt)
        (fun _ => link_last s e))).
Proof. reflexivity. Qed.

Lemma new_List_spec h :
  exists h', new_List h = Ok (fresh h, h') /\ is_list h' (fresh h) [] /\
             fresh h' = S (fresh h) /\
             (forall r, r <> fresh h ->
                _prev h' !! r = _prev h !! r /\ _next h' !! r = _next h !! r).
Proof.
  eexists. split; [reflexivity|]. simpl. split; [split|].
  - apply NoDup_singleton.
  - split; simpl; by rewrite lookup_insert_eq.
  - split; [done|]. intros r Hr. by rewrite !lookup_insert_ne.
Qed.

(** [enqueue] of an entry without links puts it last. *)
Lemma enqueue_unlinked h s l e :
  is_list h s l -> e ∉ s :: l -> unlinked h e ->
  exists h', enqueue s e h = Ok (tt, h') /\ is_list h' s (l ++ [e]) /\
             fresh h' = fresh h /\
             (forall r, r ∉ s :: l ++ [e] -> unlinked h r -> unlinked h' r).
Proof.
  intros Hl He [Hp Hn].
  destruct (link_last_spec h s l e Hl He) as (h' & E & Hl' & Hf & Fp & Fn).
  exists h'. split.
  { rewrite enqueue_unfold. unfold mbind at 1, get_prev at 1. rewrite Hp.
    unfold mbind at 1, get_next at 1. rewrite Hn. simpl.
    unfold mbind, mret. exact E. }
  split; [done|]. split; [done|].
  intros r Hr [Hrp Hrn]. split.
  - rewrite Fp; [done| |].
    + intros ->. apply Hr. rewrite app_comm_cons. apply elem_of_app. right.
      apply list_elem_of_here.
    + intros ->. apply Hr. rewrite app_comm_cons. apply elem_of_app. left.
      apply last_elem.
  - rewrite Fn; [done| |].
    + intros ->. apply Hr. rewrite app_comm_cons. apply elem_of_app. right.
      apply list_elem_of_here.
    + intros ->. apply Hr. apply list_elem_of_here.
Qed.

(** [enqueue] of an entry that is linked in the list moves it to the last
    place and keeps the order of the others. *)
Lemma enqueue_linked h s l1 e l2 :
  is_list h s (l1 ++ e :: l2) ->
  exists h', enqueue s e h = Ok (tt, h') /\ is_list h' s (l1 ++ l2 ++ [e]).
Proof.
  intros Hl.
  destruct (unlink_spec h s l1 e l2 Hl) as (h1 & E1 & Hl1 & _).
  assert (He : e ∉ s :: l1 ++ l2).
  { destruct Hl as [Hnd _]. rewrite app_comm_cons in Hnd |- *.
    apply NoDup_app in Hnd as (_ & H2 & H3). apply NoDup_cons in H3 as [H3 _].
    intros [Hin|Hin]%elem_of_app; [|done].
    apply (H2 e Hin), list_elem_of_here. }
  destruct (link_last_spec h1 s (l1 ++ l2) e Hl1 He) as (h' & E & Hl' & _).
  exists h'. split; [|by rewrite app_assoc].
  destruct Hl as [_ Hc]. apply chain_app in Hc as [Hc1 Hc2].
  pose proof (chain_last_link _ _ _ _ Hc1) as [_ Hen].
  pose proof (chain_first_prev _ _ _ _ Hc2) as Hep.
  rewrite enqueue_unfold. unfold mbind at 1, get_prev at 1. rewrite Hep.
  unfold mbind at 1, get_next at 1. rewrite Hen.
  rewrite !bool_decide_eq_true_2 by eauto. simpl.
  unfold mbind at 1. rewrite E1. exact E.
Qed.

Lemma enqueue_all_spec h s l es :
  is_list h s l -> NoDup (s :: l ++ es) -> Forall (unlinked h) es ->
  exists h', enqueue_all s es h = Ok (tt, h') /\ is_list h' s (l ++ es).
Proof.
  revert h l. induction es as [|e es IH]; intros h l Hl Hnd Hfr; simpl.
  - exists h. by rewrite app_nil_r.
  - apply Forall_cons in Hfr as [He Hfr].
    assert (Hin : e ∉ s :: l).
    { rewrite app_comm_cons in Hnd. apply NoDup_app in Hnd as (_ & H2 & _).
      intros Hin. apply (H2 e Hin), list_elem_of_here. }
    destruct (enqueue_unlinked h s l e Hl Hin He) as (h1 & E & Hl1 & _ & Hfr1).
    destruct (IH h1 (l ++ [e])) as (h' & E' & Hl').
    + done.
    + by rewrite <- app_assoc.
    + rewrite Forall_forall in Hfr |- *. intros r Hr. apply Hfr1; [|by apply Hfr].
      assert (Hnd2 : NoDup ((s :: l ++ [e]) ++ es)).
      { rewrite <- app_comm_cons, <- app_assoc. exact Hnd. }
      apply NoDup_app in Hnd2 as (_ & H2 & _).
      intros Hin'. by apply (H2 r Hin').
    + exists h'. unfold mbind. rewrite E. split; [exact E'|].
      by rewrite <- app_assoc in Hl'.
Qed.

Lemma dequeue_n_spec h s l :
  is_list h s l ->
  exists h', dequeue_n s (length l) h = Ok (Some <$> l, h') /\ is_list h' s [].
Proof.
  revert h. induction l as [|x l IH]; intros h Hl; simpl.
  - by exists h.
  - destruct (dequeue_first h s x l Hl) as (h1 & E & Hl1 & _).
    destruct (IH h1 Hl1) as (h' & E' & Hl').
    exists h'. unfold mbind. rewrite E, E'. done.
Qed.

(** On a list with no entries, [dequeue] returns nothing; distinct entries
    without links that are enqueued leave in the order in which they
    came. *)
Lemma List_fifo h s es :
  is_list h s [] -> NoDup (s :: es) -> Forall (unlinked h) es ->
  dequeue s h = Ok (None, h) /\
  exists h',
    mbind (enqueue_all s es) (fun _ => dequeue_n s (length es)) h
      = Ok (Some <$> es, h') /\
    is_list h' s [].
Proof.
  intros Hl Hnd Hfr. split; [by apply dequeue_empty|].
  destruct (enqueue_all_spec h s [] es Hl Hnd Hfr) as (h1 & E & Hl1).
  destruct (dequeue_n_spec h1 s es Hl1) as (h' & E' & Hl').
  exists h'. unfold mbind. rewrite E. done.
Qed.
(** C10. The list is a FIFO queue for entries without links and for
    entries that are linked in it ([List_fifo], [enqueue_linked]), but not
    once an entry that has been dequeued is enqueued again: [unlink] leaves
    the links of the entry it removes in place, so the later [enqueue]
    unlinks it a second time through the stale links.  After [e1] in, [e1]
    out, [e2] in, [e1] in, the next [dequeue] returns [e1] where a queue
    returns [e2], and the one after returns nothing: [e2] is lost. *)
Theorem requeue_loses_entry :
  exists h e1 e2,
    requeue_scenario empty_heap = Ok ((e1, e2, Some e1, Some e1, None), h) /\
    e1 <> e2.
Proof. eexists _, 1%nat, 2%nat. split; [vm_compute; reflexivity|lia]. Qed.
End ListFacts.

(** ** The greedy feedback-arc-set heuristic *)

(** *** Frame reasoning for the monad of the heuristic *)

Section FasFrames.
Import Graphlib DataList GreedyFas.
Context {GL : Type}.

Context (R : State GL -> State GL -> Prop).
Context (R_refl : forall st, R st st).
Context (R_trans : forall a b c, R a b -> R b c -> R a c).

Lemma preserves_fret {B} (b : B) : preserves R (fret b).
Proof. intros st b' st' [= _ <-]. apply R_refl. Qed.

Lemma preserves_fthrow {B} : preserves R (@fthrow GL B).
Proof. intros st b st' [=]. Qed.

Lemma preserves_out_of_fuel {B} : preserves R (@out_of_fuel GL B).
Proof. intros st b st' [=]. Qed.

Lemma preserves_fbind {B C} (m : F GL B) (k : B -> F GL C) :
  preserves R m -> (forall b, preserves R (k b)) -> preserves R (fbind m k).
Proof.
  intros Hm Hk st c st'. unfold fbind.
  destruct (m st) as [[b st1]| |] eqn:E; [|done|done].
  intros Hk'. eapply R_trans; [eapply Hm, E|eapply Hk, Hk'].
Qed.

Lemma preserves_defined {B} (x : option B) : preserves R (defined x).
Proof. destruct x; [apply preserves_fret|apply preserves_fthrow]. Qed.

Lemma preserves_get_graph : preserves R get_graph.
Proof. intros st b st' [= _ <-]. apply R_refl. Qed.

Lemma preserves_get_in r : preserves R (get_in r).
Proof. intros st b st' [= _ <-]. apply R_refl. Qed.

Lemma preserves_get_out r : preserves R (get_out r).
Proof. intros st b st' [= _ <-]. apply R_refl. Qed.

Lemma preserves_forEach {B} (xs : list B) (body : B -> F GL unit) :
  (forall x, preserves R (body x)) -> preserves R (forEach xs body).
Proof.
  intros Hb. induction xs as [|x xs IH]; simpl.
  - apply preserves_fret.
  - apply preserves_fbind; [apply Hb|intros _; apply IH].
Qed.
End FasFrames.

Section SameGraph.
Import Graphlib DataList GreedyFas.
Context {GL : Type}.
Abbreviation keeps := (preserves (GL:=GL) same_graph).

Lemma same_graph_refl (st : State GL) : same_graph st st.
Proof. reflexivity. Qed.

Lemma same_graph_trans (a b c : State GL) :
  same_graph a b -> same_graph b c -> same_graph a c.
Proof. unfold same_graph. congruence. Qed.

Lemma keeps_on_heap {B} (m : M B) : keeps (on_heap m).
Proof.
  intros st b st'. unfold on_heap.
  destruct (m (heap st)) as [[b' h]| |]; [|done|done].
  intros [= _ <-]. reflexivity.
Qed.

Lemma keeps_set_in r x : keeps (set_in r x).
Proof. intros st b st' [= _ <-]. reflexivity. Qed.

Lemma keeps_set_out r x : keeps (set_out r x).
Proof. intros st b st' [= _ <-]. reflexivity. Qed.

Lemma keeps_fbind {B C} (m : F GL B) (k : B -> F GL C) :
  keeps m -> (forall b, keeps (k b)) -> keeps (fbind m k).
Proof. intros Hm Hk. eapply preserves_fbind; eauto using same_graph_trans. Qed.

Lemma keeps_fret {B} (b : B) : keeps (fret b).
Proof. apply preserves_fret, same_graph_refl. Qed.

Lemma keeps_defined {B} (x : option B) : keeps (defined x).
Proof. apply preserves_defined, same_graph_refl. Qed.

Lemma keeps_get_graph : keeps get_graph.
Proof. apply preserves_get_graph, same_graph_refl. Qed.

Lemma keeps_get_in r : keeps (get_in r).
Proof. apply preserves_get_in, same_graph_refl. Qed.

Lemma keeps_get_out r : keeps (get_out r).
Proof. apply preserves_get_out, same_graph_refl. Qed.

Ltac keeps_step :=
  first
    [ apply keeps_fbind; [|intros ?]
    | apply keeps_fret
    | apply preserves_fthrow
    | apply keeps_defined
    | apply keeps_get_graph
    | apply keeps_get_in
    | apply keeps_get_out
    | apply keeps_on_heap
    | apply keeps_set_in
    | apply keeps_set_out
    | case_decide
    | case_match ].

Lemma keeps_assignBucket buckets zeroIdx entry :
  keeps (assignBucket buckets zeroIdx entry).
Proof. unfold assignBucket. repeat keeps_step. Qed.

(** With no [v] on the entries, [removeNode] removes nothing. *)
Lemma keeps_removeNode buckets zeroIdx entry collect :
  keeps (removeNode no_v buckets zeroIdx entry collect).
Proof.
  unfold removeNode, inEdges_of, outEdges_of, removeNode_of. simpl.
  intros st b st'. unfold fbind, get_graph, fret, set_graph. simpl.
  intros [= _ <-]. reflexivity.
Qed.

Lemma keeps_drain fuel buckets zeroIdx bucket :
  keeps (drain no_v fuel buckets zeroIdx bucket).
Proof.
  induction fuel as [|fuel IH]; simpl.
  - apply preserves_out_of_fuel.
  - repeat first [apply keeps_removeNode|apply IH|keeps_step].
Qed.

Lemma keeps_pick buckets zeroIdx i results :
  keeps (pick no_v buckets zeroIdx i results).
Proof.
  induction i as [|i IH]; simpl.
  - apply keeps_fret.
  - repeat first [apply keeps_removeNode|apply IH|keeps_step].
Qed.

(** The loop of [doGreedyFAS] ends only on an empty working graph, and
    the working graph never changes. *)
Lemma doGreedyFAS_loop_no_result fuel buckets zeroIdx results (st : State GL) :
  nodeCount (fasGraph st) <> 0%nat ->
  forall r st', doGreedyFAS_loop no_v fuel buckets zeroIdx results st
                <> Ok (r, st').
Proof.
  revert results st. induction fuel as [|fuel IH]; intros results st Hn r st'.
  - simpl. done.
  - simpl. unfold fbind at 1. unfold get_graph at 1. simpl.
    rewrite decide_False by done.
    unfold fbind at 1.
    destruct (drain _ fuel buckets zeroIdx (buckets !! 0%nat) st)
      as [[[] st1]| |] eqn:E1; [|done|done].
    apply keeps_drain in E1.
    unfold fbind at 1.
    destruct (drain _ fuel buckets zeroIdx (last buckets) st1)
      as [[[] st2]| |] eqn:E2; [|done|done].
    apply keeps_drain in E2.
    unfold fbind at 1. unfold get_graph at 1. simpl.
    assert (Hn2 : nodeCount (fasGraph st2) <> 0%nat).
    { unfold same_graph in *. congruence. }
    rewrite decide_False by done.
    unfold fbind at 1.
    destruct (pick _ buckets zeroIdx (length buckets - 2) results st2)
      as [[results' st3]| |] eqn:E3; [|done|done].
    apply keeps_pick in E3.
    apply IH. unfold same_graph in *. congruence.
Qed.
End SameGraph.

Lemma assoc_set_length {K V} `{EqDecision K} (k : K) (x : V) (l : list (K * V)) :
  (length l <= length (assoc_set k x l) /\ 1 <= length (assoc_set k x l))%nat.
Proof.
  induction l as [|[k' y] l IH]; simpl; [lia|].
  destruct (decide (k = k')); simpl; lia.
Qed.

Section Grows.
Import Graphlib DataList GreedyFas.
Context {GL NL EL : Type} (newNodeId : list NodeId -> NodeId).
Abbreviation mono := (preserves (GL:=GL) grows).

Lemma grows_refl (st : State GL) : grows st st.
Proof. unfold grows. lia. Qed.

Lemma grows_trans (a b c : State GL) : grows a b -> grows b c -> grows a c.
Proof. unfold grows. lia. Qed.

Lemma mono_of_keeps {B} (m : F GL B) : preserves same_graph m -> mono m.
Proof. intros Hk st b st' E. apply Hk in E. unfold grows. rewrite E. lia. Qed.

Lemma mono_fbind {B C} (m : F GL B) (k : B -> F GL C) :
  mono m -> (forall b, mono (k b)) -> mono (fbind m k).
Proof. intros Hm Hk. eapply preserves_fbind; eauto using grows_trans. Qed.

Lemma nodeCount_setNode (g : FasGraph GL) v l :
  (nodeCount g <= nodeCount (setNode g v l) /\ 1 <= nodeCount (setNode g v l))%nat.
Proof. unfold nodeCount, setNode. simpl. apply assoc_set_length. Qed.

Lemma nodeCount_ensureNode (g : FasGraph GL) v :
  (nodeCount g <= nodeCount (ensureNode None g v))%nat.
Proof.
  unfold ensureNode. destruct (hasNode g v); [lia|]. apply nodeCount_setNode.
Qed.

Lemma nodeCount_setEdge (g : FasGraph GL) e l :
  (nodeCount g <= nodeCount (setEdge None g e l))%nat.
Proof.
  unfold setEdge, nodeCount at 2. simpl.
  etrans; [apply (nodeCount_ensureNode g (e_v e))|].
  apply nodeCount_ensureNode.
Qed.

Lemma addNode_nonempty (st : State GL) id st' :
  addNode newNodeId st = Ok (id, st') ->
  grows st st' /\ (1 <= nodeCount (fasGraph st'))%nat.
Proof.
  unfold addNode, fbind, on_heap, alloc, set_in, set_out, get_graph, set_graph,
    fret. simpl. intros [= _ <-]. simpl. unfold grows. simpl.
  apply nodeCount_setNode.
Qed.

Lemma mono_addNode : mono (addNode newNodeId).
Proof. intros st id st' E. by apply addNode_nonempty in E as [? _]. Qed.

Ltac mono_step :=
  first
    [ apply mono_fbind; [|intros ?]
    | apply preserves_fret, grows_refl
    | apply preserves_fthrow
    | apply mono_addNode
    | apply mono_of_keeps, keeps_assignBucket
    | apply mono_of_keeps, keeps_on_heap
    | apply mono_of_keeps, keeps_set_in
    | apply mono_of_keeps, keeps_set_out
    | apply preserves_defined, grows_refl
    | apply preserves_get_graph, grows_refl
    | apply preserves_get_in, grows_refl
    | apply preserves_get_out, grows_refl ].

Lemma mono_buildState_edges weightFn es maxIn maxOut :
  mono (buildState_edges weightFn es maxIn maxOut).
Proof.
  revert maxIn maxOut. induction es as [|e es IH]; intros maxIn maxOut; simpl.
  - apply preserves_fret, grows_refl.
  - intros st b st'. unfold fbind at 1. unfold get_graph at 1. simpl.
    unfold fbind at 1. unfold set_graph at 1. simpl.
    set (st1 := mkState _ _ _ _). intros E.
    apply (grows_trans st st1).
    + unfold grows, st1. simpl. apply nodeCount_setEdge.
    + refine ((_ : mono _) _ _ _ E).
      repeat first [apply IH|mono_step].
Qed.
End Grows.

Lemma fbind_Ok {GL B C} (m : GreedyFas.F GL B) (k : B -> GreedyFas.F GL C) st c st' :
  GreedyFas.fbind m k st = Ok (c, st') ->
  exists b st1, m st = Ok (b, st1) /\ k b st1 = Ok (c, st').
Proof.
  unfold GreedyFas.fbind. destruct (m st) as [[b st1]| |]; [|done|done].
  intros E. by exists b, st1.
Qed.

Section NoResult.
Import Graphlib DataList GreedyFas.
Context {GL NL EL : Type} (newNodeId : list NodeId -> NodeId).

Lemma mono_new_buckets n : preserves (GL:=GL) grows (new_buckets n).
Proof.
  induction n as [|n IH]; simpl.
  - apply preserves_fret, grows_refl.
  - apply mono_fbind; [apply mono_of_keeps, keeps_on_heap|intros l].
    apply mono_fbind; [apply IH|intros ls].
    apply preserves_fret, grows_refl.
Qed.

Lemma mono_forEach {B} (xs : list B) (body : B -> F GL unit) :
  (forall x, preserves grows (body x)) -> preserves grows (forEach xs body).
Proof. apply preserves_forEach; [apply grows_refl|apply grows_trans]. Qed.

Lemma buildState_nonempty (g : Graph GL NL EL) weightFn st x st' :
  nodes g <> [] ->
  buildState newNodeId g weightFn st = Ok (x, st') ->
  (1 <= nodeCount (fasGraph st'))%nat.
Proof.
  intros Hne. unfold buildState.
  destruct (nodes g) as [|v vs]; [done|]. simpl.
  intros (u1 & st1 & E1 & E)%fbind_Ok.
  apply fbind_Ok in E1 as (u2 & st2 & E1 & E2).
  apply fbind_Ok in E1 as (id & st3 & E1 & [= _ <-]).
  apply addNode_nonempty in E1 as [_ H1].
  apply (mono_forEach vs) in E2.
  2:{ intros nodeId. apply mono_fbind; [apply mono_addNode|intros ?].
      apply preserves_fret, grows_refl. }
  apply fbind_Ok in E as (mm & st4 & E3 & E).
  apply mono_buildState_edges in E3.
  apply fbind_Ok in E as (buckets & st5 & E4 & E).
  apply mono_new_buckets in E4.
  apply fbind_Ok in E as (fg & st6 & [= _ <-] & E).
  apply fbind_Ok in E as (u & st7 & E5 & [= _ <-]).
  apply mono_forEach in E5.
  2:{ intros w. apply mono_fbind; [apply preserves_get_graph, grows_refl|intros ?].
      apply mono_fbind; [apply preserves_defined, grows_refl|intros ?].
      apply mono_of_keeps, keeps_assignBucket. }
  unfold grows in *. lia.
Qed.

(** On a graph with more than one node the heuristic, whose entries have
    no [v], returns no result whatever the fuel. *)
Lemma greedyFAS_no_result (g : Graph GL NL EL) weightFn fuel :
  (1 < nodeCount g)%nat ->
  forall r, greedyFAS newNodeId fuel g weightFn <> Ok r.
Proof.
  intros Hn r. unfold greedyFAS. rewrite decide_False by lia.
  destruct (fbind _ _ (initial g)) as [[results st]| |] eqn:E; [|done|done].
  exfalso. apply fbind_Ok in E as ([buckets zeroIdx] & st1 & E1 & E2).
  apply buildState_nonempty in E1.
  - simpl in E2. unfold doGreedyFAS in E2.
    eapply doGreedyFAS_loop_no_result; [|exact E2]. lia.
  - unfold nodeCount in Hn. unfold nodes.
    destruct (node_entries g); simpl in *; [lia|done].
Qed.

Lemma greedyFAS_small (g : Graph GL NL EL) weightFn fuel :
  (nodeCount g <= 1)%nat ->
  greedyFAS newNodeId fuel g weightFn = Ok [].
Proof. intros Hn. unfold greedyFAS. by rewrite decide_True. Qed.
End NoResult.

Section GreedyFasClaim.
Import Graphlib DataList GreedyFas.

(** One turn of the loop of [doGreedyFAS]. *)
Lemma doGreedyFAS_loop_turn {GL} v_of fuel buckets zeroIdx results results'
    (st st1 st2 st3 : State GL) :
  nodeCount (fasGraph st) <> 0%nat ->
  nodeCount (fasGraph st2) <> 0%nat ->
  drain v_of fuel buckets zeroIdx (buckets !! 0%nat) st = Ok (tt, st1) ->
  drain v_of fuel buckets zeroIdx (last buckets) st1 = Ok (tt, st2) ->
  pick v_of buckets zeroIdx (length buckets - 2) results st2 = Ok (results', st3) ->
  doGreedyFAS_loop v_of (S fuel) buckets zeroIdx results st
  = doGreedyFAS_loop v_of fuel buckets zeroIdx results' st3.
Proof.
  intros Hn Hn2 E1 E2 E3. simpl. unfold fbind at 1. unfold get_graph at 1.
  rewrite decide_False by done. unfold fbind at 1. rewrite E1.
  unfold fbind at 1. rewrite E2. unfold fbind at 1. unfold get_graph at 1.
  rewrite decide_False by done. unfold fbind at 1. by rewrite E3.
Qed.

Lemma loop_two_nodes_drained fuel results :
  doGreedyFAS_loop no_v fuel [2; 3; 4]%nat 1 results Examples.two_nodes_drained
  = OutOfFuel.
Proof.
  induction fuel as [|fuel IH]; [reflexivity|].
  destruct fuel as [|fuel]; [vm_compute; reflexivity|].
  rewrite (doGreedyFAS_loop_turn no_v (S fuel) _ _ results results
             Examples.two_nodes_drained Examples.two_nodes_drained Examples.two_nodes_drained
             Examples.two_nodes_drained).
  - exact IH.
  - by vm_compute.
  - by vm_compute.
  - vm_compute. reflexivity.
  - vm_compute. reflexivity.
  - vm_compute. reflexivity.
Qed.

(** With the nodes numbered by [addNode], the run on the two nodes without
    an edge goes on for ever: no fuel is enough. *)
Lemma greedyFAS_two_isolated_nodes_diverges fuel :
  greedyFAS Examples.number_nodes fuel Examples.two_isolated_nodes
    DEFAULT_WEIGHT_FN = OutOfFuel.
Proof.
  unfold greedyFAS. rewrite decide_False by (unfold nodeCount; simpl; lia).
  unfold fbind at 1.
  change (buildState Examples.number_nodes Examples.two_isolated_nodes
            DEFAULT_WEIGHT_FN (initial Examples.two_isolated_nodes))
    with (Ok (([2; 3; 4]%nat, 1%Z), Examples.two_nodes_built)
          : result ((list ref * Z) * State unit)).
  cbv beta iota. unfold doGreedyFAS. simpl fst. simpl snd.
  destruct fuel as [|[|[|[|fuel]]]]; [vm_compute; reflexivity ..|].
  rewrite (doGreedyFAS_loop_turn no_v (S (S (S fuel))) _ _ [] []
             Examples.two_nodes_built Examples.two_nodes_drained Examples.two_nodes_drained
             Examples.two_nodes_drained).
  - by rewrite loop_two_nodes_drained.
  - by vm_compute.
  - by vm_compute.
  - vm_compute. reflexivity.
  - vm_compute. reflexivity.
  - vm_compute. reflexivity.
Qed.

(** C1. On the graph of two nodes and no edge, whose empty edge set is a
    feedback arc set, [greedyFAS] returns nothing.  Whatever the fuel, the
    identifiers that [addNode] gives and the weights, the run throws or goes
    on; with the nodes numbered it goes on for ever.  The entries that
    [buildState] makes have no [v], so [removeNode] removes no node and the
    loop of [doGreedyFAS] never sees the working graph empty. *)
Theorem greedyFAS_two_isolated_nodes :
  (forall (newNodeId : list NodeId -> NodeId) (weightFn : Edge -> Z) (fuel : nat),
     greedyFAS newNodeId fuel Examples.two_isolated_nodes weightFn = Throw \/
     greedyFAS newNodeId fuel Examples.two_isolated_nodes weightFn = OutOfFuel) /\
  (forall fuel : nat,
     greedyFAS Examples.number_nodes fuel Examples.two_isolated_nodes
       DEFAULT_WEIGHT_FN = OutOfFuel).
Proof.
  split; [|apply greedyFAS_two_isolated_nodes_diverges].
  intros newNodeId weightFn fuel.
  pose proof (greedyFAS_no_result newNodeId Examples.two_isolated_nodes
                weightFn fuel) as H.
  destruct (greedyFAS _ fuel _ _) as [r| |]; [|by left|by right].
  exfalso. apply (H ltac:(unfold nodeCount; simpl; lia) r). reflexivity.
Qed.

(** Had the entries carried [v], the loop of [doGreedyFAS] on the state
    that [buildState] leaves would find the feedback arc of the two-node
    cycle. *)
Example doGreedyFAS_with_v_two_cycle :
  exists st,
    doGreedyFAS Examples.v_a_b 30 [2; 3; 4; 5; 6]%nat 2 Examples.two_cycle_state
      = Ok ([mkArc "b" "a"], st) /\
    nodeCount (fasGraph st) = 0%nat.
Proof. eexists. split; vm_compute; reflexivity. Qed.
End GreedyFasClaim.

Section RemoveNode.
Import Graphlib DataList GreedyFas.
Context {GL : Type} (v_of : ref -> option NodeId).

Lemma removeNode_preds_spec buckets zeroIdx collect es acc (st : State GL) r st' :
  removeNode_preds buckets zeroIdx collect es acc st = Ok (r, st') ->
  r = acc ++ (if collect then arc_of <$> es else []) /\
  fasGraph st' = fasGraph st.
Proof.
  revert acc st. induction es as [|e es IH]; intros acc st; simpl.
  - intros [= <- <-]. split; [|done]. destruct collect; by rewrite app_nil_r.
  - intros (g & st1 & [= <- <-] & E)%fbind_Ok.
    apply fbind_Ok in E as (uEntry & st2 & E1 & E).
    apply keeps_defined in E1.
    apply fbind_Ok in E as (out & st3 & [= <- <-] & E).
    apply fbind_Ok in E as (u & st4 & E2 & E).
    apply keeps_set_out in E2.
    apply fbind_Ok in E as (u' & st5 & E3 & E).
    apply keeps_assignBucket in E3.
    apply IH in E as [-> E]. unfold same_graph in *. split; [|congruence].
    destruct collect; [|done]. by rewrite <- app_assoc.
Qed.

Lemma removeNode_spec buckets zeroIdx entry collect (st : State GL) r st' :
  removeNode v_of buckets zeroIdx entry collect st = Ok (r, st') ->
  r = (if collect
       then Some (arc_of <$> inEdges_of (fasGraph st) (v_of entry))
       else None) /\
  fasGraph st' = removeNode_of (fasGraph st) (v_of entry).
Proof.
  unfold removeNode.
  intros (g & st1 & [= <- <-] & E)%fbind_Ok.
  apply fbind_Ok in E as (results & st2 & E1 & E).
  apply removeNode_preds_spec in E1 as [-> G1].
  apply fbind_Ok in E as (u & st3 & E2 & E).
  assert (G2 : same_graph st2 st3).
  { refine ((_ : preserves same_graph _) _ _ _ E2).
    apply preserves_forEach; [apply same_graph_refl|apply same_graph_trans|].
    intros edge. apply keeps_fbind; [apply keeps_get_graph|intros ?].
    apply keeps_fbind; [apply keeps_defined|intros ?].
    apply keeps_fbind; [apply keeps_get_in|intros ?].
    apply keeps_fbind; [apply keeps_set_in|intros ?].
    apply keeps_assignBucket. }
  apply fbind_Ok in E as (g' & st4 & [= <- <-] & E).
  apply fbind_Ok in E as (u' & st5 & [= _ <-] & [= <- <-]).
  simpl. unfold same_graph in G2. split; [by destruct collect|congruence].
Qed.
End RemoveNode.

Section Expand.
Import Graphlib DataList GreedyFas.

Lemma elem_of_expand {GL NL EL} (g : Graph GL NL EL) (results : list Arc) (e : Edge) :
  graph_wf g ->
  Some e ∈ expand g results <->
  e ∈ edges g /\ exists a, a ∈ results /\ e_v e = a_v a /\ e_w e = a_w a.
Proof.
  intros (_ & _ & Hends). unfold expand. rewrite list_elem_of_bind. split.
  - intros (a & Hin & Ha). unfold outEdgesTo in Hin.
    destruct (hasNode g (a_v a)).
    + apply list_elem_of_fmap in Hin as (e' & [= <-] & Hin).
      apply list_elem_of_filter in Hin as [[Hv Hw] Hin]. eauto.
    + apply list_elem_of_singleton in Hin. done.
  - intros (Hin & a & Ha & Hv & Hw). exists a. split; [|done].
    unfold outEdgesTo, hasNode. rewrite bool_decide_eq_true_2.
    + apply list_elem_of_fmap. exists e. split; [done|].
      apply list_elem_of_filter. done.
    + rewrite Forall_forall in Hends. rewrite <- Hv. by apply Hends.
Qed.

(** Had the entries carried [v]: a call of [removeNode] with
    [collectPredecessors = true] that returns would emit one arc per in-edge
    that the node [entry.v] has in the working graph at the call, in their
    order, and remove that node; and [expand] yields, for a list of arcs,
    exactly the edges of the original graph between the same endpoints. *)
Lemma removeNode_emits_in_edges {GL NL EL : Type} (v_of : ref -> option NodeId)
    (buckets : list ref) (zeroIdx : Z) (entry : ref) (v : NodeId)
    (st st' : State GL) (r : option (list Arc))
    (g : Graph GL NL EL) (results : list Arc) :
  v_of entry = Some v ->
  v ∈ nodes (fasGraph st) ->
  removeNode v_of buckets zeroIdx entry true st = Ok (r, st') ->
  graph_wf g ->
  r = Some (arc_of <$> filter (fun e => e_w e = v) (edges (fasGraph st))) /\
  fasGraph st' = Graphlib.removeNode (fasGraph st) v /\
  forall e, Some e ∈ expand g results <->
            e ∈ edges g /\ exists a, a ∈ results /\ e_v e = a_v a /\ e_w e = a_w a.
Proof.
  intros Hv Hin E Hwf. apply removeNode_spec in E as [-> ->].
  rewrite Hv. simpl. unfold inEdges_of, inEdges, hasNode. simpl.
  rewrite bool_decide_eq_true_2 by done. simpl.
  split; [done|]. split; [done|]. intros e. by apply elem_of_expand.
Qed.

Lemma removeNode_emits_in_edges_witness :
  exists st',
    removeNode Examples.v_a_b [2; 3; 4; 5; 6]%nat 2 0%nat true
      Examples.two_cycle_state
    = Ok (Some [mkArc "b" "a"], st') /\
    nodes (fasGraph st') = ["b"%string] /\
    forall e, Some e ∈ expand Examples.two_cycle [mkArc "b" "a"] <->
              e ∈ edges Examples.two_cycle /\
              exists a, a ∈ [mkArc "b" "a"] /\ e_v e = a_v a /\ e_w e = a_w a.
Proof.
  eexists. split; [vm_compute; reflexivity|].
  match goal with
  | |- nodes (fasGraph ?s) = _ /\ _ =>
      destruct (removeNode_emits_in_edges (NL:=unit) (EL:=unit) Examples.v_a_b
                  [2; 3; 4; 5; 6]%nat 2 0%nat "a"%string
                  Examples.two_cycle_state s (Some [mkArc "b" "a"])
                  Examples.two_cycle [mkArc "b" "a"])
        as (_ & Hg & He)
  end.
  - reflexivity.
  - apply (bool_decide_unpack _). by vm_compute.
  - vm_compute. reflexivity.
  - unfold graph_wf. split_and!; apply (bool_decide_unpack _); by vm_compute.
  - split; [|exact He]. rewrite Hg. vm_compute. reflexivity.
Defined.
End Expand.

Section RemoveNodeClaim.
Import Graphlib DataList GreedyFas.
Local Open Scope Z_scope.
Local Open Scope string_scope.

(** As [greedyFAS] runs it, on entries without [v], [removeNode] emits
    nothing and leaves the state as it is: [g.inEdges(undefined)] and
    [g.outEdges(undefined)] hold no edge and [g.removeNode(undefined)]
    removes no node. *)
Lemma removeNode_no_v {GL} buckets zeroIdx entry collect (st : State GL) :
  removeNode no_v buckets zeroIdx entry collect st
  = Ok (if collect then Some [] else None, st).
Proof. destruct st. reflexivity. Qed.

Lemma loop_two_cycle_picked fuel results :
  doGreedyFAS_loop no_v fuel [2; 3; 4; 5; 6]%nat 2 results
    Examples.two_cycle_picked
  = OutOfFuel.
Proof.
  induction fuel as [|fuel IH]; [reflexivity|].
  destruct fuel as [|fuel]; [vm_compute; reflexivity|].
  rewrite (doGreedyFAS_loop_turn no_v (S fuel) _ _ results results
             Examples.two_cycle_picked Examples.two_cycle_picked
             Examples.two_cycle_picked Examples.two_cycle_picked).
  - exact IH.
  - by vm_compute.
  - by vm_compute.
  - vm_compute. reflexivity.
  - vm_compute. reflexivity.
  - vm_compute. reflexivity.
Qed.

(** With an [addNode] that gives the new nodes the identifiers of the
    original ones, the run on the two-node cycle takes the two entries from
    their bucket, one in each of its first two turns, and then goes on for
    ever. *)
Lemma greedyFAS_two_cycle_diverges fuel :
  greedyFAS Examples.name_a_b fuel Examples.two_cycle DEFAULT_WEIGHT_FN
  = OutOfFuel.
Proof.
  unfold greedyFAS. rewrite decide_False by (unfold nodeCount; simpl; lia).
  unfold fbind at 1.
  change (buildState Examples.name_a_b Examples.two_cycle
            DEFAULT_WEIGHT_FN (initial Examples.two_cycle))
    with (Ok (([2; 3; 4; 5; 6]%nat, 2%Z), Examples.two_cycle_state)
          : result ((list ref * Z) * State unit)).
  cbv beta iota. unfold doGreedyFAS. simpl fst. simpl snd.
  destruct fuel as [|[|[|[|fuel]]]]; [vm_compute; reflexivity ..|].
  rewrite (doGreedyFAS_loop_turn no_v (S (S (S fuel))) _ _ [] []
             Examples.two_cycle_state Examples.two_cycle_state
             Examples.two_cycle_state Examples.two_cycle_picked_a);
    [|by vm_compute|by vm_compute|vm_compute; reflexivity ..].
  rewrite (doGreedyFAS_loop_turn no_v (S (S fuel)) _ _ [] []
             Examples.two_cycle_picked_a Examples.two_cycle_picked_a
             Examples.two_cycle_picked_a Examples.two_cycle_picked);
    [|by vm_compute|by vm_compute|vm_compute; reflexivity ..].
  by rewrite loop_two_cycle_picked.
Qed.

(** C9. On the cycle [a -> b -> a] no in-edge is emitted and nothing is
    expanded.  Whatever the identifiers that [addNode] gives, the weights
    and the fuel, [greedyFAS] throws or goes on, and with the identifiers
    kept it goes on for ever.  In the state that [buildState] leaves, the
    node [a] is interior, its entry is the object 0 and its one in-edge is
    [b -> a]; the loop of [doGreedyFAS] takes that entry from its bucket and
    calls [removeNode] with [collectPredecessors = true], which emits the
    empty list and leaves the working graph as it is.  The entries have no
    [v], so the same holds of every call of [removeNode] that [greedyFAS]
    makes. *)
Theorem greedyFAS_two_cycle_emits_nothing :
  (forall (newNodeId : list NodeId -> NodeId) (weightFn : Edge -> Z) (fuel : nat),
     greedyFAS newNodeId fuel Examples.two_cycle weightFn = Throw \/
     greedyFAS newNodeId fuel Examples.two_cycle weightFn = OutOfFuel) /\
  (forall fuel : nat,
     greedyFAS Examples.name_a_b fuel Examples.two_cycle DEFAULT_WEIGHT_FN
     = OutOfFuel) /\
  buildState Examples.name_a_b Examples.two_cycle DEFAULT_WEIGHT_FN
    (initial Examples.two_cycle)
  = Ok (([2; 3; 4; 5; 6]%nat, 2), Examples.two_cycle_state) /\
  node (fasGraph Examples.two_cycle_state) "a" = Some (Some 0%nat) /\
  inEdges (fasGraph Examples.two_cycle_state) "a" = Some [mkEdge "b" "a" None] /\
  (exists st : State unit,
     on_heap (dequeue 4%nat) Examples.two_cycle_state = Ok (Some 0%nat, st) /\
     removeNode no_v [2; 3; 4; 5; 6]%nat 2 0%nat true st = Ok (Some [], st) /\
     pick no_v [2; 3; 4; 5; 6]%nat 2 3 [] Examples.two_cycle_state
     = Ok ([], st) /\
     fasGraph st = fasGraph Examples.two_cycle_state) /\
  (forall (GL : Type) (buckets : list ref) (zeroIdx : Z) (entry : ref)
          (st : State GL),
     removeNode no_v buckets zeroIdx entry true st = Ok (Some [], st)).
Proof.
  split_and!.
  - intros newNodeId weightFn fuel.
    pose proof (greedyFAS_no_result newNodeId Examples.two_cycle weightFn fuel)
      as H.
    destruct (greedyFAS _ fuel _ _) as [r| |]; [|by left|by right].
    exfalso. apply (H ltac:(unfold nodeCount; simpl; lia) r). reflexivity.
  - apply greedyFAS_two_cycle_diverges.
  - vm_compute. reflexivity.
  - vm_compute. reflexivity.
  - vm_compute. reflexivity.
  - eexists. split_and!.
    + vm_compute. reflexivity.
    + apply removeNode_no_v.
    + vm_compute. reflexivity.
    + vm_compute. reflexivity.
  - intros GL buckets zeroIdx entry st. apply removeNode_no_v.
Qed.
End RemoveNodeClaim.

(** ** [translateGraph] *)

Section TranslateFacts.
Import Graphlib Layout.
Local Open Scope Q_scope.










End TranslateFacts.

(** ** The passes of the layout pipeline *)

Section LayoutPasses.
Import Graphlib Layout.
Local Open Scope Q_scope.
Local Open Scope string_scope.

(** [makeSpaceForEdgeLabels] halves [ranksep], doubles every [minlen] and
    keeps the edges and all else of the graph label. *)
Lemma makeSpaceForEdgeLabels_halves_doubles (g : LayoutGraph) :
  let g' := makeSpaceForEdgeLabels g in
  ranksep (graph g') = ranksep (graph g) / 2 /\
  rankdir (graph g') = rankdir (graph g) /\
  node_entries g' = node_entries g /\
  Forall2 (fun old new =>
             new.1 = old.1 /\ minlen new.2 = minlen old.2 * 2 /\
             labeloffset new.2 = labeloffset old.2 /\
             labelpos new.2 = labelpos old.2)
          (edge_entries g) (edge_entries g').
Proof.
  simpl. split_and!; try done.
  apply Forall2_fmap_r, Forall2_same_length_lookup_2; [done|].
  intros i [e l] y Hx Hy. rewrite Hx in Hy. injection Hy as <-. simpl.
  unfold makeSpace_edge. repeat case_match; done.
Qed.

(** The padding goes to the width only for the upper-case values ["TB"]
    and ["BT"] of [rankdir]. *)
Lemma makeSpace_edge_padding (graph : GraphLabel) (edge : EdgeLabel) :
  toLowerCase (labelpos edge) <> "c" ->
  let edge' := makeSpace_edge graph edge in
  (rankdir graph = "TB" \/ rankdir graph = "BT" ->
   e_width edge' = e_width edge + labeloffset edge /\
   e_height edge' = e_height edge) /\
  (rankdir graph <> "TB" -> rankdir graph <> "BT" ->
   e_width edge' = e_width edge /\
   e_height edge' = e_height edge + labeloffset edge).
Proof.
  intros Hc. unfold makeSpace_edge. rewrite bool_decide_eq_true_2 by done.
  split.
  - intros Hd. rewrite (proj2 (orb_true_iff _ _)); [done|].
    destruct Hd as [Hd|Hd]; [left|right]; by apply bool_decide_eq_true_2.
  - intros H1 H2. rewrite !bool_decide_eq_false_2 by done. done.
Qed.

(** C5. With the default [rankdir], which [graphDefaults] spells ["tb"],
    and an edge whose [labelpos] is ["r"], [makeSpaceForEdgeLabels] halves
    [ranksep] and doubles [minlen], but adds [labeloffset] to the height of
    the edge label and leaves its width: the comparison of [rankdir] with
    ["TB"] and ["BT"] is exact, not case-insensitive. *)
Theorem makeSpaceForEdgeLabels_default_rankdir :
  exists l,
    edge_entries (makeSpaceForEdgeLabels Examples.default_graph_one_edge)
      = [(mkEdge "a" "b" None, l)] /\
    toLowerCase (rankdir (graph Examples.default_graph_one_edge)) = "tb" /\
    ranksep (graph (makeSpaceForEdgeLabels Examples.default_graph_one_edge))
      == 25 /\
    minlen l == 2 /\
    e_width l == 0 /\
    e_height l == 10.
Proof. eexists. split; [reflexivity|]. split_and!; reflexivity. Qed.

(** C4. On a single node of size 2 by 2 whose box lies left of and above
    the origin, with no margins, [translateGraph] moves the box to
    [[0, 2]] in both directions but sets the width and the height of the
    graph to 11: [maxX] and [maxY] start at 0, not at the first box, so the
    size is the span from the least coordinate to the origin.  The boxes do
    lie within the margins and touch the left and the top one
    ([translateGraph_boxes]). *)
Theorem translateGraph_size_not_span :
  exists g' r w h,
    translateGraph Examples.one_node_left_of_origin = Some g' /\
    boxes g' = [r] /\
    left_of r == 0 /\ right_of r == 2 /\ top_of r == 0 /\ bottom_of r == 2 /\
    width (graph g') = Some w /\ w == 11 /\
    height (graph g') = Some h /\ h == 11.
Proof.
  eexists _, _, _, _. split; [vm_compute; reflexivity|].
  split; [reflexivity|]. split_and!; reflexivity.
Qed.

(** C8. On a compound node [p] followed by its two border nodes,
    [assignRankMinMax] gives [p] neither [minRank] nor [maxRank] and sets
    [maxRank] of the graph to 0, whatever [_.max] computes: the loop over the
    nodes only assigns [node], and the conditional after it sees the last
    node, a border node without [borderTop]. *)
Theorem assignRankMinMax_last_node_only (lodash_max : Val -> Val -> Val) :
  exists g' p gl,
    assignRankMinMax lodash_max Examples.parent_before_borders = Ok g' /\
    node g' "p" = Some (Some p) /\
    p !! "borderTop" = Some (VStr "t") /\
    p !! "minRank" = None /\ p !! "maxRank" = None /\
    graph g' = Some gl /\ gl !! "maxRank" = Some (VNum 0).
Proof.
  eexists _, _, _. split; [vm_compute; reflexivity|].
  split; [vm_compute; reflexivity|].
  split_and!; vm_compute; reflexivity.
Qed.
End LayoutPasses.

(** ** The linked list on concrete heaps *)

Section ListWitnesses.
Import DataList ListExamples.

Lemma List_fifo_witness :
  dequeue 0 empty_list_two_objects = Ok (None, empty_list_two_objects) /\
  exists h',
    mbind (enqueue_all 0 [1; 2]%nat) (fun _ => dequeue_n 0 2)
      empty_list_two_objects
      = Ok ([Some 1; Some 2]%nat, h') /\
    is_list h' 0 [].
Proof.
  apply (List_fifo empty_list_two_objects 0%nat [1; 2]%nat).
  - split; [apply NoDup_singleton|split; reflexivity].
  - apply (bool_decide_unpack _). by vm_compute.
  - repeat constructor.
Defined.

Lemma enqueue_linked_witness :
  exists h', enqueue 0 1 list_of_two = Ok (tt, h') /\ is_list h' 0 [2; 1]%nat.
Proof.
  apply (enqueue_linked list_of_two 0%nat [] 1%nat [2]%nat).
  split.
  - apply (bool_decide_unpack _). by vm_compute.
  - repeat split.
Defined.
End ListWitnesses.

(** ** [partition] *)

Section PartitionFacts.
Import UtilGraph.
Context {A : Type}.

Lemma partition_fold (fn : A -> bool) (collection l r : list A) :
  fold_left (fun result value =>
               if fn value
               then mkPartition (lhs result ++ [value]) (rhs result)
               else mkPartition (lhs result) (rhs result ++ [value]))
            collection (mkPartition l r)
  = mkPartition (l ++ List.filter fn collection)
                (r ++ List.filter (fun x => negb (fn x)) collection).
Proof.
  revert l r. induction collection as [|x xs IH]; intros l r; simpl.
  - by rewrite !app_nil_r.
  - destruct (fn x); simpl; rewrite IH; simpl; by rewrite <- app_assoc.
Qed.

(** X6. [partition] puts into [lhs] the entries for which [fn] holds and into
    [rhs] the others, each group in the order of the collection; no entry
    is lost or repeated. *)
Theorem partition_filter (collection : list A) (fn : A -> bool) :
  lhs (partition collection fn) = List.filter fn collection /\
  rhs (partition collection fn) = List.filter (fun x => negb (fn x)) collection /\
  lhs (partition collection fn) ++ rhs (partition collection fn)
    ≡ₚ collection.
Proof.
  unfold partition. rewrite partition_fold. simpl. split; [done|]. split; [done|].
  induction collection as [|x xs IH]; simpl; [done|].
  destruct (fn x); simpl.
  - by rewrite IH.
  - rewrite <- Permutation_middle. by rewrite IH.
Qed.
End PartitionFacts.

(** ** [canonicalize] *)

Section CanonicalizeFacts.
Import Passes.

Lemma lower_ascii_idemp (c : ascii) : lower_ascii (lower_ascii c) = lower_ascii c.
Proof. destruct c as [[] [] [] [] [] [] [] []]; reflexivity. Qed.

Lemma toLowerCase_idemp (s : string) : toLowerCase (toLowerCase s) = toLowerCase s.
Proof. induction s as [|c s IH]; simpl; [done|]. by rewrite lower_ascii_idemp, IH. Qed.

Lemma assoc_get_app {K V} `{EqDecision K} (k : K) (l1 l2 : list (K * V)) :
  assoc_get k (l1 ++ l2)
  = match assoc_get k l1 with
    | Some x => Some x
    | None => assoc_get k l2
    end.
Proof.
  induction l1 as [|[k' y] l1 IH]; simpl; [done|]. by destruct (decide (k = k')).
Qed.

Lemma fold_assoc_set_get {K V} `{EqDecision K} (k : K) (entries acc : list (K * V)) :
  assoc_get k (fold_left (fun o kv => assoc_set kv.1 kv.2 o) entries acc)
  = match assoc_get k (reverse entries) with
    | Some x => Some x
    | None => assoc_get k acc
    end.
Proof.
  revert acc. induction entries as [|[k' y] es IH]; intros acc; simpl; [done|].
  rewrite IH, reverse_cons, assoc_get_app. simpl.
  destruct (assoc_get k (reverse es)); [done|].
  destruct (decide (k = k')) as [->|Hne].
  - by rewrite assoc_get_set_eq.
  - by rewrite assoc_get_set_ne.
Qed.

Lemma fold_assoc_set_NoDup {K V} `{EqDecision K} (entries acc : list (K * V)) :
  NoDup acc.*1 ->
  NoDup (fold_left (fun o kv => assoc_set kv.1 kv.2 o) entries acc).*1.
Proof.
  revert acc. induction entries as [|[k y] es IH]; intros acc Hnd; simpl; [done|].
  by apply IH, assoc_set_NoDup.
Qed.

Lemma fold_assoc_set_keys {K V} `{EqDecision K} (k : K) (entries acc : list (K * V)) :
  k ∈ (fold_left (fun o kv => assoc_set kv.1 kv.2 o) entries acc).*1 <->
  k ∈ entries.*1 \/ k ∈ acc.*1.
Proof.
  revert acc. induction entries as [|[k' y] es IH]; intros acc; simpl.
  - rewrite elem_of_nil. tauto.
  - rewrite IH, assoc_set_keys_elem, elem_of_cons. tauto.
Qed.

Lemma fromEntries_get {K V} `{EqDecision K} (k : K) (entries : list (K * V)) :
  assoc_get k (fromEntries entries) = assoc_get k (reverse entries).
Proof. unfold fromEntries. rewrite fold_assoc_set_get. by destruct (assoc_get _ _). Qed.

Lemma fromEntries_NoDup {K V} `{EqDecision K} (entries : list (K * V)) :
  NoDup (fromEntries entries).*1.
Proof. apply fold_assoc_set_NoDup. constructor. Qed.

Lemma fromEntries_keys {K V} `{EqDecision K} (k : K) (entries : list (K * V)) :
  k ∈ (fromEntries entries).*1 <-> k ∈ entries.*1.
Proof.
  unfold fromEntries. rewrite fold_assoc_set_keys. simpl. rewrite elem_of_nil. tauto.
Qed.

Lemma fromEntries_copy {K V} `{EqDecision K} (entries : list (K * V)) :
  NoDup entries.*1 -> fromEntries entries = entries.
Proof. intros Hnd. unfold fromEntries. by rewrite fold_assoc_set_copy. Qed.

Lemma canonicalize_keys_lower {T} (attrs : list (string * T)) (k : string) :
  k ∈ (canonicalize attrs).*1 -> toLowerCase k = k.
Proof.
  unfold canonicalize. rewrite fromEntries_keys.
  intros ([k' y] & -> & ([k0 z] & [= -> ->] & _)%list_elem_of_fmap)%list_elem_of_fmap.
  simpl. apply toLowerCase_idemp.
Qed.

(** X7. The object that [canonicalize] returns has lower-case keys, and under a
    key it holds the value of the last entry of [attrs] whose key is that
    key up to the case of its letters. *)
Theorem canonicalize_lookup {T} (attrs : list (string * T)) :
  NoDup (canonicalize attrs).*1 /\
  (forall k, k ∈ (canonicalize attrs).*1 <->
             exists k0, k0 ∈ attrs.*1 /\ k = toLowerCase k0) /\
  (forall k, assoc_get k (canonicalize attrs)
             = assoc_get k (reverse (prod_map toLowerCase id <$> attrs))).
Proof.
  split; [apply fromEntries_NoDup|]. split.
  - intros k. unfold canonicalize. rewrite fromEntries_keys. split.
    + intros ([k' y] & -> & ([k0 z] & [= -> ->] & Hin)%list_elem_of_fmap)%list_elem_of_fmap.
      exists k0. split; [|done]. apply list_elem_of_fmap. by exists (k0, z).
    + intros (k0 & ([k1 y] & -> & Hin)%list_elem_of_fmap & ->).
      apply list_elem_of_fmap. exists (toLowerCase k1, y). split; [done|].
      apply list_elem_of_fmap. by exists (k1, y).
  - intros k. unfold canonicalize. rewrite fromEntries_get.
    do 2 f_equal. apply list_fmap_ext. by intros _ [k0 y] _.
Qed.

(** X8. [canonicalize] changes nothing in an object that it has returned. *)
Theorem canonicalize_idempotent {T} (attrs : list (string * T)) :
  canonicalize (canonicalize attrs) = canonicalize attrs.
Proof.
  pose proof (canonicalize_keys_lower attrs) as Hk.
  pose proof (fromEntries_NoDup
                ((fun '(key, value) => (toLowerCase key, value)) <$> attrs)) as Hnd.
  fold (canonicalize attrs) in Hnd.
  set (c := canonicalize attrs) in *. unfold canonicalize at 1.
  assert (E : (fun '(key, value) => (toLowerCase key, value)) <$> c = c).
  { clear Hnd. induction c as [|[k y] c IH]; [done|].
    rewrite fmap_cons. f_equal.
    - rewrite Hk; [done|]. simpl. apply list_elem_of_here.
    - apply IH. intros k' Hin. apply Hk. simpl. by apply list_elem_of_further. }
  rewrite E. by apply fromEntries_copy.
Qed.
End CanonicalizeFacts.

(** ** [intersectRect]: the direction of the returned point *)

Section IntersectRectRay.
Import Util.
Local Open Scope Q_scope.

(** The point that [intersectRect] returns for a rectangle of positive
    size: it is on the ray from the centre through [p] and on the
    boundary. *)
Lemma intersectRect_Ok_spec (rect : Rect) (p q : Point) :
  0 < width rect -> 0 < height rect ->
  intersectRect rect p = Ok q ->
  exists t, 0 < t /\
    px q - x rect == t * (px p - x rect) /\
    py q - y rect == t * (py p - y rect) /\
    Qabs (px q - x rect) <= width rect / 2 /\
    Qabs (py q - y rect) <= height rect / 2 /\
    (Qabs (px q - x rect) == width rect / 2 \/
     Qabs (py q - y rect) == height rect / 2).
Proof.
  intros Hw Hh.
  assert (Hw2 : 0 < width rect / 2) by (apply Qhalf_pos, Hw).
  assert (Hh2 : 0 < height rect / 2) by (apply Qhalf_pos, Hh).
  unfold intersectRect.
  set (dx := px p - x rect). set (dy := py p - y rect).
  set (w := width rect / 2) in *. set (h := height rect / 2) in *.
  destruct (is_zero dx && is_zero dy) eqn:Hz; [discriminate|].
  assert (Hd : ~ (dx == 0 /\ dy == 0)).
  { intros [H1 H2]. apply is_zero_eq in H1, H2. rewrite H1, H2 in Hz.
    discriminate Hz. }
  clear Hz.
  destruct (Qltb (Qabs dx * h) (Qabs dy * w)) eqn:Hc.
  - apply Qltb_lt in Hc.
    assert (Hdy : ~ dy == 0).
    { intros E. assert (E0 : Qabs dy == 0) by (rewrite E; reflexivity).
      pose proof (Qabs_nonneg dx). rewrite E0 in Hc. nra. }
    set (hs := if Qltb dy 0 then - h else h).
    intros [= <-]. cbn [px py].
    assert (Ht : 0 < hs / dy).
    { unfold hs. destruct (Qltb dy 0) eqn:Hs.
      - apply Qltb_lt in Hs.
        assert (E : - h / dy == h / - dy) by (field; exact Hdy).
        rewrite E. apply Qlt_shift_div_l; lra.
      - apply Qltb_ge in Hs. apply Qlt_shift_div_l; [|lra].
        destruct (Qle_lt_or_eq _ _ Hs) as [?|E]; [done|]. by destruct Hdy. }
    exists (hs / dy).
    assert (Ex : x rect + hs * dx / dy - x rect == hs / dy * dx)
      by (field; exact Hdy).
    assert (Ey : y rect + hs - y rect == hs / dy * dy) by (field; exact Hdy).
    assert (Ey' : y rect + hs - y rect == hs) by ring.
    split; [exact Ht|]. split; [exact Ex|]. split; [exact Ey|].
    assert (Hhs : Qabs hs == h).
    { unfold hs. destruct (Qltb dy 0); [rewrite Qabs_opp|]; apply Qabs_pos; lra. }
    rewrite Ey', Hhs.
    split; [|split; [lra|by right]].
    rewrite Ex.
    pose proof (Qdiv_mul_cancel hs dy Hdy) as Hsx.
    set (t := hs / dy) in *.
    apply Qabs_Qle_condition.
    unfold hs in Hsx.
    destruct (Qltb dy 0) eqn:Hs.
    + apply Qltb_lt in Hs.
      destruct (Qabs_cases dx) as [[? Ea]|[? Ea]];
        rewrite Ea in Hc; rewrite (Qabs_neg dy) in Hc by lra; split; nra.
    + apply Qltb_ge in Hs.
      destruct (Qabs_cases dx) as [[? Ea]|[? Ea]];
        rewrite Ea in Hc; rewrite (Qabs_pos dy) in Hc by lra; split; nra.
  - apply Qltb_ge in Hc.
    assert (Hdx : ~ dx == 0).
    { intros E. apply Hd. split; [exact E|].
      assert (E0 : Qabs dx == 0) by (rewrite E; reflexivity).
      rewrite E0 in Hc.
      destruct (Qabs_cases dy) as [[? Ey]|[? Ey]]; rewrite Ey in Hc; nra. }
    set (ws := if Qltb dx 0 then - w else w).
    intros [= <-]. cbn [px py].
    assert (Ht : 0 < ws / dx).
    { unfold ws. destruct (Qltb dx 0) eqn:Hs.
      - apply Qltb_lt in Hs.
        assert (E : - w / dx == w / - dx) by (field; exact Hdx).
        rewrite E. apply Qlt_shift_div_l; lra.
      - apply Qltb_ge in Hs. apply Qlt_shift_div_l; [|lra].
        destruct (Qle_lt_or_eq _ _ Hs) as [?|E]; [done|]. by destruct Hdx. }
    exists (ws / dx).
    assert (Ex : x rect + ws - x rect == ws / dx * dx) by (field; exact Hdx).
    assert (Ex' : x rect + ws - x rect == ws) by ring.
    assert (Ey : y rect + ws * dy / dx - y rect == ws / dx * dy)
      by (field; exact Hdx).
    split; [exact Ht|]. split; [exact Ex|]. split; [exact Ey|].
    assert (Hws : Qabs ws == w).
    { unfold ws. destruct (Qltb dx 0); [rewrite Qabs_opp|]; apply Qabs_pos; lra. }
    rewrite Ex', Hws.
    split; [lra|]. split; [|by left].
    rewrite Ey.
    pose proof (Qdiv_mul_cancel ws dx Hdx) as Hsy.
    set (t := ws / dx) in *.
    apply Qabs_Qle_condition.
    unfold ws in Hsy.
    destruct (Qltb dx 0) eqn:Hs.
    + apply Qltb_lt in Hs.
      destruct (Qabs_cases dy) as [[? Ea]|[? Ea]];
        rewrite Ea in Hc; rewrite (Qabs_neg dx) in Hc by lra; split; nra.
    + apply Qltb_ge in Hs.
      destruct (Qabs_cases dy) as [[? Ea]|[? Ea]];
        rewrite Ea in Hc; rewrite (Qabs_pos dx) in Hc by lra; split; nra.
Qed.

(** X9. For a rectangle of positive size, the point that [intersectRect]
    returns lies on the ray from the centre of the rectangle through the
    given point: its offset from the centre is a positive multiple of the
    offset of the point. *)
Theorem intersectRect_on_ray (rect : Rect) (p q : Point) :
  0 < width rect -> 0 < height rect ->
  intersectRect rect p = Ok q ->
  exists t, 0 < t /\
    px q - x rect == t * (px p - x rect) /\
    py q - y rect == t * (py p - y rect).
Proof.
  intros Hw Hh E.
  destruct (intersectRect_Ok_spec rect p q Hw Hh E) as (t & Ht & Hx & Hy & _).
  by exists t.
Qed.

Lemma intersectRect_on_ray_witness :
  exists t, 0 < t /\
    (0 + 4 / 2) - 0 == t * (10 - 0) /\
    (0 + 4 / 2 * (1 - 0) / (10 - 0)) - 0 == t * (1 - 0).
Proof.
  exact (intersectRect_on_ray (mkRect 0 0 4 2) (mkPoint 10 1)
           (mkPoint (0 + 4 / 2) (0 + 4 / 2 * (1 - 0) / (10 - 0)))
           eq_refl eq_refl eq_refl).
Defined.
End IntersectRectRay.

(** ** The functions on ranks *)

Section MinFacts.
Local Open Scope Q_scope.

Lemma lodash_min_fold (array : list (option Q)) (computed : option Q) :
  let m := fold_left (fun computed current =>
               match current, computed with
               | Some a, Some b => if Qltb a b then Some a else Some b
               | Some a, None => Some a
               | None, _ => computed
               end) array computed in
  (m = None -> computed = None /\ forall x, x ∈ array -> x = None) /\
  (forall a, m = Some a ->
     (computed = Some a \/ Some a ∈ array) /\
     (forall b, computed = Some b -> a <= b) /\
     (forall b, Some b ∈ array -> a <= b)).
Proof.
  revert computed. induction array as [|x xs IH]; intros computed; simpl.
  - split.
    + intros ->. split; [done|]. by intros x Hx%elem_of_nil.
    + intros a ->. split; [by left|]. split.
      * intros b [= ->]. lra.
      * by intros b Hb%elem_of_nil.
  - match goal with |- context [fold_left _ xs ?c] => specialize (IH c) end.
    simpl in IH. destruct IH as [IHn IHs]. split.
    + intros E. destruct (IHn E) as [Hc Hxs].
      destruct x as [a|], computed as [b|]; try done.
      * by destruct (Qltb a b).
      * split; [done|]. intros x [->|Hx]%elem_of_cons; [done|by apply Hxs].
    + intros m E. destruct (IHs m E) as (Hin & Hle & Hall).
      destruct x as [a|].
      * destruct computed as [b|].
        -- destruct (Qltb a b) eqn:Hab.
           ++ apply Qltb_lt in Hab. split.
              { right. destruct Hin as [[= ->]|Hin];
                  [apply list_elem_of_here|by apply list_elem_of_further]. }
              split.
              { intros b' [= ->]. specialize (Hle a eq_refl). lra. }
              intros b' [[= ->]|Hb]%elem_of_cons; [by apply Hle|by apply Hall].
           ++ apply Qltb_ge in Hab. split.
              { destruct Hin as [Hin|Hin]; [by left|].
                right. by apply list_elem_of_further. }
              split.
              { intros b' [= ->]. by apply Hle. }
              intros b' [[= ->]|Hb]%elem_of_cons; [|by apply Hall].
              specialize (Hle b eq_refl). lra.
        -- split.
           { right. destruct Hin as [[= ->]|Hin];
               [apply list_elem_of_here|by apply list_elem_of_further]. }
           split; [done|].
           intros b' [[= ->]|Hb]%elem_of_cons; [by apply Hle|by apply Hall].
      * split.
        { destruct Hin as [Hin|Hin]; [by left|]. right.
          by apply list_elem_of_further. }
        split; [exact Hle|].
        intros b' [?|Hb]%elem_of_cons; [done|by apply Hall].
Qed.

Lemma lodash_min_None (array : list (option Q)) :
  lodash_min array = None -> forall x, x ∈ array -> x = None.
Proof. intros E. by destruct (lodash_min_fold array None) as [[_ H] _]. Qed.

Lemma lodash_min_Some (array : list (option Q)) (m : Q) :
  lodash_min array = Some m ->
  Some m ∈ array /\ forall b, Some b ∈ array -> m <= b.
Proof.
  intros E. destruct (lodash_min_fold array None) as [_ H].
  destruct (H m E) as ([?|Hin] & _ & Hall); [done|]. by split.
Qed.
End MinFacts.

Section RankFacts.
Import Graphlib Ranks.
Local Open Scope Q_scope.
Context {GL EL : Type}.
Implicit Types g : Graph GL RankedNode EL.

Lemma elem_of_ranks g (r : option Q) :
  r ∈ ranks g <-> exists v node, (v, node) ∈ node_entries g /\ rank node = r.
Proof.
  unfold ranks. rewrite list_elem_of_fmap. split.
  - intros ([v node] & -> & Hin). by exists v, node.
  - intros (v & node & Hin & <-). by exists (v, node).
Qed.

Lemma maxRank_fold (entries : list (NodeId * RankedNode)) (max : Q) :
  let m := fold_left (fun max vl =>
               match rank vl.2 with
               | Some rank => if Qltb max rank then rank else max
               | None => max
               end) entries max in
  max <= m /\
  (forall v node r, (v, node) ∈ entries -> rank node = Some r -> r <= m) /\
  (m = max \/ exists v node, (v, node) ∈ entries /\ rank node = Some m).
Proof.
  revert max. induction entries as [|[v node] es IH]; intros max; simpl.
  - split; [lra|]. split; [|by left]. by intros v node r Hin%elem_of_nil.
  - match goal with |- context [fold_left _ es ?c] => specialize (IH c) end.
    simpl in IH. destruct IH as (Hle & Hall & Hat).
    destruct (rank node) as [r|] eqn:Er.
    + destruct (Qltb max r) eqn:Hc.
      * apply Qltb_lt in Hc. split; [lra|]. split.
        -- intros v' node' r' [[= -> ->]|Hin]%elem_of_cons Hr.
           ++ rewrite Er in Hr. injection Hr as <-. exact Hle.
           ++ by apply (Hall v' node').
        -- right. destruct Hat as [->|(v' & node' & Hin & Hr)].
           ++ exists v, node. split; [apply list_elem_of_here|done].
           ++ exists v', node'. split; [by apply list_elem_of_further|done].
      * apply Qltb_ge in Hc. split; [done|]. split.
        -- intros v' node' r' [[= -> ->]|Hin]%elem_of_cons Hr.
           ++ rewrite Er in Hr. injection Hr as <-. lra.
           ++ by apply (Hall v' node').
        -- destruct Hat as [->|(v' & node' & Hin & Hr)]; [by left|].
           right. exists v', node'. split; [by apply list_elem_of_further|done].
    + split; [done|]. split.
      * intros v' node' r' [[= -> ->]|Hin]%elem_of_cons Hr.
        -- congruence.
        -- by apply (Hall v' node').
      * destruct Hat as [->|(v' & node' & Hin & Hr)]; [by left|].
        right. exists v', node'. split; [by apply list_elem_of_further|done].
Qed.

(** X10. [maxRank] is the greatest rank of a node, or 0 when no rank is
    greater: it is never negative, no rank exceeds it, and it is 0 or the
    rank of a node. *)
Theorem maxRank_spec g :
  0 <= maxRank g /\
  (forall v node r, (v, node) ∈ node_entries g -> rank node = Some r ->
                    r <= maxRank g) /\
  (maxRank g = 0 \/
   exists v node, (v, node) ∈ node_entries g /\ rank node = Some (maxRank g)).
Proof. apply (maxRank_fold (node_entries g) 0). Qed.

Lemma normalize_node_Some (min r : Q) (node : RankedNode) :
  rank node = Some r ->
  normalize_node (Some min) node = mkRankedNode (Some (r - min)) (order node).
Proof. unfold normalize_node. by intros ->. Qed.

Lemma normalize_node_None (min : option Q) (node : RankedNode) :
  rank node = None -> normalize_node min node = node.
Proof. unfold normalize_node. by intros ->. Qed.

Lemma elem_of_normalized g (v : NodeId) (node' : RankedNode) :
  (v, node') ∈ node_entries (normalizeRanks g) <->
  exists node, (v, node) ∈ node_entries g /\
               node' = normalize_node (lodash_min (ranks g)) node.
Proof.
  unfold normalizeRanks, map_ranked. simpl. rewrite list_elem_of_fmap. split.
  - intros ([v0 node] & [= -> ->] & Hin). by exists node.
  - intros (node & Hin & ->). by exists (v, node).
Qed.

(** What [normalizeRanks] does to a node that has a rank. *)
Lemma normalized_rank g (v : NodeId) (node : RankedNode) (r : Q) :
  (v, node) ∈ node_entries g -> rank node = Some r ->
  exists min, lodash_min (ranks g) = Some min /\ min <= r /\
    normalize_node (lodash_min (ranks g)) node
    = mkRankedNode (Some (r - min)) (order node).
Proof.
  intros Hin Hr.
  destruct (lodash_min (ranks g)) as [min|] eqn:Em.
  - exists min. split; [done|]. apply lodash_min_Some in Em as [_ Hall].
    split; [|by apply normalize_node_Some].
    apply Hall, elem_of_ranks. by exists v, node.
  - pose proof (lodash_min_None _ Em (Some r)) as H.
    discriminate H. apply elem_of_ranks. by exists v, node.
Qed.

(** X11. [normalizeRanks] subtracts the least rank from the rank of every node
    that has one: afterwards no rank is negative, some rank is 0 when a
    node had a rank, the difference of two ranks is what it was, and
    nothing else has changed. *)
Theorem normalizeRanks_spec g :
  graph (normalizeRanks g) = graph g /\
  edge_entries (normalizeRanks g) = edge_entries g /\
  parent_entries (normalizeRanks g) = parent_entries g /\
  (forall v node r, (v, node) ∈ node_entries (normalizeRanks g) ->
                    rank node = Some r -> 0 <= r) /\
  ((exists v node, (v, node) ∈ node_entries g /\ is_Some (rank node)) ->
   exists v node r, (v, node) ∈ node_entries (normalizeRanks g) /\
                    rank node = Some r /\ r == 0) /\
  exists min,
    Forall2 (fun vl vl' =>
               vl'.1 = vl.1 /\ order vl'.2 = order vl.2 /\
               match rank vl.2, rank vl'.2 with
               | Some r, Some r' => r' == r - min
               | None, None => True
               | _, _ => False
               end)
            (node_entries g) (node_entries (normalizeRanks g)).
Proof.
  split; [done|]. split; [done|]. split; [done|]. split; [|split].
  - intros v node' r' (node & Hin & ->)%elem_of_normalized Hr.
    destruct (rank node) as [r|] eqn:Er.
    + destruct (normalized_rank g v node r Hin Er) as (min & _ & Hle & E).
      rewrite E in Hr. simpl in Hr. injection Hr as <-. lra.
    + rewrite normalize_node_None in Hr by done. congruence.
  - intros (v & node & Hin & [r Hr]).
    destruct (normalized_rank g v node r Hin Hr) as (min & Em & _ & _).
    pose proof (lodash_min_Some _ _ Em) as [(v0 & node0 & Hin0 & Hr0)%elem_of_ranks _].
    exists v0, (normalize_node (lodash_min (ranks g)) node0), (min - min).
    split; [apply elem_of_normalized; by exists node0|].
    split; [|lra]. rewrite Em. by rewrite (normalize_node_Some min min).
  - exists (default 0 (lodash_min (ranks g))).
    unfold normalizeRanks, map_ranked. simpl.
    assert (H : forall vl, vl ∈ node_entries g ->
                forall r, rank vl.2 = Some r -> is_Some (lodash_min (ranks g))).
    { intros [v node] Hin r Hr.
      destruct (normalized_rank g v node r Hin Hr) as (min & -> & _). eauto. }
    revert H. generalize (lodash_min (ranks g)) as m.
    induction (node_entries g) as [|[v node] es IH]; intros m H; simpl;
      constructor.
    + simpl. split; [done|].
      destruct (rank node) as [r|] eqn:Er.
      * destruct (H (v, node) (list_elem_of_here _ _) r Er) as [min ->].
        rewrite (normalize_node_Some min r) by done. simpl. split; [done|lra].
      * rewrite normalize_node_None by done. by rewrite Er.
    + apply IH. intros vl Hin. apply H. by apply list_elem_of_further.
Qed.

(** X12. After [normalizeRanks], [maxRank] is the span of the ranks: the
    greatest rank less the least one. *)
Theorem maxRank_normalizeRanks g (v : NodeId) (node : RankedNode) (r : Q) :
  (v, node) ∈ node_entries g -> rank node = Some r ->
  (forall v' node' r', (v', node') ∈ node_entries g -> rank node' = Some r' ->
                       r' <= r) ->
  exists min, lodash_min (ranks g) = Some min /\
              maxRank (normalizeRanks g) == r - min.
Proof.
  intros Hin Hr Hmax.
  destruct (normalized_rank g v node r Hin Hr) as (min & Em & Hle & E).
  exists min. split; [done|].
  destruct (maxRank_fold (node_entries (normalizeRanks g)) 0) as (H0 & Hall & Hat).
  fold (maxRank (normalizeRanks g)) in H0, Hall, Hat.
  apply Qle_antisym.
  - destruct Hat as [->|(v' & node' & (node0 & Hin0 & ->)%elem_of_normalized & Hr')];
      [lra|].
    destruct (rank node0) as [r0|] eqn:Er0.
    + destruct (normalized_rank g v' node0 r0 Hin0 Er0) as (min' & Em' & _ & E').
      rewrite E' in Hr'. simpl in Hr'. injection Hr' as Hr'. rewrite <- Hr'.
      assert (min' = min) as -> by congruence.
      specialize (Hmax v' node0 r0 Hin0 Er0). lra.
    + rewrite normalize_node_None in Hr' by done. congruence.
  - apply (Hall v (normalize_node (lodash_min (ranks g)) node)).
    + apply elem_of_normalized. by exists node.
    + by rewrite E.
Qed.

End RankFacts.

Lemma maxRank_normalizeRanks_witness :
  exists min, lodash_min (Ranks.ranks RankExamples.ranks_3_5) = Some min /\
              (Ranks.maxRank (Ranks.normalizeRanks RankExamples.ranks_3_5)
               == 5 - min)%Q.
Proof.
  apply (maxRank_normalizeRanks (GL:=Ranks.RankConfig) (EL:=unit)
           RankExamples.ranks_3_5 "b"%string (Ranks.mkRankedNode (Some 5%Q) (Some 0%Q)) 5%Q).
  - apply list_elem_of_further, list_elem_of_here.
  - reflexivity.
  - intros v' node' r' Hin Hr.
    repeat (apply elem_of_cons in Hin as [[= -> ->]|Hin]);
      simpl in Hr; try discriminate Hr;
      try (injection Hr as <-; by vm_compute).
    by apply elem_of_nil in Hin.
Defined.

(** ** [addDummyNode] and [addBorderNode] *)

Lemma append_inj (s a b : string) : s +:+ a = s +:+ b -> a = b.
Proof. induction s as [|c s IH]; simpl; [done|]. intros [= H]. by apply IH. Qed.

Section DummyFacts.
Import Graphlib UtilGraph.
Context {GL NL EL : Type} (set_dummy : string -> NL -> NL).
Implicit Types g : Graph GL NL EL.

Lemma nodeCount_nodes g : nodeCount g = length (nodes g).
Proof. unfold nodeCount, nodes. by rewrite length_fmap. Qed.

(** Among the next [nodeCount g + 1] identifiers one is not a node. *)
Lemma some_id_free g (name : string) (c : nat) :
  exists j, (j < S (nodeCount g))%nat /\ name +:+ pretty (S (c + j)) ∉ nodes g.
Proof.
  set (P := fun j : nat => name +:+ pretty (S (c + j)) ∈ nodes g).
  destruct (decide (Forall P (seq 0 (S (nodeCount g))))) as [Hall|Hex].
  - exfalso.
    assert (Hnd : NoDup ((fun j : nat => name +:+ pretty (S (c + j)))
                           <$> seq 0 (S (nodeCount g)))).
    { apply NoDup_fmap_2_strong; [|apply NoDup_seq].
      intros i j _ _ E%append_inj. apply (inj pretty) in E. lia. }
    apply NoDup_submseteq with (k := nodes g) in Hnd.
    + apply submseteq_length in Hnd.
      rewrite length_fmap, length_seq, <- nodeCount_nodes in Hnd. lia.
    + intros x (j & -> & Hj)%list_elem_of_fmap.
      rewrite Forall_forall in Hall. by apply Hall.
  - apply not_Forall_Exists in Hex; [|apply _].
    apply Exists_exists in Hex as (j & Hj & Hn).
    apply elem_of_seq in Hj. exists j. split; [lia|exact Hn].
Qed.

Lemma addDummyNode_loop_find (fuel : nat) g (name : string) (c : nat) :
  (exists j, (j < fuel)%nat /\ name +:+ pretty (S (c + j)) ∉ nodes g) ->
  exists j, (j < fuel)%nat /\
    addDummyNode_loop fuel g name c
      = Ok (name +:+ pretty (S (c + j)), S (c + j)) /\
    (name +:+ pretty (S (c + j)) ∉ nodes g) /\
    forall i, (i < j)%nat -> name +:+ pretty (S (c + i)) ∈ nodes g.
Proof.
  revert c. induction fuel as [|fuel IH]; intros c (j & Hj & Hfree); [lia|].
  simpl. unfold hasNode. case_bool_decide as Hin.
  - destruct j as [|j]; [by rewrite Nat.add_0_r in Hfree|].
    destruct (IH (S c)) as (j' & Hj' & E & Hfree' & Hbelow).
    { exists j. split; [lia|]. by replace (S c + j)%nat with (c + S j)%nat by lia. }
    exists (S j'). replace (c + S j')%nat with (S c + j')%nat by lia.
    split; [lia|]. split; [exact E|]. split; [exact Hfree'|].
    intros [|i] Hi; [by rewrite Nat.add_0_r|].
    replace (c + S i)%nat with (S c + i)%nat by lia. apply Hbelow. lia.
  - exists 0%nat. rewrite Nat.add_0_r. split; [lia|]. split; [done|].
    split; [done|]. intros i Hi. lia.
Qed.

(** What [addDummyNode] returns when its loop has fuel for one more turn
    than the graph has nodes. *)
Lemma addDummyNode_Ok (fuel : nat) g (type : string) (attrs : NL)
    (name : string) (idCounter : nat) :
  (nodeCount g < fuel)%nat ->
  exists v idCounter',
    addDummyNode set_dummy fuel g type attrs name idCounter
      = Ok (v, setNode g v (set_dummy type attrs), idCounter') /\
    v = name +:+ pretty idCounter' /\
    (v ∉ nodes g) /\
    (idCounter < idCounter' <= idCounter + nodeCount g + 1)%nat /\
    (forall i, (idCounter < i < idCounter')%nat -> name +:+ pretty i ∈ nodes g) /\
    nodes (setNode g v (set_dummy type attrs)) = nodes g ++ [v] /\
    node (setNode g v (set_dummy type attrs)) v = Some (set_dummy type attrs) /\
    (forall u, u <> v -> node (setNode g v (set_dummy type attrs)) u = node g u) /\
    edge_entries (setNode g v (set_dummy type attrs)) = edge_entries g.
Proof.
  intros Hfuel.
  destruct (some_id_free g name idCounter) as (j0 & Hj0 & Hfree0).
  destruct (addDummyNode_loop_find fuel g name idCounter)
    as (j & Hj & E & Hfree & Hbelow).
  { exists j0. split; [lia|done]. }
  assert (Hjn : (j <= nodeCount g)%nat).
  { destruct (decide (j <= nodeCount g)%nat) as [|Hgt]; [done|].
    exfalso. apply Hfree0, Hbelow. lia. }
  exists (name +:+ pretty (S (idCounter + j))), (S (idCounter + j)).
  unfold addDummyNode. rewrite E. simpl.
  split; [done|]. split; [done|]. split; [done|]. split; [lia|].
  split.
  { intros i Hi. replace i with (S (idCounter + (i - S idCounter)))%nat by lia.
    apply Hbelow. lia. }
  split.
  { unfold nodes, setNode. simpl. rewrite assoc_set_notin by done.
    by rewrite fmap_app. }
  split; [apply assoc_get_set_eq|]. split; [|done].
  intros u Hu. unfold node, setNode. simpl. by apply assoc_get_set_ne.
Qed.

(** X13. With fuel for one more turn than the graph has nodes, [addDummyNode]
    returns: the new node has an identifier that was not a node of the
    graph, made of the name and the value of the counter, and carries
    [attrs] with [dummy] set; the identifiers that were skipped are nodes of
    the graph; the nodes of the graph are then the old ones and the new one,
    and the labels of the old nodes, the edges, the parents and the label of
    the graph are as before. *)
Theorem addDummyNode_fresh (fuel : nat) g (type : string) (attrs : NL)
    (name : string) (idCounter : nat) :
  (nodeCount g < fuel)%nat ->
  exists v g' idCounter',
    addDummyNode set_dummy fuel g type attrs name idCounter
      = Ok (v, g', idCounter') /\
    v = name +:+ pretty idCounter' /\
    (v ∉ nodes g) /\
    (idCounter < idCounter' <= idCounter + nodeCount g + 1)%nat /\
    (forall i, (idCounter < i < idCounter')%nat -> name +:+ pretty i ∈ nodes g) /\
    (forall u, u ∈ nodes g' <-> u ∈ nodes g \/ u = v) /\
    nodeCount g' = S (nodeCount g) /\
    node g' v = Some (set_dummy type attrs) /\
    (forall u, u <> v -> node g' u = node g u) /\
    edge_entries g' = edge_entries g /\
    parent_entries g' = parent_entries g /\
    graph g' = graph g.
Proof.
  intros Hfuel.
  destruct (addDummyNode_Ok fuel g type attrs name idCounter Hfuel)
    as (v & c & E & Hv & Hfree & Hc & Hskip & Hnodes & Hl & Hu & He).
  exists v, (setNode g v (set_dummy type attrs)), c.
  split; [exact E|]. split; [exact Hv|]. split; [exact Hfree|].
  split; [exact Hc|]. split; [exact Hskip|].
  split.
  { intros u. by rewrite Hnodes, elem_of_app, list_elem_of_singleton. }
  split.
  { rewrite !nodeCount_nodes, Hnodes, length_app. simpl. lia. }
  done.
Qed.
End DummyFacts.

Lemma addDummyNode_fresh_witness :
  exists v g' idCounter',
    UtilGraph.addDummyNode UtilGraph.set_border_dummy 4 DummyExamples.taken_ids
      "border" (UtilGraph.mkBorderNode 0 0 None None None) "_bt" 0
    = Ok (v, g', idCounter') /\
    v = "_bt3"%string /\ idCounter' = 3%nat /\
    Graphlib.node g' v
    = Some (UtilGraph.mkBorderNode 0 0 None None (Some "border"%string)).
Proof.
  destruct (addDummyNode_fresh UtilGraph.set_border_dummy 4
              DummyExamples.taken_ids "border"
              (UtilGraph.mkBorderNode 0 0 None None None) "_bt" 0)
    as (v & g' & c & E & Hv & _ & _ & _ & _ & _ & Hl & _).
  - vm_compute. lia.
  - exists v, g', c. split; [exact E|].
    assert (E' := E). vm_compute in E'. injection E' as Ev _ Ec.
    split; [by rewrite <- Ev|]. split; [by rewrite <- Ec|exact Hl].
Defined.

Section BorderFacts.
Import Graphlib UtilGraph.
Local Open Scope Q_scope.
Context {GL EL : Type}.
Implicit Types g : Graph GL BorderNode EL.

End BorderFacts.


(** ** More on association lists and on loops *)

Section MoreAssocFacts.
Context {K V : Type} `{EqDecision K}.
Implicit Types (l : list (K * V)) (k : K) (x : V).

Lemma assoc_get_elem_NoDup k x l :
  NoDup l.*1 -> (k, x) ∈ l -> assoc_get k l = Some x.
Proof.
  induction l as [|[k' y] l IH]; simpl; intros Hnd Hin.
  - by apply elem_of_nil in Hin.
  - apply NoDup_cons in Hnd as [Hk Hnd].
    apply elem_of_cons in Hin as [[= -> ->]|Hin].
    + by rewrite decide_True.
    + rewrite decide_False; [by apply IH|].
      intros ->. apply Hk. apply list_elem_of_fmap. by exists (k', x).
Qed.

Lemma assoc_get_is_Some k l : is_Some (assoc_get k l) <-> k ∈ l.*1.
Proof.
  rewrite <- not_eq_None_Some, assoc_get_None.
  destruct (decide (k ∈ l.*1)); tauto.
Qed.

Lemma filter_keys_NoDup (P : K * V -> Prop) `{forall kv, Decision (P kv)} l :
  NoDup l.*1 -> NoDup (filter P l).*1.
Proof.
  intros Hnd. eapply sublist_NoDup; [exact Hnd|].
  apply fmap_sublist, sublist_filter.
Qed.

Lemma assoc_get_fmap {W} (f : V -> W) k l :
  assoc_get k (prod_map id f <$> l) = f <$> assoc_get k l.
Proof.
  induction l as [|[k' y] l IH]; simpl; [done|].
  by destruct (decide (k = k')).
Qed.
End MoreAssocFacts.

Lemma filter_fmap {A B} (f : A -> B) (P : B -> Prop) `{forall b, Decision (P b)}
    (l : list A) :
  filter P (f <$> l) = f <$> filter (fun a => P (f a)) l.
Proof.
  induction l as [|a l IH]; [done|].
  rewrite fmap_cons, !filter_cons. destruct (decide (P (f a))); simpl; by rewrite IH.
Qed.

Lemma map_result_Ok {A B} (f : A -> result B) (h : A -> B) (xs : list A) :
  (forall x, x ∈ xs -> f x = Ok (h x)) -> map_result f xs = Ok (h <$> xs).
Proof.
  induction xs as [|x xs IH]; intros Hf; simpl; [done|].
  rewrite Hf by apply list_elem_of_here. simpl.
  rewrite IH; [done|]. intros y Hy. by apply Hf, list_elem_of_further.
Qed.

Lemma zipObject_fmap {K V} `{EqDecision K} (h : K -> V) (props : list K) :
  NoDup props -> zipObject props (h <$> props) = (fun k => (k, h k)) <$> props.
Proof.
  intros Hnd. unfold zipObject.
  assert (E : zip props (h <$> props) = (fun k => (k, h k)) <$> props).
  { clear Hnd. induction props as [|k ks IH]; [done|].
    rewrite !fmap_cons. simpl. f_equal. exact IH. }
  rewrite E. apply fromEntries_copy.
  rewrite <- list_fmap_compose. simpl.
  replace (fst ∘ (fun k => (k, h k))) with (@id K) by done. by rewrite list_fmap_id.
Qed.

Lemma assoc_get_graph_of {K V} `{EqDecision K} (h : K -> V) (k : K) (ks : list K) :
  assoc_get k ((fun k => (k, h k)) <$> ks) = if decide (k ∈ ks) then Some (h k) else None.
Proof.
  induction ks as [|k' ks IH].
  - case_decide as Hin; [by apply elem_of_nil in Hin|done].
  - rewrite fmap_cons. cbn [assoc_get]. destruct (decide (k = k')) as [->|Hne].
    + rewrite decide_True; [done|]. apply list_elem_of_here.
    + rewrite IH. destruct (decide (k ∈ ks)) as [Hin|Hin].
      * rewrite decide_True; [done|]. by apply list_elem_of_further.
      * rewrite decide_False; [done|]. intros [?|?]%elem_of_cons; done.
Qed.

(** ** [asNonCompoundGraph] *)

Section SetEdgeFacts.
Import Graphlib.
Context {GL NL EL : Type} (d : NL).
Implicit Types s : Graph GL NL EL.

Lemma elem_of_nodes_ensureNode s v u :
  u ∈ nodes (ensureNode d s v) <-> u ∈ nodes s \/ u = v.
Proof.
  unfold ensureNode, hasNode. case_bool_decide as Hin.
  - split; [by left|]. by intros [?| ->].
  - unfold nodes, setNode. simpl. rewrite assoc_set_keys_elem. tauto.
Qed.

Lemma NoDup_nodes_ensureNode s v :
  NoDup (nodes s) -> NoDup (nodes (ensureNode d s v)).
Proof.
  unfold ensureNode, hasNode. case_bool_decide; [done|].
  unfold nodes, setNode. simpl. apply assoc_set_NoDup.
Qed.

Lemma node_ensureNode_old s v u :
  u ∈ nodes s -> node (ensureNode d s v) u = node s u.
Proof.
  intros Hu. unfold ensureNode, hasNode. case_bool_decide as Hin; [done|].
  unfold node, setNode. simpl. apply assoc_get_set_ne. by intros ->.
Qed.

Lemma node_ensureNode_new s v u :
  u ∈ nodes (ensureNode d s v) -> u ∉ nodes s -> node (ensureNode d s v) u = Some d.
Proof.
  intros Hin Hu. apply elem_of_nodes_ensureNode in Hin as [?| ->]; [done|].
  unfold ensureNode, hasNode. rewrite bool_decide_eq_false_2 by done.
  apply assoc_get_set_eq.
Qed.

Lemma setEdge_fields s e l :
  graph (setEdge d s e l) = graph s /\
  parent_entries (setEdge d s e l) = parent_entries s /\
  edge_entries (setEdge d s e l) = assoc_set e l (edge_entries s) /\
  nodes (setEdge d s e l)
  = nodes (ensureNode d (ensureNode d s (e_v e)) (e_w e)) /\
  forall u, node (setEdge d s e l) u
            = node (ensureNode d (ensureNode d s (e_v e)) (e_w e)) u.
Proof.
  unfold setEdge. simpl.
  assert (F : forall s v, graph (ensureNode d s v) = graph s /\
                          parent_entries (ensureNode d s v) = parent_entries s /\
                          edge_entries (ensureNode d s v) = edge_entries s).
  { intros s' v. unfold ensureNode. by destruct (hasNode s' v). }
  destruct (F s (e_v e)) as (F1 & F2 & F3).
  destruct (F (ensureNode d s (e_v e)) (e_w e)) as (G1 & G2 & G3).
  split; [congruence|]. split; [congruence|]. split; [congruence|]. done.
Qed.

Lemma elem_of_nodes_setEdge s e l u :
  u ∈ nodes (setEdge d s e l) <-> u ∈ nodes s \/ e_v e = u \/ e_w e = u.
Proof.
  destruct (setEdge_fields s e l) as (_ & _ & _ & -> & _).
  rewrite !elem_of_nodes_ensureNode. intuition congruence.
Qed.

Lemma NoDup_nodes_setEdge s e l :
  NoDup (nodes s) -> NoDup (nodes (setEdge d s e l)).
Proof.
  intros Hnd. destruct (setEdge_fields s e l) as (_ & _ & _ & -> & _).
  by do 2 apply NoDup_nodes_ensureNode.
Qed.

Lemma node_setEdge_old s e l u :
  u ∈ nodes s -> node (setEdge d s e l) u = node s u.
Proof.
  intros Hu. destruct (setEdge_fields s e l) as (_ & _ & _ & _ & ->).
  rewrite node_ensureNode_old; [by apply node_ensureNode_old|].
  apply elem_of_nodes_ensureNode. by left.
Qed.

Lemma node_setEdge_new s e l u :
  u ∈ nodes (setEdge d s e l) -> u ∉ nodes s -> node (setEdge d s e l) u = Some d.
Proof.
  intros Hin Hu. destruct (setEdge_fields s e l) as (_ & _ & _ & En & ->).
  rewrite En in Hin.
  destruct (decide (u ∈ nodes (ensureNode d s (e_v e)))) as [H1|H1].
  - rewrite node_ensureNode_old by done. by apply node_ensureNode_new.
  - by apply node_ensureNode_new.
Qed.

Lemma fold_setEdge_spec (es : list (Edge * EL)) s0 :
  NoDup (nodes s0) ->
  let s := fold_left (fun s el => setEdge d s el.1 el.2) es s0 in
  graph s = graph s0 /\ parent_entries s = parent_entries s0 /\
  edge_entries s
  = fold_left (fun o kv => assoc_set kv.1 kv.2 o) es (edge_entries s0) /\
  NoDup (nodes s) /\
  (forall u, u ∈ nodes s <->
             u ∈ nodes s0 \/ exists el, el ∈ es /\ (e_v el.1 = u \/ e_w el.1 = u)) /\
  (forall u, u ∈ nodes s0 -> node s u = node s0 u) /\
  (forall u, u ∈ nodes s -> u ∉ nodes s0 -> node s u = Some d).
Proof.
  revert s0. induction es as [|[e l] es IH]; intros s0 Hnd; simpl.
  - split_and!; try done.
    intros u. split; [by left|]. intros [?|(el & Hin & _)]; [done|].
    by apply elem_of_nil in Hin.
  - destruct (IH (setEdge d s0 e l) (NoDup_nodes_setEdge s0 e l Hnd))
      as (Hg & Hp & He & Hnd' & Hk & Hold & Hnew).
    destruct (setEdge_fields s0 e l) as (Fg & Fp & Fe & _).
    split; [congruence|]. split; [congruence|]. split; [by rewrite He, Fe|].
    split; [done|]. split; [|split].
    + intros u. rewrite Hk, elem_of_nodes_setEdge. split.
      * intros [[?|Hend]|(el & Hin & Hend)].
        -- by left.
        -- right. exists (e, l). split; [apply list_elem_of_here|done].
        -- right. exists el. split; [by apply list_elem_of_further|done].
      * intros [?|(el & [->|Hin]%elem_of_cons & Hend)].
        -- left. by left.
        -- left. by right.
        -- right. by exists el.
    + intros u Hu. rewrite Hold; [by apply node_setEdge_old|].
      apply elem_of_nodes_setEdge. by left.
    + intros u Hin Hu.
      destruct (decide (u ∈ nodes (setEdge d s0 e l))) as [H1|H1].
      * rewrite Hold by done. by apply node_setEdge_new.
      * by apply Hnew.
Qed.
End SetEdgeFacts.

Section NonCompoundFacts.
Import Graphlib UtilGraph.
Context {GL NL EL : Type} (undefined : NL).
Implicit Types g : Graph GL NL EL.

Lemma fold_setNode_if (P : NodeId * NL -> Prop) `{forall vl, Decision (P vl)}
    (es : list (NodeId * NL)) (s0 : Graph GL NL EL) :
  let s := fold_left (fun s vl => if bool_decide (P vl) then setNode s vl.1 vl.2 else s)
                     es s0 in
  graph s = graph s0 /\ edge_entries s = edge_entries s0 /\
  parent_entries s = parent_entries s0 /\
  node_entries s
  = fold_left (fun o kv => assoc_set kv.1 kv.2 o) (filter P es) (node_entries s0).
Proof.
  revert s0. induction es as [|vl es IH]; intros s0; simpl; [done|].
  rewrite filter_cons. case_bool_decide as HP.
  - rewrite decide_True by done. simpl.
    destruct (IH (setNode s0 vl.1 vl.2)) as (H1 & H2 & H3 & H4). simpl in *.
    by rewrite H1, H2, H3, H4.
  - rewrite decide_False by done. apply IH.
Qed.

(** X15. [asNonCompoundGraph] keeps the graph label, the edges and the nodes
    without children with their labels, and it has no parent relation.  A
    node with children is kept only when it is an end of an edge, and then
    with the label that [setEdge] gives to a node that it creates. *)
Theorem asNonCompoundGraph_spec g :
  graph_wf g ->
  graph (asNonCompoundGraph undefined g) = graph g /\
  edge_entries (asNonCompoundGraph undefined g) = edge_entries g /\
  parent_entries (asNonCompoundGraph undefined g) = [] /\
  NoDup (nodes (asNonCompoundGraph undefined g)) /\
  (forall v, v ∈ nodes (asNonCompoundGraph undefined g) <->
     v ∈ nodes g /\
     (children g v = [] \/ exists e, e ∈ edges g /\ (e_v e = v \/ e_w e = v))) /\
  (forall v, v ∈ nodes g -> children g v = [] ->
     node (asNonCompoundGraph undefined g) v = node g v) /\
  (forall v, v ∈ nodes (asNonCompoundGraph undefined g) -> children g v <> [] ->
     node (asNonCompoundGraph undefined g) v = Some undefined).
Proof.
  intros (Hnd & Hnde & Hends). unfold asNonCompoundGraph. cbv zeta.
  set (P := fun vl : NodeId * NL => length (children g vl.1) = 0%nat).
  destruct (fold_setNode_if P (node_entries g) (newGraph (graph g)))
    as (Sg & Se & Sp & Sn).
  set (s1 := fold_left _ (node_entries g) (newGraph (graph g))) in *.
  simpl in Sg, Se, Sp, Sn.
  assert (Sn' : node_entries s1 = filter P (node_entries g)).
  { rewrite Sn. apply fromEntries_copy. by apply filter_keys_NoDup. }
  assert (Hs1 : forall v, v ∈ nodes s1 <-> v ∈ nodes g /\ children g v = []).
  { intros v. unfold nodes. rewrite Sn'. rewrite !list_elem_of_fmap. split.
    - intros ([v' l] & -> & [HP Hin]%list_elem_of_filter). split.
      + by exists (v', l).
      + by apply nil_length_inv.
    - intros (([v' l] & -> & Hin) & Hc). exists (v', l). split; [done|].
      apply list_elem_of_filter. split; [|done]. unfold P. simpl in *. by rewrite Hc. }
  assert (Hnd1 : NoDup (nodes s1)).
  { unfold nodes. rewrite Sn'. by apply filter_keys_NoDup. }
  destruct (fold_setEdge_spec undefined (edge_entries g) s1 Hnd1)
    as (Fg & Fp & Fe & Fnd & Fk & Fold & Fnew).
  split; [congruence|]. split.
  { rewrite Fe, Se. simpl. by apply fromEntries_copy. }
  split; [congruence|]. split; [exact Fnd|]. split; [|split].
  - intros v. rewrite Fk, Hs1. split.
    + intros [[H1 H2]|([e l] & Hin & Hend)]; [by split; [|left]|].
      assert (He : e ∈ edges g) by (apply list_elem_of_fmap; by exists (e, l)).
      rewrite Forall_forall in Hends. destruct (Hends e He) as [Hv Hw].
      split; [destruct Hend as [<-|<-]; done|]. right. by exists e.
    + intros [Hv [Hc|(e & ([e' l] & -> & Hin)%list_elem_of_fmap & Hend)]].
      * by left.
      * right. by exists (e', l).
  - intros v Hv Hc. rewrite Fold by by apply Hs1.
    unfold node. rewrite Sn'.
    assert (HPv : forall l : NL, P (v, l)) by (intros l; unfold P; simpl; by rewrite Hc).
    generalize (node_entries g). intros l.
    induction l as [|[k' y] l IH]; [done|].
    rewrite filter_cons. destruct (decide (P (k', y))) as [HP'|HP']; simpl.
    + by rewrite IH.
    + rewrite decide_False; [done|]. intros ->. apply HP', HPv.
  - intros v Hin Hc. apply Fnew; [done|]. rewrite Hs1. tauto.
Qed.
End NonCompoundFacts.

Lemma asNonCompoundGraph_spec_witness :
  Graphlib.nodes (UtilGraph.asNonCompoundGraph "?"%string
                    GraphExamples.compound_with_edges)
  = ["c"; "a"; "b"; "p"]%string /\
  Graphlib.node (UtilGraph.asNonCompoundGraph "?"%string
                   GraphExamples.compound_with_edges) "p"
  = Some "?"%string /\
  Graphlib.edge_entries (UtilGraph.asNonCompoundGraph "?"%string
                           GraphExamples.compound_with_edges)
  = Graphlib.edge_entries GraphExamples.compound_with_edges.
Proof.
  destruct (asNonCompoundGraph_spec "?"%string GraphExamples.compound_with_edges)
    as (_ & He & _ & _ & _ & _ & Hp).
  - unfold graph_wf. split_and!; apply (bool_decide_unpack _); by vm_compute.
  - split; [reflexivity|]. split; [|exact He].
    apply Hp; [|discriminate]. apply (bool_decide_unpack _). by vm_compute.
Defined.

(** ** [successorWeights] and [predecessorWeights] *)

Section WeightFacts.
Import Graphlib Util UtilGraph.
Local Open Scope Q_scope.
Context {GL NL EL : Type} (weight_of : EL -> Q).
Implicit Types g : Graph GL NL EL.

Lemma fold_result_add_weight g (key : Edge -> NodeId) (els : list (Edge * EL))
    (acc : list (NodeId * WeightValue)) :
  NoDup (edges g) -> (forall el, el ∈ els -> el ∈ edge_entries g) ->
  fold_result (add_weight weight_of g key) els.*1 acc
  = Ok (fold_left (add_labelled weight_of key) els acc).
Proof.
  intros Hnd. revert acc. induction els as [|[e l] els IH]; intros acc Hin; [done|].
  rewrite fmap_cons. cbn [fold_result fold_left fst]. unfold add_weight at 1.
  unfold edge. rewrite (assoc_get_elem_NoDup e l) by (done || apply Hin, list_elem_of_here).
  cbn [rbind]. apply IH. intros el Hel. by apply Hin, list_elem_of_further.
Qed.

(** The entry under [w] after the loop depends on the edges whose key is
    [w] only. *)
Lemma add_labelled_get (key : Edge -> NodeId) (els : list (Edge * EL))
    (acc : list (NodeId * WeightValue)) (w : NodeId) :
  assoc_get w (fold_left (add_labelled weight_of key) els acc)
  = added weight_of w (filter (fun el : Edge * EL => key el.1 = w) els)
          (assoc_get w acc).
Proof.
  revert acc. induction els as [|[e l] els IH]; intros acc; [done|].
  cbn [fold_left]. rewrite IH, filter_cons. cbn [fst].
  destruct (decide (key e = w)) as [<-|Hne].
  - unfold added at 2. cbn [fold_left snd]. fold (added weight_of (key e)).
    f_equal. unfold add_labelled. cbn [fst snd].
    destruct (add_value (assoc_get (key e) acc) (key e) (weight_of l))
      as [x|] eqn:E.
    + apply assoc_get_set_eq.
    + destruct (assoc_get (key e) acc) as [[q|name ws]|]; done.
  - f_equal. unfold add_labelled. cbn [fst snd].
    destruct (add_value _ _ _); [|done].
    apply assoc_get_set_ne. intros E. apply Hne. exact E.
Qed.

Lemma added_Weight (k : NodeId) (els : list (Edge * EL)) (q : Q) :
  added weight_of k els (Some (Weight q))
  = Some (Weight (fold_left (fun a el => a + weight_of el.2) els q)).
Proof. revert q. induction els as [|el els IH]; intros q; [done|]. apply IH. Qed.

Lemma added_Text (k name : NodeId) (els : list (Edge * EL)) (ws : list Q) :
  added weight_of k els (Some (Text name ws))
  = Some (Text name (ws ++ (weight_of ∘ snd <$> els))).
Proof.
  unfold added. revert ws. induction els as [|el els IH]; intros ws.
  - by rewrite app_nil_r.
  - cbn [fold_left add_value]. rewrite IH, <- app_assoc. done.
Qed.

(** Under a key that names no inherited property the loop sums the
    weights from 0. *)
Lemma added_number (k : NodeId) (els : list (Edge * EL)) :
  k ∉ object_prototype_names ->
  added weight_of k els None
  = match els with
    | [] => None
    | _ => Some (Weight (sum_weight weight_of els))
    end.
Proof.
  intros Hk. destruct els as [|el els]; [done|].
  cbn [added fold_left add_value]. fold (added weight_of k).
  rewrite decide_False.
  2:{ intros ->. apply Hk. apply (bool_decide_unpack _). by vm_compute. }
  rewrite decide_False by done. apply added_Weight.
Qed.

(** Under a key that names an inherited property the loop makes a string,
    which for [__proto__] is not stored. *)
Lemma added_inherited (k : NodeId) (els : list (Edge * EL)) :
  k ∈ object_prototype_names ->
  added weight_of k els None
  = match els with
    | [] => None
    | _ => if decide (k = "__proto__"%string) then None
           else Some (Text k (weight_of ∘ snd <$> els))
    end.
Proof.
  intros Hk. induction els as [|el els IH] using rev_ind; [done|].
  unfold added. rewrite fold_left_app. fold (added weight_of k els None).
  rewrite IH. cbn [fold_left].
  assert (Hne : match els ++ [el] with [] => None | _ =>
                  if decide (k = "__proto__"%string) then None
                  else Some (Text k (weight_of ∘ snd <$> els ++ [el])) end
                = if decide (k = "__proto__"%string) then None
                  else Some (Text k (weight_of ∘ snd <$> els ++ [el]))).
  { by destruct els. }
  rewrite Hne. clear Hne IH.
  destruct els as [|el' els].
  - cbn [add_value]. destruct (decide (k = "__proto__"%string)); [done|].
    by rewrite decide_True.
  - destruct (decide (k = "__proto__"%string)) as [->|Hp].
    + cbn [add_value]. by rewrite decide_True.
    + cbn [add_value]. by rewrite fmap_app.
Qed.

(** The object that the loop over [g.nodes()] builds; [sel] tells the
    edges of a node from the others and [key] names the other end. *)
Lemma weights_Ok g (sel key : Edge -> NodeId)
    (adj : Graph GL NL EL -> NodeId -> option (list Edge)) :
  graph_wf g ->
  (forall v, v ∈ nodes g ->
     adj g v = Some (filter (fun e => sel e = v) (edges g))) ->
  rbind (map_result (fun v =>
           fold_result (add_weight weight_of g key) (default [] (adj g v)) [])
         (nodes g))
        (fun weightMap => Ok (zipObject (nodes g) weightMap))
  = Ok ((fun v => (v, fold_left (add_labelled weight_of key)
                        (filter (fun el : Edge * EL => sel el.1 = v) (edge_entries g)) []))
        <$> nodes g).
Proof.
  intros (Hnd & Hnde & _) Hadj.
  rewrite (map_result_Ok _ (fun v => fold_left (add_labelled weight_of key)
             (filter (fun el : Edge * EL => sel el.1 = v) (edge_entries g)) [])).
  - cbn [rbind]. by rewrite zipObject_fmap.
  - intros v Hv. rewrite Hadj by done. cbn [default]. unfold edges.
    rewrite (filter_fmap fst (fun e => sel e = v)).
    apply fold_result_add_weight; [done|].
    by intros el [_ ?]%list_elem_of_filter.
Qed.

Lemma weight_at_graph_of (h : NodeId -> list (NodeId * WeightValue))
    (ns : list NodeId) (v w : NodeId) :
  weight_at ((fun v => (v, h v)) <$> ns) v w
  = if decide (v ∈ ns) then assoc_get w (h v) else None.
Proof.
  unfold weight_at. rewrite assoc_get_graph_of. by destruct (decide (v ∈ ns)).
Qed.

Lemma between_two_filters (v w : NodeId) (els : list (Edge * EL)) :
  filter (fun el : Edge * EL => e_w el.1 = w)
         (filter (fun el : Edge * EL => e_v el.1 = v) els)
  = between v w els /\
  filter (fun el : Edge * EL => e_v el.1 = v)
         (filter (fun el : Edge * EL => e_w el.1 = w) els)
  = between v w els.
Proof.
  unfold between. rewrite !list_filter_filter.
  split; apply list_filter_iff; tauto.
Qed.

Lemma between_no_node g (v w : NodeId) :
  graph_wf g -> v ∉ nodes g \/ w ∉ nodes g -> edges_between g v w = [].
Proof.
  intros (_ & _ & Hends) Hn. unfold edges_between, between.
  destruct (filter _ (edge_entries g)) as [|[e l] els] eqn:E; [done|].
  exfalso.
  assert (Hin : (e, l) ∈ filter (fun el : Edge * EL => e_v el.1 = v /\ e_w el.1 = w)
                          (edge_entries g)) by (rewrite E; apply list_elem_of_here).
  apply list_elem_of_filter in Hin as [[Hv Hw] Hin]. simpl in Hv, Hw.
  rewrite Forall_forall in Hends. destruct (Hends e) as [H1 H2].
  { apply list_elem_of_fmap. by exists (e, l). }
  subst v w. tauto.
Qed.

(** [successorWeights] and [predecessorWeights] return, for every graph
    object; the entry for a pair of nodes is what the loop makes of the
    edges between them. *)
Lemma weights_spec g :
  graph_wf g ->
  exists sucs preds,
    successorWeights weight_of g = Ok sucs /\
    predecessorWeights weight_of g = Ok preds /\
    (forall v, is_Some (assoc_get v sucs) <-> v ∈ nodes g) /\
    (forall v, is_Some (assoc_get v preds) <-> v ∈ nodes g) /\
    (forall v w, v ∈ nodes g ->
       weight_at sucs v w = added weight_of w (edges_between g v w) None) /\
    (forall v w, w ∈ nodes g ->
       weight_at preds w v = added weight_of v (edges_between g v w) None).
Proof.
  intros Hwf. eexists _, _.
  split.
  { unfold successorWeights. apply (weights_Ok g e_v e_w outEdges Hwf).
    intros v Hv. unfold outEdges, hasNode. by rewrite bool_decide_eq_true_2. }
  split.
  { unfold predecessorWeights. apply (weights_Ok g e_w e_v inEdges Hwf).
    intros v Hv. unfold inEdges, hasNode. by rewrite bool_decide_eq_true_2. }
  split.
  { intros v. rewrite assoc_get_graph_of. destruct (decide (v ∈ nodes g)).
    - split; [done|]. intros _. by eexists.
    - split; [by intros [? ?]|done]. }
  split.
  { intros v. rewrite assoc_get_graph_of. destruct (decide (v ∈ nodes g)).
    - split; [done|]. intros _. by eexists.
    - split; [by intros [? ?]|done]. }
  split.
  - intros v w Hv. rewrite weight_at_graph_of, decide_True by done.
    rewrite add_labelled_get.
    by destruct (between_two_filters v w (edge_entries g)) as [-> _].
  - intros v w Hw. rewrite weight_at_graph_of, decide_True by done.
    rewrite add_labelled_get.
    by destruct (between_two_filters v w (edge_entries g)) as [_ ->].
Qed.

(** X16. [successorWeights] returns for every graph object, with an entry for
    every node.  For a node [v] and a [w] that names no property inherited
    from [Object.prototype], [weights[v][w]] is the sum of the weights of
    the edges from [v] to [w], taken from 0 in the order of [g.edges()],
    and is absent when there is no such edge.  Under an inherited name the
    object [weights[v]] has of its own, when there are such edges, the
    string made of the inherited property and those weights, and nothing
    under [__proto__]. *)
Theorem successorWeights_sums g :
  graph_wf g ->
  exists sucs,
    successorWeights weight_of g = Ok sucs /\
    (forall v, is_Some (assoc_get v sucs) <-> v ∈ nodes g) /\
    (forall v w, v ∈ nodes g -> w ∉ object_prototype_names ->
       weight_at sucs v w
       = match edges_between g v w with
         | [] => None
         | els => Some (Weight (sum_weight weight_of els))
         end) /\
    (forall v w, v ∈ nodes g -> w ∈ object_prototype_names ->
       weight_at sucs v w
       = match edges_between g v w with
         | [] => None
         | els => if decide (w = "__proto__"%string) then None
                  else Some (Text w (weight_of ∘ snd <$> els))
         end).
Proof.
  intros Hwf. destruct (weights_spec g Hwf) as (sucs & _ & E & _ & Hk & _ & H & _).
  exists sucs. split; [done|]. split; [done|]. split.
  - intros v w Hv Hw. rewrite H, added_number by done.
    by destruct (edges_between g v w).
  - intros v w Hv Hw. rewrite H, added_inherited by done.
    by destruct (edges_between g v w).
Qed.

(** X17. [predecessorWeights] is [successorWeights] with the two ends
    exchanged: for two nodes [v] and [w] that name no property inherited
    from [Object.prototype], the weight that it gives for [w] and [v] is
    the one that [successorWeights] gives for [v] and [w]. *)
Theorem predecessorWeights_transpose g :
  graph_wf g ->
  exists sucs preds,
    successorWeights weight_of g = Ok sucs /\
    predecessorWeights weight_of g = Ok preds /\
    (forall v, is_Some (assoc_get v preds) <-> v ∈ nodes g) /\
    forall v w, v ∈ nodes g -> w ∈ nodes g ->
      v ∉ object_prototype_names -> w ∉ object_prototype_names ->
      weight_at preds w v = weight_at sucs v w /\
      weight_at sucs v w
      = match edges_between g v w with
        | [] => None
        | els => Some (Weight (sum_weight weight_of els))
        end.
Proof.
  intros Hwf.
  destruct (weights_spec g Hwf) as (sucs & preds & E1 & E2 & _ & Hk & H1 & H2).
  exists sucs, preds. split; [done|]. split; [done|]. split; [done|].
  intros v w Hv Hw Hnv Hnw. rewrite H1, H2, !added_number by done.
  by destruct (edges_between g v w).
Qed.
End WeightFacts.

Lemma successorWeights_sums_witness :
  exists sucs,
    UtilGraph.successorWeights id GraphExamples.compound_with_edges = Ok sucs /\
    UtilGraph.weight_at sucs "a" "b" = Some (UtilGraph.Weight (0 + 2 + 3)%Q) /\
    UtilGraph.weight_at sucs "b" "a" = None.
Proof.
  destruct (successorWeights_sums id GraphExamples.compound_with_edges)
    as (sucs & E & _ & H & _).
  - unfold graph_wf. split_and!; apply (bool_decide_unpack _); by vm_compute.
  - exists sucs. split; [exact E|]. split.
    + rewrite H; [reflexivity|apply (bool_decide_unpack _); by vm_compute|].
      apply (bool_decide_unpack _). by vm_compute.
    + rewrite H; [reflexivity|apply (bool_decide_unpack _); by vm_compute|].
      apply (bool_decide_unpack _). by vm_compute.
Defined.

Lemma predecessorWeights_transpose_witness :
  exists sucs preds,
    UtilGraph.successorWeights id GraphExamples.compound_with_edges = Ok sucs /\
    UtilGraph.predecessorWeights id GraphExamples.compound_with_edges = Ok preds /\
    UtilGraph.weight_at preds "b" "a" = UtilGraph.weight_at sucs "a" "b".
Proof.
  destruct (predecessorWeights_transpose id GraphExamples.compound_with_edges)
    as (sucs & preds & E1 & E2 & _ & H).
  - unfold graph_wf. split_and!; apply (bool_decide_unpack _); by vm_compute.
  - exists sucs, preds. split; [exact E1|]. split; [exact E2|].
    apply H; apply (bool_decide_unpack _); by vm_compute.
Defined.

(** An edge into a node named [constructor]: [successorWeights] makes a
    string of the inherited property and the weight, [predecessorWeights]
    the number. *)
Example weights_inherited_name :
  exists sucs preds,
    UtilGraph.successorWeights id GraphExamples.inherited_name = Ok sucs /\
    UtilGraph.predecessorWeights id GraphExamples.inherited_name = Ok preds /\
    UtilGraph.weight_at sucs "a" "constructor"
    = Some (UtilGraph.Text "constructor" [1%Q]) /\
    UtilGraph.weight_at preds "constructor" "a"
    = Some (UtilGraph.Weight (0 + 1)%Q).
Proof. eexists _, _. split_and!; reflexivity. Qed.

(** ** Loops whose body may throw *)

Section ResultLoopFacts.
Context {A B : Type}.

Lemma map_result_Forall2 (f : A -> result B) (xs : list A) (ys : list B) :
  map_result f xs = Ok ys -> Forall2 (fun x y => f x = Ok y) xs ys.
Proof.
  revert ys. induction xs as [|x xs IH]; intros ys; simpl.
  - intros [= <-]. constructor.
  - destruct (f x) as [y| |] eqn:E; simpl; [|done|done].
    destruct (map_result f xs) as [ys'| |]; simpl; [|done|done].
    intros [= <-]. constructor; [done|]. by apply IH.
Qed.

Lemma map_result_Throw (f : A -> result B) (xs : list A) (x : A) :
  (forall x, f x <> OutOfFuel) -> x ∈ xs -> f x = Throw ->
  map_result f xs = Throw.
Proof.
  intros Hf Hin Hx. induction xs as [|x' xs IH]; [by apply elem_of_nil in Hin|].
  simpl. apply elem_of_cons in Hin as [<-|Hin].
  - by rewrite Hx.
  - destruct (f x') as [y| |] eqn:E; simpl; [|done|by destruct (Hf x')].
    by rewrite IH.
Qed.
End ResultLoopFacts.

(** ** [assignNodeIntersects] *)

Section AssignNodeIntersects.
Import Graphlib Util Passes.
Local Open Scope Q_scope.
Context {GL : Type}.
Implicit Types g : Graph GL Rect PathEdge.

Lemma intersectRect_fuel (rect : Rect) (p : Point) :
  intersectRect rect p <> OutOfFuel.
Proof.
  unfold intersectRect. destruct (_ && _); [done|]. by destruct (Qltb _ _).
Qed.

Lemma intersectRect_centre (rect : Rect) : intersectRect rect (centre rect) = Throw.
Proof.
  unfold intersectRect, centre. cbn [px py].
  assert (E : forall a : Q, is_zero (a - a) = true).
  { intros a. apply is_zero_eq. ring. }
  by rewrite !E.
Qed.

Lemma intersects_of_edge_fuel g (e : Edge) (edge : PathEdge) :
  intersects_of_edge g e edge <> OutOfFuel.
Proof.
  unfold intersects_of_edge.
  destruct (node g (e_v e)) as [nodeV|]; [|done].
  destruct (node g (e_w e)) as [nodeW|]; [|done].
  destruct (path edge) as [points|].
  - destruct (head points) as [p1|]; [|done].
    destruct (last points) as [p2|]; [|done].
    pose proof (intersectRect_fuel nodeV p1).
    pose proof (intersectRect_fuel nodeW p2).
    destruct (intersectRect nodeV p1); [|done|done]. simpl.
    by destruct (intersectRect nodeW p2).
  - pose proof (intersectRect_fuel nodeV (centre nodeW)).
    pose proof (intersectRect_fuel nodeW (centre nodeV)).
    destruct (intersectRect nodeV (centre nodeW)); [|done|done]. simpl.
    by destruct (intersectRect nodeW (centre nodeV)).
Qed.

Lemma intersects_of_edge_Ok g (e : Edge) (edge : PathEdge) (points' : list Point) :
  (forall v node, (v, node) ∈ node_entries g -> 0 < width node /\ 0 < height node) ->
  intersects_of_edge g e edge = Ok points' ->
  exists nodeV nodeW q1 q2,
    node g (e_v e) = Some nodeV /\ node g (e_w e) = Some nodeW /\
    match path edge with
    | None =>
        points' = [q1; q2] /\
        clipped nodeV (centre nodeW) q1 /\ clipped nodeW (centre nodeV) q2
    | Some points =>
        points' = q1 :: points ++ [q2] /\
        exists p1 p2, head points = Some p1 /\ last points = Some p2 /\
                      clipped nodeV p1 q1 /\ clipped nodeW p2 q2
    end.
Proof.
  intros Hpos. unfold intersects_of_edge.
  destruct (node g (e_v e)) as [nodeV|] eqn:Ev; [|done].
  destruct (node g (e_w e)) as [nodeW|] eqn:Ew; [|done].
  destruct (Hpos _ _ (assoc_get_Some_elem _ _ _ Ev)) as [Hv1 Hv2].
  destruct (Hpos _ _ (assoc_get_Some_elem _ _ _ Ew)) as [Hw1 Hw2].
  destruct (path edge) as [points|].
  - destruct (head points) as [p1|]; [|done].
    destruct (last points) as [p2|]; [|done].
    destruct (intersectRect nodeV p1) as [q1| |] eqn:E1; [|done|done]. simpl.
    destruct (intersectRect nodeW p2) as [q2| |] eqn:E2; [|done|done]. simpl.
    intros [= <-]. exists nodeV, nodeW, q1, q2.
    split; [done|]. split; [done|]. split; [done|]. exists p1, p2.
    split; [done|]. split; [done|].
    split; by apply intersectRect_Ok_spec.
  - destruct (intersectRect nodeV (centre nodeW)) as [q1| |] eqn:E1; [|done|done].
    simpl.
    destruct (intersectRect nodeW (centre nodeV)) as [q2| |] eqn:E2; [|done|done].
    simpl. intros [= <-]. exists nodeV, nodeW, q1, q2.
    split; [done|]. split; [done|]. split; [done|].
    split; by apply intersectRect_Ok_spec.
Qed.

(** X18. When [assignNodeIntersects] returns on boxes of positive size, every
    edge has two more points: a first one where the ray from the centre of
    the box of its source through the old first point leaves that box, and
    a last one where the ray from the centre of the box of its target
    through the old last point leaves that box; for an edge without points
    the rays go to the centre of the other box.  Nothing else changes. *)
Theorem assignNodeIntersects_clips g g' :
  (forall v node, (v, node) ∈ node_entries g -> 0 < width node /\ 0 < height node) ->
  assignNodeIntersects g = Ok g' ->
  graph g' = graph g /\ node_entries g' = node_entries g /\
  parent_entries g' = parent_entries g /\
  Forall2 (fun el el' =>
             el'.1 = el.1 /\
             exists nodeV nodeW q1 q2,
               node g (e_v el.1) = Some nodeV /\
               node g (e_w el.1) = Some nodeW /\
               match path el.2 with
               | None =>
                   path el'.2 = Some [q1; q2] /\
                   clipped nodeV (centre nodeW) q1 /\
                   clipped nodeW (centre nodeV) q2
               | Some points =>
                   path el'.2 = Some (q1 :: points ++ [q2]) /\
                   exists p1 p2,
                     head points = Some p1 /\ last points = Some p2 /\
                     clipped nodeV p1 q1 /\ clipped nodeW p2 q2
               end)
          (edge_entries g) (edge_entries g').
Proof.
  intros Hpos. unfold assignNodeIntersects.
  destruct (map_result _ (edge_entries g)) as [entries| |] eqn:E; [|done|done].
  simpl. intros [= <-]. simpl. split; [done|]. split; [done|]. split; [done|].
  apply map_result_Forall2 in E.
  eapply Forall2_impl; [exact E|].
  intros [e edge] el'. simpl.
  destruct (intersects_of_edge g e edge) as [points'| |] eqn:Ei; [|done|done].
  simpl. intros [= <-]. simpl. split; [done|].
  destruct (intersects_of_edge_Ok g e edge points' Hpos Ei)
    as (nodeV & nodeW & q1 & q2 & Hv & Hw & H).
  exists nodeV, nodeW, q1, q2. split; [done|]. split; [done|].
  destruct (path edge) as [points|].
  - destruct H as (-> & H). by split.
  - destruct H as (-> & H). by split.
Qed.

(** X19. [assignNodeIntersects] throws when an edge has an empty array of
    points, and when a self-loop has no points. *)
Theorem assignNodeIntersects_throws g (e : Edge) (edge : PathEdge) :
  (e, edge) ∈ edge_entries g ->
  path edge = Some [] \/ (path edge = None /\ e_v e = e_w e) ->
  assignNodeIntersects g = Throw.
Proof.
  intros Hin Hcase. unfold assignNodeIntersects.
  rewrite (map_result_Throw _ _ (e, edge)); [done| |done|].
  - intros [e' edge']. simpl.
    pose proof (intersects_of_edge_fuel g e' edge').
    by destruct (intersects_of_edge g e' edge').
  - simpl.
    assert (E : intersects_of_edge g e edge = Throw); [|by rewrite E].
    unfold intersects_of_edge.
    destruct (node g (e_v e)) as [nodeV|] eqn:Ev; [|done].
    destruct (node g (e_w e)) as [nodeW|] eqn:Ew; [|done].
    destruct Hcase as [->|[-> Hvw]]; [done|].
    rewrite <- Hvw, Ev in Ew. injection Ew as <-.
    by rewrite intersectRect_centre.
Qed.
End AssignNodeIntersects.

Lemma assignNodeIntersects_clips_witness :
  Forall2 (fun el el' =>
             el'.1 = el.1 /\
             exists nodeV nodeW q1 q2,
               Graphlib.node PassExamples.two_boxes (Graphlib.e_v el.1) = Some nodeV /\
               Graphlib.node PassExamples.two_boxes (Graphlib.e_w el.1) = Some nodeW /\
               match Passes.path el.2 with
               | None =>
                   Passes.path el'.2 = Some [q1; q2] /\
                   clipped nodeV (Passes.centre nodeW) q1 /\
                   clipped nodeW (Passes.centre nodeV) q2
               | Some points =>
                   Passes.path el'.2 = Some (q1 :: points ++ [q2]) /\
                   exists p1 p2,
                     head points = Some p1 /\ last points = Some p2 /\
                     clipped nodeV p1 q1 /\ clipped nodeW p2 q2
               end)
          (Graphlib.edge_entries PassExamples.two_boxes)
          (Graphlib.edge_entries PassExamples.two_boxes_clipped).
Proof.
  apply (assignNodeIntersects_clips PassExamples.two_boxes
           PassExamples.two_boxes_clipped).
  - intros v node Hin.
    repeat (apply elem_of_cons in Hin as [[= -> ->]|Hin]);
      [by vm_compute ..|by apply elem_of_nil in Hin].
  - reflexivity.
Defined.

Lemma assignNodeIntersects_throws_witness :
  Passes.assignNodeIntersects
    (Graphlib.mkGraph tt [("a"%string, Util.mkRect 0 0 4 2)]
       [(Graphlib.mkEdge "a" "a" None, Passes.mkPathEdge None)] [])
  = Throw.
Proof.
  apply (assignNodeIntersects_throws _ (Graphlib.mkEdge "a" "a" None)
           (Passes.mkPathEdge None)).
  - apply list_elem_of_here.
  - right. split; reflexivity.
Defined.

(** ** [fixupEdgeLabelCoords] after [makeSpaceForEdgeLabels] *)

Section FixupFacts.
Import Graphlib Layout Passes.
Local Open Scope Q_scope.

Lemma edge_map_edge_labels (f : EdgeLabel -> EdgeLabel) (g : LayoutGraph) (e : Edge) :
  edge (map_edge_labels f g) e = f <$> edge g e.
Proof. unfold edge, map_edge_labels. simpl. apply assoc_get_fmap. Qed.

Lemma edge_fixup_makeSpace (g : LayoutGraph) (e : Edge) :
  exists graph',
    rankdir graph' = rankdir (graph g) /\
    edge (fixupEdgeLabelCoords (makeSpaceForEdgeLabels g)) e
    = (fun edge => fixup_edge (makeSpace_edge graph' edge)) <$> edge g e.
Proof.
  eexists. split; [|unfold fixupEdgeLabelCoords, makeSpaceForEdgeLabels; cbv zeta;
                    rewrite !edge_map_edge_labels;
                    unfold edge, setGraph; simpl;
                    by destruct (assoc_get e (edge_entries g))].
  reflexivity.
Qed.

(** X20. In a layout from top to bottom or from bottom to top, for an edge with
    a position whose label is on the left or on the right,
    [fixupEdgeLabelCoords] takes away the padding that
    [makeSpaceForEdgeLabels] has added to the width, and moves [x] by half
    the width of the label and the offset, to the left or to the right. *)
Theorem fixupEdgeLabelCoords_undoes_padding (g : LayoutGraph) (e : Edge)
    (edge0 : EdgeLabel) (x0 : Q) :
  edge g e = Some edge0 ->
  e_x edge0 = Some x0 ->
  rankdir (graph g) = "TB"%string \/ rankdir (graph g) = "BT"%string ->
  labelpos edge0 = "l"%string \/ labelpos edge0 = "r"%string ->
  exists edge1 x1,
    edge (fixupEdgeLabelCoords (makeSpaceForEdgeLabels g)) e = Some edge1 /\
    e_width edge1 == e_width edge0 /\
    e_height edge1 = e_height edge0 /\
    e_x edge1 = Some x1 /\
    x1 == (if bool_decide (labelpos edge0 = "l"%string)
           then x0 - (e_width edge0 / 2 + labeloffset edge0)
           else x0 + (e_width edge0 / 2 + labeloffset edge0)).
Proof.
  intros He Hx Hdir Hpos.
  destruct (edge_fixup_makeSpace g e) as (graph' & Hrd & ->).
  rewrite He. simpl. unfold makeSpace_edge. rewrite Hrd.
  assert (Hc : bool_decide (toLowerCase (labelpos edge0) <> "c"%string) = true).
  { apply bool_decide_eq_true_2. by destruct Hpos as [-> | ->]. }
  assert (Hd : bool_decide (rankdir (graph g) = "TB"%string)
               || bool_decide (rankdir (graph g) = "BT"%string) = true).
  { destruct Hdir as [-> | ->]; reflexivity. }
  rewrite Hc, Hd. unfold fixup_edge. cbn [e_x labelpos e_width labeloffset].
  rewrite Hx.
  destruct Hpos as [Hp | Hp]; rewrite Hp.
  - change (bool_decide ("l"%string = "l"%string)) with true.
    change (bool_decide ("l"%string = "r"%string)) with false.
    cbn [orb]. eexists _, _. split; [reflexivity|]. cbn [e_width e_height e_x].
    split; [ring|]. split; [done|]. split; [done|]. field.
  - change (bool_decide ("r"%string = "l"%string)) with false.
    change (bool_decide ("r"%string = "r"%string)) with true.
    cbn [orb]. eexists _, _. split; [reflexivity|]. cbn [e_width e_height e_x].
    split; [ring|]. split; [done|]. split; [done|]. field.
Qed.

(** X21. The two passes do not agree on the case of [labelpos]:
    [makeSpaceForEdgeLabels] pads the width of an edge whose [labelpos] is
    not [c] in any case of the letter, [fixupEdgeLabelCoords] takes the
    padding away only for [l] and [r] in lower case.  For another
    [labelpos] the width keeps the padding and [x] is not moved. *)
Theorem fixupEdgeLabelCoords_keeps_padding (g : LayoutGraph) (e : Edge)
    (edge0 : EdgeLabel) :
  edge g e = Some edge0 ->
  rankdir (graph g) = "TB"%string \/ rankdir (graph g) = "BT"%string ->
  toLowerCase (labelpos edge0) <> "c"%string ->
  labelpos edge0 <> "l"%string -> labelpos edge0 <> "r"%string ->
  exists edge1,
    edge (fixupEdgeLabelCoords (makeSpaceForEdgeLabels g)) e = Some edge1 /\
    e_width edge1 = e_width edge0 + labeloffset edge0 /\
    e_height edge1 = e_height edge0 /\
    e_x edge1 = e_x edge0.
Proof.
  intros He Hdir Hc Hl Hr.
  destruct (edge_fixup_makeSpace g e) as (graph' & Hrd & ->).
  rewrite He. simpl. unfold makeSpace_edge. rewrite Hrd.
  rewrite (bool_decide_eq_true_2 _ Hc).
  assert (Hd : bool_decide (rankdir (graph g) = "TB"%string)
               || bool_decide (rankdir (graph g) = "BT"%string) = true).
  { destruct Hdir as [-> | ->]; reflexivity. }
  rewrite Hd. unfold fixup_edge. cbn [e_x labelpos e_width labeloffset].
  rewrite (bool_decide_eq_false_2 _ Hl), (bool_decide_eq_false_2 _ Hr).
  cbn [orb]. destruct (e_x edge0) as [x0|] eqn:Ex.
  - eexists. split; [reflexivity|]. done.
  - eexists. split; [reflexivity|]. done.
Qed.
End FixupFacts.

Lemma fixupEdgeLabelCoords_undoes_padding_witness :
  exists edge1 x1,
    Graphlib.edge
      (Passes.fixupEdgeLabelCoords
         (Layout.makeSpaceForEdgeLabels PassExamples.labelled_edge))
      (Graphlib.mkEdge "a" "b" None) = Some edge1 /\
    (Layout.e_width edge1 == 30)%Q /\
    Layout.e_x edge1 = Some x1 /\
    (x1 == 100 - (30 / 2 + 10))%Q.
Proof.
  destruct (fixupEdgeLabelCoords_undoes_padding PassExamples.labelled_edge
              (Graphlib.mkEdge "a" "b" None)
              (Layout.mkEdgeLabel 1 "l" 10 30 20 [] (Some 100%Q) (Some 50%Q)) 100%Q)
    as (edge1 & x1 & E & Hw & _ & Hx & Hx1).
  - reflexivity.
  - reflexivity.
  - by left.
  - by left.
  - by exists edge1, x1.
Defined.

Lemma fixupEdgeLabelCoords_keeps_padding_witness :
  exists edge1,
    Graphlib.edge
      (Passes.fixupEdgeLabelCoords
         (Layout.makeSpaceForEdgeLabels PassExamples.labelled_edge_upper))
      (Graphlib.mkEdge "a" "b" None) = Some edge1 /\
    Layout.e_width edge1 = (30 + 10)%Q /\
    Layout.e_x edge1 = Some 100%Q.
Proof.
  destruct (fixupEdgeLabelCoords_keeps_padding PassExamples.labelled_edge_upper
              (Graphlib.mkEdge "a" "b" None)
              (Layout.mkEdgeLabel 1 "L" 10 30 20 [] (Some 100%Q) (Some 50%Q)))
    as (edge1 & E & Hw & _ & Hx).
  - reflexivity.
  - by left.
  - discriminate.
  - discriminate.
  - discriminate.
  - by exists edge1.
Defined.

(** ** [reversePointsForReversedEdges] *)

Section ReverseFacts.
Import Graphlib Util Passes.
Context {GL NL : Type}.
Implicit Types g : Graph GL NL ReversibleEdge.

Lemma reverse_edge_Ok (edge edge' : ReversibleEdge) :
  reverse_edge edge = Ok edge' ->
  reverse_edge edge' = Ok edge /\
  reversed edge' = reversed edge /\
  r_points edge'
  = if reversed edge then reverse <$> r_points edge else r_points edge.
Proof.
  unfold reverse_edge. destruct edge as [[] [points|]]; simpl; try done.
  - intros [= <-]. simpl. by rewrite reverse_involutive.
  - intros [= <-]. done.
  - intros [= <-]. done.
Qed.

Lemma reverse_entries_Ok (entries entries' : list (Edge * ReversibleEdge)) :
  map_result (fun el => rbind (reverse_edge el.2) (fun edge => Ok (el.1, edge)))
             entries = Ok entries' ->
  map_result (fun el => rbind (reverse_edge el.2) (fun edge => Ok (el.1, edge)))
             entries' = Ok entries /\
  Forall2 (fun el el' =>
             el'.1 = el.1 /\ reversed el'.2 = reversed el.2 /\
             r_points el'.2
             = if reversed el.2 then reverse <$> r_points el.2
               else r_points el.2)
          entries entries'.
Proof.
  revert entries'. induction entries as [|[e edge] es IH]; intros entries'; simpl.
  - intros [= <-]. split; [done|constructor].
  - destruct (reverse_edge edge) as [edge'| |] eqn:E; simpl; [|done|done].
    destruct (map_result _ es) as [es'| |]; simpl; [|done|done].
    intros [= <-]. destruct (IH es' eq_refl) as [IH1 IH2].
    destruct (reverse_edge_Ok _ _ E) as (E' & Hr & Hp).
    split.
    + simpl. rewrite E'. simpl. by rewrite IH1.
    + constructor; [|done]. done.
Qed.

(** X22. When [reversePointsForReversedEdges] returns, the points of the edges
    that are marked as reversed are in the opposite order and nothing else
    has changed; a second run restores the graph. *)
Theorem reversePoints_involutive g g' :
  reversePointsForReversedEdges g = Ok g' ->
  reversePointsForReversedEdges g' = Ok g /\
  graph g' = graph g /\ node_entries g' = node_entries g /\
  parent_entries g' = parent_entries g /\
  Forall2 (fun el el' =>
             el'.1 = el.1 /\ reversed el'.2 = reversed el.2 /\
             r_points el'.2
             = if reversed el.2 then reverse <$> r_points el.2
               else r_points el.2)
          (edge_entries g) (edge_entries g').
Proof.
  unfold reversePointsForReversedEdges.
  destruct (map_result _ (edge_entries g)) as [entries'| |] eqn:E; [|done|done].
  simpl. intros [= <-]. simpl.
  destruct (reverse_entries_Ok _ _ E) as [E' H].
  rewrite E'. simpl. by destruct g.
Qed.
End ReverseFacts.

Lemma reversePoints_involutive_witness :
  Passes.reversePointsForReversedEdges PassExamples.one_reversed_back
  = Ok PassExamples.one_reversed /\
  Graphlib.edge PassExamples.one_reversed_back (Graphlib.mkEdge "a" "b" None)
  = Some (Passes.mkReversibleEdge true
            (Some [Util.mkPoint 2 0; Util.mkPoint 1 1; Util.mkPoint 0 0])).
Proof.
  destruct (reversePoints_involutive PassExamples.one_reversed
              PassExamples.one_reversed_back) as (E & _).
  - reflexivity.
  - split; [exact E|reflexivity].
Defined.

(** ** [removeSelfEdges] *)

Section SelfEdgeFacts.
Import Graphlib Passes.
Context {GL EL : Type}.
Implicit Types g cur : Graph GL (SelfNode EL) EL.

Lemma with_loops_cons (node : SelfNode EL) (el : Edge * EL) (loops : list (Edge * EL)) :
  with_loops (mkSelfNode (Some (default [] (selfEdges node) ++ [el]))) loops
  = with_loops node (el :: loops).
Proof.
  unfold with_loops. destruct loops as [|el' loops]; simpl; [done|].
  by rewrite <- app_assoc.
Qed.

Lemma filter_all {A} (P : A -> Prop) `{forall x, Decision (P x)} (l : list A) :
  (forall x, x ∈ l -> P x) -> filter P l = l.
Proof.
  induction l as [|x l IH]; intros Hall; [done|].
  rewrite filter_cons_True by apply Hall, list_elem_of_here.
  f_equal. apply IH. intros y Hy. by apply Hall, list_elem_of_further.
Qed.

Lemma assoc_del_middle {K V} `{EqDecision K} (k : K) (x : V) (l1 l2 : list (K * V)) :
  NoDup (l1 ++ (k, x) :: l2).*1 -> assoc_del k (l1 ++ (k, x) :: l2) = l1 ++ l2.
Proof.
  intros Hnd. unfold assoc_del.
  rewrite filter_app, filter_cons_False by (simpl; tauto).
  rewrite fmap_app, fmap_cons in Hnd. simpl in Hnd.
  apply NoDup_app in Hnd as (_ & H1 & H2). apply NoDup_cons in H2 as [H2 _].
  f_equal.
  - apply filter_all. intros [k' y] Hin. simpl. intros ->.
    apply (H1 k); [|apply list_elem_of_here].
    apply list_elem_of_fmap. by exists (k, y).
  - apply filter_all. intros [k' y] Hin. simpl. intros ->.
    apply H2. apply list_elem_of_fmap. by exists (k, y).
Qed.

Lemma removeSelfEdges_fold (post kept : list (Edge * EL)) cur :
  NoDup (kept ++ post).*1 ->
  edge_entries cur = kept ++ post ->
  (forall el, el ∈ post -> e_v el.1 = e_w el.1 -> e_v el.1 ∈ nodes cur) ->
  exists g',
    fold_result removeSelfEdge post.*1 cur = Ok g' /\
    graph g' = graph cur /\ parent_entries g' = parent_entries cur /\
    nodes g' = nodes cur /\
    edge_entries g'
    = kept ++ filter (fun el : Edge * EL => e_v el.1 <> e_w el.1) post /\
    forall v, node g' v
              = (fun node => with_loops node (loops_at v post)) <$> node cur v.
Proof.
  revert kept cur. induction post as [|[e l] post IH]; intros kept cur Hnd He Hn.
  - exists cur. split; [done|]. split; [done|]. split; [done|]. split; [done|].
    split; [by rewrite He|]. intros v. by destruct (node cur v).
  - rewrite fmap_cons. cbn [fold_result fst]. unfold removeSelfEdge at 1.
    case_bool_decide as Hself.
    + destruct (node cur (e_v e)) as [n|] eqn:En.
      2:{ exfalso. apply (assoc_get_None (e_v e) (node_entries cur)); [exact En|].
          apply (Hn (e, l)); [apply list_elem_of_here|done]. }
      assert (Ee : edge cur e = Some l).
      { unfold edge. rewrite He. apply assoc_get_elem_NoDup; [done|].
        apply elem_of_app. right. apply list_elem_of_here. }
      rewrite Ee. cbn [rbind].
      set (n1 := mkSelfNode (Some (default [] (selfEdges n) ++ [(e, l)]))).
      set (cur1 := removeEdge (setNode cur (e_v e) n1) e).
      assert (Hk : nodes cur1 = nodes cur).
      { unfold cur1, removeEdge, setNode, nodes. simpl.
        apply assoc_set_keys_in.
        apply (Hn (e, l)); [apply list_elem_of_here|done]. }
      destruct (IH kept cur1) as (g' & E & Hg & Hp & Hks & Hes & Hnode).
      { rewrite fmap_app, fmap_cons in Hnd. rewrite fmap_app.
        apply NoDup_app in Hnd as (H1 & H2 & H3).
        apply NoDup_cons in H3 as [_ H3]. apply NoDup_app.
        split; [done|]. split; [|done].
        intros k Hk1 Hk2. apply (H2 k Hk1). by apply list_elem_of_further. }
      { unfold cur1, removeEdge. simpl. rewrite He. by apply assoc_del_middle. }
      { intros el Hel Hs. rewrite Hk. apply Hn; [|done].
        by apply list_elem_of_further. }
      exists g'. split; [exact E|]. split; [by rewrite Hg|].
      split; [by rewrite Hp|]. split; [by rewrite Hks|]. split.
      * rewrite Hes. by rewrite filter_cons_False by (simpl; tauto).
      * intros v. rewrite Hnode. unfold cur1, removeEdge, setNode, node. simpl.
        unfold loops_at. rewrite filter_cons. simpl.
        destruct (decide (v = e_v e)) as [->|Hv].
        -- rewrite assoc_get_set_eq. fold (node cur (e_v e)). rewrite En. simpl.
           rewrite decide_True by done. f_equal. apply with_loops_cons.
        -- rewrite assoc_get_set_ne by done.
           rewrite decide_False; [done|]. intros [? _]. by apply Hv.
    + cbn [rbind].
      destruct (IH (kept ++ [(e, l)]) cur) as (g' & E & Hg & Hp & Hks & Hes & Hnode).
      { by rewrite <- app_assoc. }
      { by rewrite <- app_assoc. }
      { intros el Hel. apply Hn. by apply list_elem_of_further. }
      exists g'. split; [exact E|]. split; [done|]. split; [done|].
      split; [done|]. split.
      * rewrite Hes, <- app_assoc. simpl. by rewrite filter_cons_True by done.
      * intros v. rewrite Hnode. unfold loops_at.
        rewrite filter_cons_False; [done|]. simpl. intros [H1 H2].
        apply Hself. congruence.
Qed.

(** X23. [removeSelfEdges] returns on every graph object: no self-loop is left
    among the edges and the other edges are as before; every self-loop,
    with its label, is pushed on the [selfEdges] of its node, in the order
    of [g.edges()]; a node without self-loops keeps its label. *)
Theorem removeSelfEdges_spec g :
  graph_wf g ->
  exists g',
    removeSelfEdges g = Ok g' /\
    graph g' = graph g /\ parent_entries g' = parent_entries g /\
    nodes g' = nodes g /\
    edge_entries g'
    = filter (fun el : Edge * EL => e_v el.1 <> e_w el.1) (edge_entries g) /\
    forall v, node g' v
              = (fun node => with_loops node (loops_at v (edge_entries g)))
                <$> node g v.
Proof.
  intros (Hnd & Hnde & Hends).
  destruct (removeSelfEdges_fold (edge_entries g) [] g) as (g' & E & H).
  - exact Hnde.
  - done.
  - intros [e l] Hin _. rewrite Forall_forall in Hends.
    apply (Hends e). apply list_elem_of_fmap. by exists (e, l).
  - exists g'. split; [exact E|]. exact H.
Qed.
End SelfEdgeFacts.

Lemma removeSelfEdges_spec_witness :
  exists g',
    Passes.removeSelfEdges PassExamples.two_loops = Ok g' /\
    Graphlib.edges g' = [Graphlib.mkEdge "a" "b" None] /\
    Graphlib.node g' "a"
    = Some (Passes.mkSelfNode
              (Some [(Graphlib.mkEdge "a" "a" None, 1%Q);
                     (Graphlib.mkEdge "a" "a" (Some "again"%string), 3%Q)])).
Proof.
  destruct (removeSelfEdges_spec PassExamples.two_loops)
    as (g' & E & _ & _ & _ & He & Hn).
  - unfold graph_wf. split_and!; apply (bool_decide_unpack _); by vm_compute.
  - exists g'. split; [exact E|]. split.
    + unfold Graphlib.edges. rewrite He. reflexivity.
    + rewrite Hn. reflexivity.
Defined.

(** ** Arrays with holes *)

Section SparseFacts.
Context {A : Type}.

Lemma sparse_get_set_eq (i : nat) (x : A) (array : list (option A)) :
  sparse_get i (sparse_set i x array) = Some x.
Proof.
  revert array. induction i as [|i IH]; intros [|y array]; simpl; try done.
  - apply (IH []).
  - apply IH.
Qed.

Lemma sparse_get_set_ne (i j : nat) (x : A) (array : list (option A)) :
  i <> j -> sparse_get j (sparse_set i x array) = sparse_get j array.
Proof.
  unfold sparse_get. revert j array.
  induction i as [|i IH]; intros j array Hne.
  - destruct j as [|j]; [done|]. by destruct array.
  - destruct j as [|j].
    + by destruct array.
    + destruct array as [|y array]; simpl.
      * rewrite IH by lia. by destruct j.
      * apply IH. lia.
Qed.

End SparseFacts.

Section IndexFacts.
Local Open Scope Q_scope.

Lemma is_integer_eq (q : Q) : is_integer q = true <-> q == inject_Z (Qfloor q).
Proof. apply Qeq_bool_iff. Qed.

Lemma array_index_Some (q : Q) (i : nat) :
  array_index q = Some i ->
  q == inject_Z (Z.of_nat i) /\ Qfloor q = Z.of_nat i /\
  (Z.of_nat i < max_array_length)%Z.
Proof.
  unfold array_index.
  destruct (Qle_bool 0 q) eqn:H0; [|done].
  destruct (is_integer q) eqn:Hi; [|done].
  destruct (Qfloor q <? max_array_length)%Z eqn:Hm; [|done]. simpl.
  intros [= <-]. apply Qle_bool_iff in H0. apply is_integer_eq in Hi.
  apply Z.ltb_lt in Hm.
  assert (Hf : (0 <= Qfloor q)%Z).
  { change 0%Z with (Qfloor 0). by apply Qfloor_resp_le. }
  rewrite Z2Nat.id by done. by split.
Qed.

(** A whole number from 0 below the greatest length is an index. *)
Lemma array_index_whole (q : Q) (i : nat) :
  q == inject_Z (Z.of_nat i) -> (Z.of_nat i < max_array_length)%Z ->
  array_index q = Some i.
Proof.
  intros Hq Hm. unfold array_index.
  assert (Hf : Qfloor q = Z.of_nat i).
  { rewrite (Qfloor_comp _ _ Hq). apply Qfloor_Z. }
  assert (H0 : Qle_bool 0 q = true).
  { apply Qle_bool_iff. rewrite Hq. change 0 with (inject_Z 0).
    rewrite <- Zle_Qle. lia. }
  assert (Hi : is_integer q = true).
  { apply is_integer_eq. by rewrite Hf. }
  rewrite H0, Hi, Hf. simpl.
  rewrite (proj2 (Z.ltb_lt _ _) Hm). by rewrite Nat2Z.id.
Qed.

Lemma array_index_None (q : Q) :
  array_index q = None <->
  ~ exists i : nat, q == inject_Z (Z.of_nat i) /\
                    (Z.of_nat i < max_array_length)%Z.
Proof.
  split.
  - intros E (i & Hq & Hm). rewrite (array_index_whole q i Hq Hm) in E. done.
  - intros Hn. destruct (array_index q) as [i|] eqn:E; [|done].
    exfalso. apply Hn. exists i.
    apply array_index_Some in E as (Hq & _ & Hm). by split.
Qed.

(** [_.range(end)] for a positive number: the whole numbers from 0 below
    [end], or an exception when they are more than an array holds. *)
Lemma range_length_pos (end_ : Q) :
  0 < end_ ->
  range_length end_
  = if (Qceiling end_ <=? max_array_length)%Z
    then Ok (Z.to_nat (Qceiling end_)) else Throw.
Proof.
  intros Hpos. unfold range_length.
  assert (Hlt : Qltb 0 end_ = true).
  { unfold Qltb. destruct (Qle_bool end_ 0) eqn:E; [|done].
    apply Qle_bool_iff in E. lra. }
  rewrite Hlt.
  assert (E : end_ / 1 == end_) by (field).
  rewrite (Qceiling_comp _ _ E).
  assert (Hc : (0 <= Qceiling end_)%Z).
  { pose proof (Qle_ceiling end_) as H.
    assert (H' : inject_Z (-1) < inject_Z (Qceiling end_)).
    { change (inject_Z (-1)) with (-1). lra. }
    rewrite <- Zlt_Qlt in H'. lia. }
  by rewrite Z.max_l.
Qed.

Lemma array_index_below (q m : Q) (i : nat) :
  array_index q = Some i -> q <= m ->
  (i < Z.to_nat (Qceiling (m + 1)))%nat.
Proof.
  intros (Hq & _ & _)%array_index_Some Hle.
  pose proof (Qle_ceiling (m + 1)) as Hc.
  assert (H : inject_Z (Z.of_nat i) < inject_Z (Qceiling (m + 1))) by lra.
  rewrite <- Zlt_Qlt in H. lia.
Qed.
End IndexFacts.

Lemma fold_result_Throw {A B} (f : B -> A -> result B) (xs : list A) (x : A) (acc : B) :
  (forall a y, f a y <> OutOfFuel) -> x ∈ xs -> (forall a, f a x = Throw) ->
  fold_result f xs acc = Throw.
Proof.
  intros Hf Hin Hx. revert acc.
  induction xs as [|y xs IH]; intros acc; [by apply elem_of_nil in Hin|].
  simpl. apply elem_of_cons in Hin as [<-|Hin].
  - by rewrite Hx.
  - destruct (f acc y) as [b| |] eqn:E; simpl; [|done|by destruct (Hf acc y)].
    by apply IH.
Qed.

(** ** [buildLayerMatrix] *)

Section LayerMatrixFacts.
Import Graphlib Ranks.
Local Open Scope Q_scope.
Context {GL EL : Type}.
Implicit Types g : Graph GL RankedNode EL.

Lemma cell_insert (layering : list (list (option NodeId))) (i o : nat)
    (v : NodeId) (row : list (option NodeId)) (i' o' : nat) :
  layering !! i = Some row ->
  cell (<[i := sparse_set o v row]> layering) i' o'
  = if decide (i' = i /\ o' = o) then Some v else cell layering i' o'.
Proof.
  intros Hrow. unfold cell.
  destruct (decide (i' = i)) as [->|Hi].
  - rewrite list_lookup_insert_eq by by eapply lookup_lt_Some. simpl.
    destruct (decide (o' = o)) as [->|Ho].
    + rewrite decide_True by done. apply sparse_get_set_eq.
    + rewrite decide_False by tauto. rewrite Hrow. simpl.
      apply sparse_get_set_ne. congruence.
  - rewrite list_lookup_insert_ne by congruence. by rewrite decide_False by tauto.
Qed.

Lemma occupant_cons (i o : nat) (v : NodeId) (node : RankedNode)
    (es : list (NodeId * RankedNode)) :
  occupant i o ((v, node) :: es)
  = match occupant i o es with
    | Some x => Some x
    | None => if decide (position node = Some (i, o)) then Some v else None
    end.
Proof.
  unfold occupant. rewrite filter_cons. simpl.
  destruct (decide (position node = Some (i, o))); [|by destruct (last _)].
  rewrite fmap_cons, last_cons. simpl. by destruct (last _).
Qed.

Lemma place_Ok (layering : list (list (option NodeId))) (v : NodeId)
    (node : RankedNode) :
  (forall r, rank node = Some r ->
     exists i, array_index r = Some i /\ (i < length layering)%nat) ->
  exists layering',
    place layering v node = Ok layering' /\
    length layering' = length layering /\
    forall i o, cell layering' i o
                = if decide (position node = Some (i, o)) then Some v
                  else cell layering i o.
Proof.
  intros Hr.
  destruct (rank node) as [r|] eqn:Er.
  - destruct (Hr r eq_refl) as (i & Hi & Hlt).
    destruct (lookup_lt_is_Some_2 layering i Hlt) as [row Hrow].
    destruct (order node ≫= array_index) as [o|] eqn:Eo.
    + assert (Hpos : position node = Some (i, o)).
      { unfold position. rewrite Er. simpl. rewrite Hi. simpl. by rewrite Eo. }
      assert (E : place layering v node
                  = Ok (<[i := sparse_set o v row]> layering)).
      { unfold place. rewrite Er. rewrite Hi. simpl. rewrite Hrow. simpl.
        by rewrite Eo. }
      eexists. split; [exact E|]. split; [by rewrite length_insert|].
      intros i' o'. rewrite (cell_insert _ _ _ _ _ _ _ Hrow), Hpos.
      destruct (decide (i' = i /\ o' = o)) as [[-> ->]|Hne].
      * by rewrite decide_True.
      * rewrite decide_False; [done|]. intros [= -> ->]. tauto.
    + assert (Hpos : position node = None).
      { unfold position. rewrite Er. simpl. rewrite Hi. simpl. by rewrite Eo. }
      assert (E : place layering v node = Ok layering).
      { unfold place. rewrite Er. rewrite Hi. simpl. rewrite Hrow. simpl.
        by rewrite Eo. }
      exists layering. split; [exact E|]. split; [done|].
      intros i' o'. rewrite Hpos. by rewrite decide_False.
  - assert (Hpos : position node = None).
    { unfold position. by rewrite Er. }
    assert (E : place layering v node = Ok layering).
    { unfold place. by rewrite Er. }
    exists layering. split; [exact E|]. split; [done|].
    intros i' o'. rewrite Hpos. by rewrite decide_False.
Qed.

Lemma place_fold (es : list (NodeId * RankedNode))
    (layering : list (list (option NodeId))) :
  (forall vl r, vl ∈ es -> rank vl.2 = Some r ->
     exists i, array_index r = Some i /\ (i < length layering)%nat) ->
  exists layering',
    fold_result (fun layering vl => place layering vl.1 vl.2) es layering
      = Ok layering' /\
    length layering' = length layering /\
    forall i o, cell layering' i o
                = match occupant i o es with
                  | Some v => Some v
                  | None => cell layering i o
                  end.
Proof.
  revert layering. induction es as [|[v node] es IH]; intros layering Hr.
  - exists layering. split; [done|]. split; [done|]. done.
  - destruct (place_Ok layering v node) as (l1 & E1 & Hl1 & Hc1).
    { intros r. apply (Hr (v, node)), list_elem_of_here. }
    destruct (IH l1) as (l2 & E2 & Hl2 & Hc2).
    { intros vl r Hin. rewrite Hl1. by apply Hr, list_elem_of_further. }
    exists l2. simpl. rewrite E1. simpl. split; [exact E2|].
    split; [congruence|]. intros i o.
    rewrite Hc2, occupant_cons, Hc1.
    destruct (occupant i o es); [done|]. by destruct (decide _).
Qed.

Lemma place_fuel (layering : list (list (option NodeId))) (v : NodeId)
    (node : RankedNode) :
  place layering v node <> OutOfFuel.
Proof.
  unfold place. destruct (rank node) as [r|]; [|done].
  destruct (array_index r ≫= _) as [[i row]|]; [|done].
  by destruct (order node ≫= array_index).
Qed.

Lemma place_Throw (layering : list (list (option NodeId))) (v : NodeId)
    (node : RankedNode) (r : Q) :
  rank node = Some r -> array_index r = None -> place layering v node = Throw.
Proof. unfold place. by intros -> ->. Qed.

Lemma cell_replicate (n i o : nat) : cell (replicate n []) i o = None.
Proof.
  unfold cell. destruct (replicate n [] !! i) as [row|] eqn:E; [|done].
  apply lookup_replicate in E as [-> _]. done.
Qed.

(** The ranks that are indices name rows of the matrix. *)
Lemma rank_below_rows g (vl : NodeId * RankedNode) (r : Q) :
  vl ∈ node_entries g -> rank vl.2 = Some r ->
  is_Some (array_index r) ->
  exists i, array_index r = Some i /\
            (i < length (replicate (Z.to_nat (Qceiling (maxRank g + 1)))
                                   ([] : list (option NodeId))))%nat.
Proof.
  intros Hin Hr [i Hi]. exists i. split; [done|]. rewrite length_replicate.
  destruct (maxRank_fold (node_entries g) 0) as (_ & Hall & _).
  apply (array_index_below r); [done|].
  destruct vl as [v node]. by apply (Hall v node).
Qed.

(** When every rank is an index, the rows are no more than an array
    holds. *)
Lemma ranks_fit g :
  Forall (fun vl : NodeId * RankedNode =>
            forall r, rank vl.2 = Some r -> is_Some (array_index r))
         (node_entries g) ->
  range_length (maxRank g + 1) = Ok (Z.to_nat (Qceiling (maxRank g + 1))).
Proof.
  intros Hall. destruct (maxRank_fold (node_entries g) 0) as (H0 & _ & Hatt).
  fold (maxRank g) in H0, Hatt.
  rewrite range_length_pos by lra.
  assert (Hle : (Qceiling (maxRank g + 1) <= max_array_length)%Z).
  { destruct Hatt as [E|(v & node & Hin & Hr)].
    - rewrite E. by vm_compute.
    - rewrite Forall_forall in Hall.
      destruct (Hall (v, node) Hin _ Hr) as [i Hi].
      apply array_index_Some in Hi as (Hq & _ & Hm).
      assert (E : maxRank g + 1 == inject_Z (Z.of_nat i + 1)).
      { rewrite inject_Z_plus, Hq. reflexivity. }
      rewrite (Qceiling_comp _ _ E), Qceiling_Z. lia. }
  by rewrite (proj2 (Z.leb_le _ _) Hle).
Qed.

(** A rank that is a whole number beyond the indices leaves more rows than
    an array holds; any other rank that is no index names no row. *)
Lemma buildLayerMatrix_Throw g (v : NodeId) (node : RankedNode) (r : Q) :
  (v, node) ∈ node_entries g -> rank node = Some r -> array_index r = None ->
  buildLayerMatrix g = Throw.
Proof.
  intros Hin Hr Hi. unfold buildLayerMatrix.
  destruct (range_length (maxRank g + 1)) as [n| |] eqn:E; [|done|].
  - cbn [rbind]. apply (fold_result_Throw _ _ (v, node)); [|done|].
    + intros a [v' node']. apply place_fuel.
    + intros a. by apply (place_Throw a v node r).
  - unfold range_length in E. by destruct (_ <=? _)%Z.
Qed.

Lemma buildLayerMatrix_cases g :
  (Forall (fun vl : NodeId * RankedNode =>
             forall r, rank vl.2 = Some r -> is_Some (array_index r))
          (node_entries g) /\
   exists layering,
     buildLayerMatrix g = Ok layering /\
     length layering = Z.to_nat (Qceiling (maxRank g + 1)) /\
     forall i o, cell layering i o = occupant i o (node_entries g)) \/
  ((exists v node r, (v, node) ∈ node_entries g /\ rank node = Some r /\
                     array_index r = None) /\
   buildLayerMatrix g = Throw).
Proof.
  set (ok := fun vl : NodeId * RankedNode =>
               match rank vl.2 with
               | Some r => is_Some (array_index r)
               | None => True
               end).
  assert (Hdec : forall vl, Decision (ok vl)).
  { intros vl. unfold ok. destruct (rank vl.2); apply _. }
  destruct (decide (Forall ok (node_entries g))) as [Hall|Hex].
  - left. rewrite Forall_forall in Hall.
    assert (Hall' : forall vl r, vl ∈ node_entries g -> rank vl.2 = Some r ->
                                 is_Some (array_index r)).
    { intros vl r Hin Hr. specialize (Hall vl Hin). unfold ok in Hall.
      by rewrite Hr in Hall. }
    assert (HF : Forall (fun vl : NodeId * RankedNode =>
                           forall r, rank vl.2 = Some r -> is_Some (array_index r))
                        (node_entries g)).
    { apply Forall_forall. intros vl Hin r Hr. by apply (Hall' vl). }
    split; [exact HF|].
    destruct (place_fold (node_entries g)
                (replicate (Z.to_nat (Qceiling (maxRank g + 1))) []))
      as (layering & E & Hlen & Hcell).
    { intros vl r Hin Hr. apply (rank_below_rows g vl r Hin Hr).
      by apply (Hall' vl). }
    exists layering. split.
    { unfold buildLayerMatrix. rewrite (ranks_fit g HF). exact E. }
    split.
    { by rewrite Hlen, length_replicate. }
    intros i o. rewrite Hcell, cell_replicate. by destruct (occupant _ _ _).
  - right. apply not_Forall_Exists in Hex; [|exact Hdec].
    apply Exists_exists in Hex as ([v node] & Hin & Hbad).
    unfold ok in Hbad. simpl in Hbad.
    destruct (rank node) as [r|] eqn:Er; [|by destruct Hbad].
    assert (Hi : array_index r = None).
    { destruct (array_index r); [|done]. by destruct Hbad. }
    split; [by exists v, node, r|].
    by apply (buildLayerMatrix_Throw g v node r).
Qed.

(** X24. When [buildLayerMatrix] returns, the matrix has one row for each whole
    number from 0 to [maxRank], and the entry in row [i] and column [o] is
    the last of the nodes of rank [i] and order [o] in the order of
    [g.nodes()], or a hole when there is none. *)
Theorem buildLayerMatrix_cells g (layering : list (list (option NodeId))) :
  buildLayerMatrix g = Ok layering ->
  length layering = Z.to_nat (Qceiling (maxRank g + 1)) /\
  forall i o, cell layering i o = occupant i o (node_entries g).
Proof.
  intros E.
  destruct (buildLayerMatrix_cases g) as [(_ & l & E' & H)|[_ E']]; [|congruence].
  assert (l = layering) as -> by congruence. exact H.
Qed.

(** X25. [buildLayerMatrix] throws exactly when a node has a rank that is
    no index of an array, that is, no whole number from 0 below [2^32 - 1],
    and returns a matrix otherwise: a rank that is negative or not whole
    names no row, and for a whole rank from [2^32 - 1] on [_.range] is asked
    for more rows than an array holds. *)
Theorem buildLayerMatrix_throws_iff g :
  (buildLayerMatrix g = Throw <->
   exists v node r,
     (v, node) ∈ node_entries g /\ rank node = Some r /\
     ~ exists i : nat, r == inject_Z (Z.of_nat i) /\
                       (Z.of_nat i < 4294967295)%Z) /\
  (buildLayerMatrix g <> Throw -> exists layering, buildLayerMatrix g = Ok layering).
Proof.
  destruct (buildLayerMatrix_cases g) as [(Hall & l & E & _)|[Hex E]].
  - split; [|by eauto]. rewrite E. split; [done|].
    intros (v & node & r & Hin & Hr & Hi). rewrite Forall_forall in Hall.
    destruct (Hall (v, node) Hin r Hr) as [i Hi'].
    apply array_index_None in Hi. congruence.
  - split; [|by intros []]. split; [|done]. intros _.
    destruct Hex as (v & node & r & Hin & Hr & Hi).
    exists v, node, r. split; [done|]. split; [done|].
    by apply array_index_None.
Qed.
End LayerMatrixFacts.

Lemma buildLayerMatrix_cells_witness :
  Ranks.buildLayerMatrix LayerExamples.three_ranked
  = Ok [[Some "a"%string]; [None; Some "d"%string]] /\
  cell [[Some "a"%string]; [None; Some "d"%string]] 1 1
  = occupant 1 1 (Graphlib.node_entries LayerExamples.three_ranked).
Proof.
  split; [reflexivity|].
  apply (buildLayerMatrix_cells LayerExamples.three_ranked). reflexivity.
Defined.

(** A rank of [2^32 - 1] asks [_.range] for more rows than an array
    holds. *)
Example buildLayerMatrix_far_rank :
  Ranks.buildLayerMatrix LayerExamples.far_rank = Throw.
Proof. reflexivity. Qed.

(** ** [removeEmptyRanks] *)

Section EmptyRankFacts.
Import Graphlib Ranks.
Local Open Scope Q_scope.

Lemma sparse_get_push_layer (layers : list (option (list NodeId))) (i j : nat)
    (v : NodeId) :
  sparse_get j (push_layer layers i v)
  = if decide (j = i) then Some (default [] (sparse_get i layers) ++ [v])
    else sparse_get j layers.
Proof.
  unfold push_layer. destruct (decide (j = i)) as [->|Hne].
  - apply sparse_get_set_eq.
  - apply sparse_get_set_ne. congruence.
Qed.

Lemma layer_nodes_cons (offset : option Q) (v : NodeId) (node : RankedNode)
    (es : list (NodeId * RankedNode)) (j : nat) :
  layer_nodes offset ((v, node) :: es) j
  = if decide (layer_index offset node = Some j)
    then v :: layer_nodes offset es j else layer_nodes offset es j.
Proof.
  unfold layer_nodes. rewrite filter_cons. simpl.
  by destruct (decide (layer_index offset node = Some j)).
Qed.

Lemma layers_fold (offset : option Q) (es : list (NodeId * RankedNode))
    (acc : list (option (list NodeId))) (j : nat) :
  sparse_get j
    (fold_left (fun layers vl =>
                  match layer_index offset vl.2 with
                  | Some i => push_layer layers i vl.1
                  | None => layers
                  end) es acc)
  = match layer_nodes offset es j with
    | [] => sparse_get j acc
    | ids => Some (default [] (sparse_get j acc) ++ ids)
    end.
Proof.
  revert acc. induction es as [|[v node] es IH]; intros acc; [done|].
  cbn [fold_left]. rewrite IH, layer_nodes_cons. cbn [fst snd].
  destruct (layer_index offset node) as [i|] eqn:Ei.
  - rewrite sparse_get_push_layer.
    destruct (decide (j = i)) as [->|Hne].
    + rewrite (decide_True (P := Some i = Some i)) by done.
      destruct (layer_nodes offset es i); [done|].
      cbn [default]. unfold id. by rewrite <- app_assoc.
    + by rewrite (decide_False (P := Some i = Some j)) by congruence.
  - by rewrite decide_False.
Qed.

Lemma layers_of_get {EL} (g : Graph RankConfig RankedNode EL) (offset : option Q)
    (j : nat) :
  sparse_get j (layers_of g offset)
  = match layer_nodes offset (node_entries g) j with
    | [] => None
    | ids => Some ids
    end.
Proof.
  unfold layers_of. rewrite layers_fold. by destruct (layer_nodes _ _ _).
Qed.

Lemma elem_of_layer_nodes (offset : option Q) (es : list (NodeId * RankedNode))
    (j : nat) (v : NodeId) :
  v ∈ layer_nodes offset es j <->
  exists node, (v, node) ∈ es /\ layer_index offset node = Some j.
Proof.
  unfold layer_nodes. rewrite list_elem_of_fmap. split.
  - intros ([v' node] & -> & [Hi Hin]%list_elem_of_filter). by exists node.
  - intros (node & Hin & Hi). exists (v, node). split; [done|].
    by apply list_elem_of_filter.
Qed.

Lemma occupied_true (offset : option Q) (es : list (NodeId * RankedNode)) (j : nat) :
  occupied offset es j = true <-> layer_nodes offset es j <> [].
Proof.
  unfold occupied. rewrite bool_decide_eq_true, Exists_exists. split.
  - intros ([v node] & Hin & Hi) E.
    assert (H : v ∈ layer_nodes offset es j)
      by (apply elem_of_layer_nodes; by exists node).
    rewrite E in H. by apply elem_of_nil in H.
  - intros Hne. destruct (layer_nodes offset es j) as [|v ids] eqn:E; [done|].
    assert (H : v ∈ layer_nodes offset es j) by (rewrite E; apply list_elem_of_here).
    apply elem_of_layer_nodes in H as (node & Hin & Hi). by exists (v, node).
Qed.

Lemma layer_nodes_NoDup (offset : option Q) (es : list (NodeId * RankedNode)) (j : nat) :
  NoDup es.*1 -> NoDup (layer_nodes offset es j).
Proof. intros Hnd. unfold layer_nodes. by apply filter_keys_NoDup. Qed.

Lemma add_rank_fold (delta : Q) (vs : list NodeId) (nodes : list (NodeId * RankedNode)) :
  NoDup vs ->
  (fold_left (add_rank delta) vs nodes).*1 = nodes.*1 /\
  forall v, assoc_get v (fold_left (add_rank delta) vs nodes)
            = if decide (v ∈ vs)
              then (fun node => mkRankedNode ((fun r => r + delta) <$> rank node)
                                             (order node))
                   <$> assoc_get v nodes
              else assoc_get v nodes.
Proof.
  revert nodes. induction vs as [|u vs IH]; intros nodes Hnd.
  - split; [done|]. intros v. by rewrite decide_False by apply not_elem_of_nil.
  - apply NoDup_cons in Hnd as [Hu Hnd]. cbn [fold_left].
    destruct (IH (add_rank delta nodes u) Hnd) as [Hk Hget].
    assert (Hk1 : (add_rank delta nodes u).*1 = nodes.*1).
    { unfold add_rank. destruct (assoc_get u nodes) as [node|] eqn:E; [|done].
      apply assoc_set_keys_in. apply assoc_get_is_Some. by rewrite E. }
    split; [congruence|]. intros v. rewrite Hget.
    destruct (decide (v = u)) as [->|Hne].
    + rewrite decide_False by done. rewrite decide_True by apply list_elem_of_here.
      unfold add_rank. destruct (assoc_get u nodes) as [node|] eqn:E.
      * by rewrite assoc_get_set_eq.
      * by rewrite E.
    + assert (E : assoc_get v (add_rank delta nodes u) = assoc_get v nodes).
      { unfold add_rank. destruct (assoc_get u nodes) as [node|]; [|done].
        by apply assoc_get_set_ne. }
      rewrite E. destruct (decide (v ∈ vs)) as [Hin|Hin].
      * by rewrite decide_True by by apply list_elem_of_further.
      * rewrite decide_False; [done|]. by intros [?|?]%elem_of_cons.
Qed.

Lemma shift_loop_S (f : option Q) (layers : list (option (list NodeId)))
    (init : Q * list (NodeId * RankedNode)) (k : nat) (x : option (list NodeId)) :
  layers !! k = Some x ->
  fold_left (shift_layer f) (imap pair (take (S k) layers)) init
  = shift_layer f (fold_left (shift_layer f) (imap pair (take k layers)) init)
                (k, x).
Proof.
  intros Hx. rewrite (take_S_r _ _ _ Hx), imap_app, fold_left_app. simpl.
  rewrite length_take, Nat.min_l; [by rewrite Nat.add_0_r|].
  apply lookup_lt_Some in Hx. lia.
Qed.

Lemma delta_after_S (n : nat) : delta_after (S n) = delta_after n - 1.
Proof. reflexivity. Qed.

Lemma delta_after_eq (n : nat) : delta_after n == - inject_Z (Z.of_nat n).
Proof.
  induction n as [|n IH]; [reflexivity|].
  rewrite delta_after_S, IH, Nat2Z.inj_succ. unfold Z.succ.
  rewrite inject_Z_plus. ring.
Qed.

Lemma layer_index_occupied (offset : option Q) (es : list (NodeId * RankedNode))
    (v : NodeId) (node : RankedNode) (i : nat) :
  (v, node) ∈ es -> layer_index offset node = Some i -> occupied offset es i = true.
Proof.
  intros Hin Hi. apply occupied_true. intros E.
  assert (H : v ∈ layer_nodes offset es i)
    by (apply elem_of_layer_nodes; by exists node).
  rewrite E in H. by apply elem_of_nil in H.
Qed.

Lemma gaps_below_S_occupied (f offset : option Q) (es : list (NodeId * RankedNode))
    (i : nat) :
  occupied offset es i = true ->
  gaps_below f offset es (S i) = gaps_below f offset es i.
Proof. intros H. cbn [gaps_below]. rewrite H. simpl. lia. Qed.

Lemma gaps_below_le (f offset : option Q) (es : list (NodeId * RankedNode))
    (i j : nat) :
  (i <= j)%nat ->
  (gaps_below f offset es i <= gaps_below f offset es j
   <= gaps_below f offset es i + (j - i))%nat.
Proof.
  induction j as [|j IH]; intros Hij.
  - assert (i = 0)%nat as -> by lia. simpl. lia.
  - destruct (decide (i = S j)) as [->|Hne]; [lia|].
    specialize (IH ltac:(lia)). cbn [gaps_below].
    destruct (negb _ && negb _); lia.
Qed.

Section ShiftLoop.
Context {EL : Type} (g : Graph RankConfig RankedNode EL).
Context (Hnd : NoDup (nodes g)).

Lemma shift_loop_inv (k : nat) :
  (k <= length (layers_of g (lodash_min (ranks g))))%nat ->
  exists delta nodes',
    fold_left (shift_layer (nodeRankFactor (graph g)))
              (imap pair (take k (layers_of g (lodash_min (ranks g)))))
              (0, node_entries g) = (delta, nodes') /\
    delta = delta_after (gaps_below (nodeRankFactor (graph g))
                           (lodash_min (ranks g)) (node_entries g) k) /\
    nodes'.*1 = nodes g /\
    forall v nd, node g v = Some nd ->
      assoc_get v nodes'
      = Some (match layer_index (lodash_min (ranks g)) nd with
              | Some i =>
                  if decide (i < k)%nat
                  then shift_by (delta_after
                                   (gaps_below (nodeRankFactor (graph g))
                                      (lodash_min (ranks g)) (node_entries g) i))
                                nd
                  else nd
              | None => nd
              end).
Proof.
  set (offset := lodash_min (ranks g)). set (f := nodeRankFactor (graph g)).
  set (L := layers_of g offset).
  induction k as [|k IH]; intros Hk.
  - exists 0, (node_entries g). split; [done|]. split; [done|]. split; [done|].
    intros v nd Hv. f_equal. destruct (layer_index offset nd); [|done].
    by rewrite decide_False by lia.
  - destruct IH as (delta & nodes' & E & Hdelta & Hkeys & Hget); [lia|].
    destruct (lookup_lt_is_Some_2 L k ltac:(lia)) as [x Hx].
    rewrite (shift_loop_S f L _ k x Hx), E.
    pose proof (layers_of_get g offset k) as Hlk. fold L in Hlk.
    unfold sparse_get in Hlk. rewrite Hx in Hlk. simpl in Hlk.
    assert (Hidx : forall v nd, node g v = Some nd ->
                     layer_index offset nd = Some k ->
                     v ∈ layer_nodes offset (node_entries g) k).
    { intros v nd Hv Hi. apply elem_of_layer_nodes. exists nd.
      split; [|done]. by apply assoc_get_Some_elem. }
    destruct (layer_nodes offset (node_entries g) k) as [|v0 ids] eqn:Eids.
    + subst x. cbn [shift_layer].
      assert (Hocc : occupied offset (node_entries g) k = false).
      { apply not_true_iff_false. rewrite occupied_true, Eids. intros H. by apply H. }
      assert (Hlook : forall v nd, node g v = Some nd ->
                assoc_get v nodes'
                = Some (match layer_index offset nd with
                        | Some i =>
                            if decide (i < S k)%nat
                            then shift_by (delta_after (gaps_below f offset (node_entries g) i)) nd
                            else nd
                        | None => nd
                        end)).
      { intros v nd Hv. rewrite (Hget v nd Hv).
        destruct (layer_index offset nd) as [i|] eqn:Ei; [|done].
        destruct (decide (i = k)) as [->|Hne].
        - specialize (Hidx v nd Hv Ei). by apply elem_of_nil in Hidx.
        - destruct (decide (i < k)%nat).
          + by rewrite decide_True by lia.
          + by rewrite decide_False by lia. }
      cbn [gaps_below]. rewrite Hocc. cbn [negb andb].
      destruct (is_multiple k f); cbn [negb].
      * exists delta, nodes'. split; [done|]. split; [by rewrite Nat.add_0_r|].
        split; [done|]. exact Hlook.
      * exists (delta - 1), nodes'. split; [done|].
        split; [by rewrite Nat.add_1_r, delta_after_S, Hdelta|].
        split; [done|]. exact Hlook.
    + subst x. cbn [shift_layer].
      assert (Hocc : occupied offset (node_entries g) k = true).
      { apply occupied_true. by rewrite Eids. }
      rewrite (gaps_below_S_occupied f offset _ k Hocc).
      destruct (is_zero delta) eqn:Hz.
      * exists delta, nodes'. split; [done|]. split; [done|]. split; [done|].
        intros v nd Hv. rewrite (Hget v nd Hv).
        destruct (layer_index offset nd) as [i|] eqn:Ei; [|done].
        destruct (decide (i = k)) as [->|Hne].
        -- rewrite decide_False by lia. rewrite decide_True by lia.
           unfold shift_by. by rewrite <- Hdelta, Hz.
        -- destruct (decide (i < k)%nat).
           ++ by rewrite decide_True by lia.
           ++ by rewrite decide_False by lia.
      * destruct (add_rank_fold delta (v0 :: ids) nodes') as [Hk2 Hget2].
        { rewrite <- Eids. by apply layer_nodes_NoDup. }
        exists delta, (fold_left (add_rank delta) (v0 :: ids) nodes').
        split; [done|]. split; [done|]. split; [congruence|].
        intros v nd Hv. rewrite Hget2, (Hget v nd Hv).
        destruct (layer_index offset nd) as [i|] eqn:Ei.
        -- destruct (decide (i = k)) as [->|Hne].
           ++ rewrite decide_True by by apply (Hidx v nd).
              rewrite decide_False by lia. rewrite decide_True by lia.
              simpl. unfold shift_by. by rewrite <- Hdelta, Hz.
           ++ rewrite decide_False.
              ** destruct (decide (i < k)%nat).
                 --- by rewrite decide_True by lia.
                 --- by rewrite decide_False by lia.
              ** rewrite <- Eids. intros (nd' & Hin & Hi)%elem_of_layer_nodes.
                 assert (nd' = nd) as ->.
                 { apply (assoc_get_elem_NoDup v nd') in Hin; [|exact Hnd].
                   unfold node in Hv. congruence. }
                 congruence.
        -- rewrite decide_False; [done|].
           rewrite <- Eids. intros (nd' & Hin & Hi)%elem_of_layer_nodes.
           assert (nd' = nd) as ->.
           { apply (assoc_get_elem_NoDup v nd') in Hin; [|exact Hnd].
             unfold node in Hv. congruence. }
           congruence.
Qed.

(** The labels that [removeEmptyRanks] leaves. *)
Lemma removeEmptyRanks_labels :
  graph (removeEmptyRanks g) = graph g /\
  edge_entries (removeEmptyRanks g) = edge_entries g /\
  parent_entries (removeEmptyRanks g) = parent_entries g /\
  nodes (removeEmptyRanks g) = nodes g /\
  forall v nd, node g v = Some nd ->
    node (removeEmptyRanks g) v
    = Some (match layer_index (lodash_min (ranks g)) nd with
            | Some i =>
                shift_by (delta_after
                            (gaps_below (nodeRankFactor (graph g))
                               (lodash_min (ranks g)) (node_entries g) i))
                         nd
            | None => nd
            end).
Proof.
  destruct (shift_loop_inv (length (layers_of g (lodash_min (ranks g)))))
    as (delta & nodes' & E & _ & Hkeys & Hget); [done|].
  rewrite firstn_all in E. unfold removeEmptyRanks. cbv zeta. rewrite E.
  split; [done|]. split; [done|]. split; [done|]. split; [exact Hkeys|].
  intros v nd Hv. unfold Graphlib.node at 1. simpl. rewrite (Hget v nd Hv).
  destruct (layer_index (lodash_min (ranks g)) nd) as [i|] eqn:Ei; [|done].
  rewrite decide_True; [done|].
  pose proof (layers_of_get g (lodash_min (ranks g)) i) as Hl.
  assert (Hin : v ∈ layer_nodes (lodash_min (ranks g)) (node_entries g) i).
  { apply elem_of_layer_nodes. exists nd. split; [|done].
    by apply assoc_get_Some_elem. }
  destruct (layer_nodes _ _ i) as [|v0 ids]; [by apply elem_of_nil in Hin|].
  unfold sparse_get in Hl.
  destruct (layers_of g (lodash_min (ranks g)) !! i) as [x|] eqn:Ex; [|done].
  by apply lookup_lt_Some in Ex.
Qed.
End ShiftLoop.

Lemma shift_by_rank (delta : Q) (nd : RankedNode) (r : Q) :
  rank nd = Some r ->
  order (shift_by delta nd) = order nd /\
  exists r', rank (shift_by delta nd) = Some r' /\ r' == r + delta.
Proof.
  intros Hr. unfold shift_by. destruct (is_zero delta) eqn:Hz.
  - split; [done|]. exists r. split; [done|]. apply is_zero_eq in Hz. lra.
  - simpl. split; [done|]. rewrite Hr. simpl. by exists (r + delta).
Qed.

Lemma layer_index_Some (offset : option Q) (nd : RankedNode) (i : nat) :
  layer_index offset nd = Some i ->
  exists r off, rank nd = Some r /\ offset = Some off /\
                r - off == inject_Z (Z.of_nat i).
Proof.
  unfold layer_index. destruct (rank nd) as [r|]; [|done].
  destruct offset as [off|]; [|done].
  intros [H _]%array_index_Some. by exists r, off.
Qed.

(** A number of whole ranks above the least one is the index of a layer
    when it is below the greatest length of an array, and names no layer
    otherwise. *)
Lemma rank_steps_cases (offset : option Q) (nd : RankedNode) (s : nat) :
  rank_steps offset nd = Some s ->
  exists r off,
    rank nd = Some r /\ offset = Some off /\
    r - off == inject_Z (Z.of_nat s) /\
    ((layer_index offset nd = Some s /\ (Z.of_nat s < max_array_length)%Z) \/
     (layer_index offset nd = None /\ (max_array_length <= Z.of_nat s)%Z)).
Proof.
  unfold rank_steps, layer_index, array_index.
  destruct (rank nd) as [r|]; [|done]. destruct offset as [off|]; [|done].
  destruct (Qle_bool 0 (r - off)) eqn:H0; [|done].
  destruct (is_integer (r - off)) eqn:Hi; [|done]. cbn [andb].
  intros [= <-]. exists r, off. split; [done|]. split; [done|].
  apply Qle_bool_iff in H0. apply is_integer_eq in Hi.
  assert (Hf : (0 <= Qfloor (r - off))%Z).
  { change 0%Z with (Qfloor 0). by apply Qfloor_resp_le. }
  rewrite Z2Nat.id by done. split; [done|].
  destruct (Qfloor (r - off) <? max_array_length)%Z eqn:Hm.
  - left. apply Z.ltb_lt in Hm. by split.
  - right. apply Z.ltb_ge in Hm. by split.
Qed.

Section EmptyRankTheorems.
Context {EL : Type}.
Implicit Types g : Graph RankConfig RankedNode EL.

(** X26. [removeEmptyRanks] lowers the rank of every node by the number of
    layers below its own that hold no node and whose index is not a
    multiple of [nodeRankFactor]; the layers are counted from the least
    rank.  A node whose rank is not a whole number of ranks above the
    least one keeps its label, and nothing else changes. *)
Theorem removeEmptyRanks_closes_gaps g :
  NoDup (nodes g) ->
  graph (removeEmptyRanks g) = graph g /\
  edge_entries (removeEmptyRanks g) = edge_entries g /\
  parent_entries (removeEmptyRanks g) = parent_entries g /\
  nodes (removeEmptyRanks g) = nodes g /\
  forall v nd, node g v = Some nd ->
    exists nd',
      node (removeEmptyRanks g) v = Some nd' /\ order nd' = order nd /\
      match layer_index (lodash_min (ranks g)) nd with
      | Some i =>
          exists r r',
            rank nd = Some r /\ rank nd' = Some r' /\
            r' == r - inject_Z (Z.of_nat
                       (gaps_below (nodeRankFactor (graph g))
                          (lodash_min (ranks g)) (node_entries g) i))
      | None => nd' = nd
      end.
Proof.
  intros Hnd. destruct (removeEmptyRanks_labels g Hnd) as (Hg & He & Hp & Hk & Hl).
  split; [done|]. split; [done|]. split; [done|]. split; [done|].
  intros v nd Hv. eexists. split; [by apply Hl|].
  destruct (layer_index (lodash_min (ranks g)) nd) as [i|] eqn:Ei; [|done].
  destruct (layer_index_Some _ _ _ Ei) as (r & off & Hr & _ & _).
  destruct (shift_by_rank
              (delta_after (gaps_below (nodeRankFactor (graph g))
                              (lodash_min (ranks g)) (node_entries g) i)) nd r Hr)
    as (Ho & r' & Hr' & Hq).
  split; [done|]. exists r, r'. split; [done|]. split; [done|].
  rewrite Hq, delta_after_eq. ring.
Qed.

(** The order of the ranks of two nodes that are in layers. *)
Lemma keeps_order_in_layers g (u v : NodeId) (nu nv : RankedNode)
    (ru rv : Q) :
  NoDup (nodes g) ->
  node g u = Some nu -> node g v = Some nv ->
  rank nu = Some ru -> rank nv = Some rv ->
  is_Some (layer_index (lodash_min (ranks g)) nu) ->
  is_Some (layer_index (lodash_min (ranks g)) nv) ->
  exists nu' nv' ru' rv',
    node (removeEmptyRanks g) u = Some nu' /\
    node (removeEmptyRanks g) v = Some nv' /\
    rank nu' = Some ru' /\ rank nv' = Some rv' /\
    ru' <= ru /\
    (ru < rv -> ru' < rv') /\
    (ru == rv -> ru' == rv').
Proof.
  intros Hnd Hu Hv Hru Hrv [iu Hiu] [iv Hiv].
  destruct (removeEmptyRanks_labels g Hnd) as (_ & _ & _ & _ & Hl).
  pose proof (Hl u nu Hu) as Hu'. pose proof (Hl v nv Hv) as Hv'.
  rewrite Hiu in Hu'. rewrite Hiv in Hv'.
  set (f := nodeRankFactor (graph g)) in *.
  set (offset := lodash_min (ranks g)) in *.
  set (G := gaps_below f offset (node_entries g)) in *.
  destruct (shift_by_rank (delta_after (G iu)) nu ru Hru) as (_ & ru' & Hru' & Equ).
  destruct (shift_by_rank (delta_after (G iv)) nv rv Hrv) as (_ & rv' & Hrv' & Eqv).
  exists (shift_by (delta_after (G iu)) nu), (shift_by (delta_after (G iv)) nv),
    ru', rv'.
  split; [exact Hu'|]. split; [exact Hv'|].
  split; [exact Hru'|]. split; [exact Hrv'|].
  rewrite delta_after_eq in Equ, Eqv.
  destruct (layer_index_Some _ _ _ Hiu) as (ru0 & off & Hru0 & Hoff & Eiu).
  destruct (layer_index_Some _ _ _ Hiv) as (rv0 & off' & Hrv0 & Hoff' & Eiv).
  assert (ru0 = ru) as -> by congruence. assert (rv0 = rv) as -> by congruence.
  assert (off' = off) as -> by congruence.
  assert (Hocc : occupied offset (node_entries g) iu = true).
  { apply (layer_index_occupied offset _ u nu); [|done].
    by apply assoc_get_Some_elem. }
  assert (H0 : 0 <= inject_Z (Z.of_nat (G iu))).
  { change 0 with (inject_Z 0). rewrite <- Zle_Qle. lia. }
  split; [lra|]. split.
  - intros Hlt.
    assert (Hi : (iu < iv)%nat).
    { assert (H : inject_Z (Z.of_nat iu) < inject_Z (Z.of_nat iv)) by lra.
      rewrite <- Zlt_Qlt in H. lia. }
    pose proof (gaps_below_le f offset (node_entries g) (S iu) iv Hi) as [_ Hle].
    fold G in Hle. unfold G in Hle at 2.
    rewrite (gaps_below_S_occupied f offset _ iu Hocc) in Hle. fold G in Hle.
    assert (Hz : (Z.of_nat (G iv) + Z.of_nat iu + 1 <= Z.of_nat (G iu) + Z.of_nat iv)%Z)
      by lia.
    rewrite Zle_Qle, !inject_Z_plus in Hz. simpl inject_Z in Hz at 3.
    change (inject_Z 1) with 1 in Hz. lra.
  - intros Heq.
    assert (Hi : iu = iv).
    { assert (H : inject_Z (Z.of_nat iu) == inject_Z (Z.of_nat iv))
        by (apply Qle_antisym; lra).
      apply (proj1 (inject_Z_injective _ _)) in H. lia. }
    subst iv. apply Qle_antisym; lra.
Qed.

(** X27. [removeEmptyRanks] keeps the order of the ranks: of two nodes whose
    ranks are whole numbers of ranks above the least one, the one of lower
    rank still has the lower rank, nodes of equal rank still have equal
    ranks, and no rank has grown.  This holds also of a node so far above
    the least rank that it is in no layer, which keeps its rank. *)
Theorem removeEmptyRanks_keeps_order g (u v : NodeId) (nu nv : RankedNode)
    (ru rv : Q) :
  NoDup (nodes g) ->
  node g u = Some nu -> node g v = Some nv ->
  rank nu = Some ru -> rank nv = Some rv ->
  is_Some (rank_steps (lodash_min (ranks g)) nu) ->
  is_Some (rank_steps (lodash_min (ranks g)) nv) ->
  exists nu' nv' ru' rv',
    node (removeEmptyRanks g) u = Some nu' /\
    node (removeEmptyRanks g) v = Some nv' /\
    rank nu' = Some ru' /\ rank nv' = Some rv' /\
    ru' <= ru /\
    (ru < rv -> ru' < rv') /\
    (ru == rv -> ru' == rv').
Proof.
  intros Hnd Hu Hv Hru Hrv [su Hsu] [sv Hsv].
  destruct (rank_steps_cases _ _ _ Hsu) as (ru0 & off & Hru0 & Hoff & Equ & Hcu).
  destruct (rank_steps_cases _ _ _ Hsv) as (rv0 & off' & Hrv0 & Hoff' & Eqv & Hcv).
  assert (ru0 = ru) as -> by congruence. assert (rv0 = rv) as -> by congruence.
  assert (off' = off) as -> by congruence.
  destruct (removeEmptyRanks_labels g Hnd) as (_ & _ & _ & _ & Hl).
  pose proof (Hl u nu Hu) as Hu'. pose proof (Hl v nv Hv) as Hv'.
  destruct Hcu as [[Hiu Hbu]|[Hiu Hbu]], Hcv as [[Hiv Hbv]|[Hiv Hbv]].
  - apply (keeps_order_in_layers g u v nu nv ru rv); try done; by eexists.
  - rewrite Hiu in Hu'. rewrite Hiv in Hv'.
    destruct (shift_by_rank
                (delta_after (gaps_below (nodeRankFactor (graph g))
                                (lodash_min (ranks g)) (node_entries g) su))
                nu ru Hru) as (_ & ru' & Hru' & Eq').
    rewrite delta_after_eq in Eq'.
    assert (H0 : 0 <= inject_Z (Z.of_nat
                   (gaps_below (nodeRankFactor (graph g))
                      (lodash_min (ranks g)) (node_entries g) su))).
    { change 0 with (inject_Z 0). rewrite <- Zle_Qle. lia. }
    eexists _, nv, ru', rv.
    split; [exact Hu'|]. split; [exact Hv'|]. split; [exact Hru'|].
    split; [exact Hrv|]. split; [lra|]. split; [lra|].
    intros Heq. exfalso.
    assert (H : inject_Z (Z.of_nat su) == inject_Z (Z.of_nat sv))
      by (apply Qle_antisym; lra).
    apply (proj1 (inject_Z_injective _ _)) in H. lia.
  - rewrite Hiu in Hu'. rewrite Hiv in Hv'.
    assert (Hge : inject_Z (Z.of_nat sv) < inject_Z (Z.of_nat su)).
    { rewrite <- Zlt_Qlt. lia. }
    destruct (shift_by_rank
                (delta_after (gaps_below (nodeRankFactor (graph g))
                                (lodash_min (ranks g)) (node_entries g) sv))
                nv rv Hrv) as (_ & rv' & Hrv' & Eq').
    eexists nu, _, ru, rv'.
    split; [exact Hu'|]. split; [exact Hv'|]. split; [exact Hru|].
    split; [exact Hrv'|]. split; [lra|]. split; intros H; exfalso; lra.
  - rewrite Hiu in Hu'. rewrite Hiv in Hv'.
    exists nu, nv, ru, rv.
    split; [exact Hu'|]. split; [exact Hv'|]. split; [exact Hru|].
    split; [exact Hrv|]. split; [lra|]. done.
Qed.
End EmptyRankTheorems.

End EmptyRankFacts.

Lemma removeEmptyRanks_closes_gaps_witness :
  Graphlib.node_entries (Ranks.removeEmptyRanks LayerExamples.sparse_ranks)
  = [("a"%string, Ranks.mkRankedNode (Some 10%Q) None);
     ("b"%string, Ranks.mkRankedNode (Some (13 + (0 - 1 - 1))%Q) None);
     ("c"%string, Ranks.mkRankedNode (Some (14 + (0 - 1 - 1))%Q) None)] /\
  Graphlib.nodes (Ranks.removeEmptyRanks LayerExamples.sparse_ranks)
  = Graphlib.nodes LayerExamples.sparse_ranks.
Proof.
  split; [reflexivity|].
  apply (removeEmptyRanks_closes_gaps LayerExamples.sparse_ranks).
  apply (bool_decide_unpack _). by vm_compute.
Defined.

Lemma removeEmptyRanks_keeps_order_witness :
  exists nu' nv' ru' rv',
    Graphlib.node (Ranks.removeEmptyRanks LayerExamples.sparse_ranks) "a"
      = Some nu' /\
    Graphlib.node (Ranks.removeEmptyRanks LayerExamples.sparse_ranks) "b"
      = Some nv' /\
    Ranks.rank nu' = Some ru' /\ Ranks.rank nv' = Some rv' /\
    (ru' < rv')%Q.
Proof.
  destruct (removeEmptyRanks_keeps_order LayerExamples.sparse_ranks "a" "b"
              (Ranks.mkRankedNode (Some 10%Q) None)
              (Ranks.mkRankedNode (Some 13%Q) None) 10%Q 13%Q)
    as (nu' & nv' & ru' & rv' & Hu & Hv & Hru & Hrv & _ & Hlt & _).
  - apply (bool_decide_unpack _). by vm_compute.
  - reflexivity.
  - reflexivity.
  - reflexivity.
  - reflexivity.
  - eexists. vm_compute. reflexivity.
  - eexists. vm_compute. reflexivity.
  - exists nu', nv', ru', rv'.
    split; [exact Hu|]. split; [exact Hv|]. split; [exact Hru|].
    split; [exact Hrv|]. apply Hlt. reflexivity.
Defined.

(** A node [2^32 - 1] ranks above the least one is in no layer: it keeps
    its rank. *)
Example removeEmptyRanks_far_rank :
  Graphlib.node_entries (Ranks.removeEmptyRanks LayerExamples.far_rank)
  = Graphlib.node_entries LayerExamples.far_rank.
Proof. reflexivity. Qed.

(** ** [translateGraph] and [updateInputGraph] on concrete graphs *)

Section PassWitnesses.
Import Graphlib Layout.
Local Open Scope Q_scope.


Lemma updateInputGraph_returns_witness :
  (updateInputGraph Examples.input_graph Examples.layout_graph).1 = Ok tt.
Proof.
  apply (updateInputGraph_returns Examples.input_graph Examples.layout_graph).
  - repeat constructor; simpl; intros _; by eexists.
  - repeat constructor; simpl; by eexists.
  - by eexists.
  - by eexists.
Defined.
End PassWitnesses.

(** ** [greedyFAS] on all graphs *)

Section GreedyFasAll.
Import Graphlib GreedyFas.
Context {GL NL EL : Type}.

(** X5. [greedyFAS] returns a result only for a graph with at most one node,
    and then the empty list: on a graph with more nodes no fuel is enough
    for a result, whatever identifiers [addNode] gives and whatever the
    weights. *)
Theorem greedyFAS_returns_iff (newNodeId : list NodeId -> NodeId)
    (g : Graph GL NL EL) (weightFn : Edge -> Z) (fuel : nat) :
  ((exists r, greedyFAS newNodeId fuel g weightFn = Ok r) <->
   (nodeCount g <= 1)%nat) /\
  (forall r, greedyFAS newNodeId fuel g weightFn = Ok r -> r = []).
Proof.
  destruct (decide (nodeCount g <= 1)%nat) as [Hs|Hl].
  - rewrite (greedyFAS_small newNodeId g weightFn fuel Hs). split.
    + split; [done|]. intros _. by exists [].
    + by intros r [= <-].
  - pose proof (greedyFAS_no_result newNodeId g weightFn fuel ltac:(lia)) as Hn.
    split.
    + split; [|lia]. intros [r Hr]. by destruct (Hn r).
    + intros r Hr. by destruct (Hn r).
Qed.
End GreedyFasAll.

(** ** [injectEdgeLabelProxies] and [removeEdgeLabelProxies] *)

Lemma assoc_get_app_l {K V} `{EqDecision K} (k : K) (l1 l2 : list (K * V)) :
  k ∈ l1.*1 -> assoc_get k (l1 ++ l2) = assoc_get k l1.
Proof.
  intros Hin. rewrite assoc_get_app.
  apply assoc_get_is_Some in Hin as [x Hx]. by rewrite Hx.
Qed.

Lemma assoc_get_app_r {K V} `{EqDecision K} (k : K) (l1 l2 : list (K * V)) :
  k ∉ l1.*1 -> assoc_get k (l1 ++ l2) = assoc_get k l2.
Proof.
  intros Hin. rewrite assoc_get_app.
  apply assoc_get_None in Hin. by rewrite Hin.
Qed.

Lemma fold_result_app {A B} (f : B -> A -> result B) (xs ys : list A) (acc : B) :
  fold_result f (xs ++ ys) acc = rbind (fold_result f xs acc) (fold_result f ys).
Proof.
  revert acc. induction xs as [|x xs IH]; intros acc; simpl; [done|].
  destruct (f acc x); simpl; [apply IH|done|done].
Qed.

Section ProxyFacts.
Import Graphlib UtilGraph Passes.
Local Open Scope Q_scope.
Context {GL : Type} (g : Graph GL ProxyNode ProxyEdge).
Context (Hwf : graph_wf g).
Implicit Types P : list (NodeId * ProxyNode).

Lemma node_with_nodes P (v : NodeId) :
  v ∈ nodes g -> node (with_nodes g (node_entries g ++ P)) v = node g v.
Proof. intros Hv. unfold node, with_nodes. simpl. by apply assoc_get_app_l. Qed.

Lemma edge_ends (e : Edge) (l : ProxyEdge) :
  (e, l) ∈ edge_entries g -> e_v e ∈ nodes g /\ e_w e ∈ nodes g.
Proof.
  intros Hin. destruct Hwf as (_ & _ & Hends). rewrite Forall_forall in Hends.
  apply Hends. apply list_elem_of_fmap. by exists (e, l).
Qed.

Lemma inject_proxy_step (fuel : nat) P (c : nat) (e : Edge) (l : ProxyEdge) :
  (e, l) ∈ edge_entries g ->
  NoDup (node_entries g ++ P).*1 ->
  (nodeCount g + length P < fuel)%nat ->
  exists P1 c1,
    inject_proxy fuel (with_nodes g (node_entries g ++ P), c) e
    = Ok (with_nodes g (node_entries g ++ P ++ P1), c1) /\
    NoDup (node_entries g ++ P ++ P1).*1 /\
    (length P1 <= 1)%nat /\
    (if has_label l then exists p, P1 = [p] /\ proxy_of g (e, l) p
     else P1 = []).
Proof.
  intros Hin Hnd Hfuel. destruct (edge_ends e l Hin) as [Hv Hw].
  destruct Hwf as (_ & Hnde & _).
  unfold inject_proxy.
  assert (Ee : edge (with_nodes g (node_entries g ++ P)) e = Some l).
  { unfold edge, with_nodes. simpl. by apply assoc_get_elem_NoDup. }
  rewrite Ee. fold (has_label l). destruct (has_label l).
  - rewrite !node_with_nodes by done.
    destruct (proj2 (assoc_get_is_Some (e_v e) (node_entries g)) Hv) as [v Ev].
    destruct (proj2 (assoc_get_is_Some (e_w e) (node_entries g)) Hw) as [w Ew].
    change (node g (e_v e) = Some v) in Ev. change (node g (e_w e) = Some w) in Ew.
    rewrite Ev, Ew. cbv zeta.
    set (label := mkProxyNode ((p_rank w - p_rank v) / 2 + p_rank v) None (Some e)).
    destruct (addDummyNode_Ok set_proxy_dummy fuel
                (with_nodes g (node_entries g ++ P)) "edge-proxy" label "_ep" c)
      as (id & c1 & E & _ & Hfree & _).
    { unfold nodeCount, with_nodes. simpl. rewrite length_app.
      unfold nodeCount in Hfuel. lia. }
    rewrite E. cbn [rbind].
    exists [(id, set_proxy_dummy "edge-proxy" label)], c1.
    assert (Hid : id ∉ (node_entries g ++ P).*1) by exact Hfree.
    split.
    { do 2 f_equal. unfold setNode, with_nodes. simpl. f_equal.
      rewrite assoc_set_notin by done. by rewrite <- app_assoc. }
    split.
    { rewrite app_assoc, fmap_app. simpl. apply NoDup_app. split; [done|].
      split; [|apply NoDup_singleton].
      intros k Hk ->%list_elem_of_singleton. by apply Hid. }
    split; [simpl; lia|].
    eexists. split; [done|]. eexists. split; [|done].
    unfold label_rank. cbn [fst]. rewrite Ev, Ew. reflexivity.
  - exists [], c. rewrite app_nil_r. split; [done|]. split; [done|].
    split; [simpl; lia|done].
Qed.

Lemma inject_fold (fuel : nat) (post : list (Edge * ProxyEdge)) P (c : nat) :
  (forall el, el ∈ post -> el ∈ edge_entries g) ->
  NoDup (node_entries g ++ P).*1 ->
  (nodeCount g + length P + length post < fuel)%nat ->
  exists P' c',
    fold_result (inject_proxy fuel) post.*1
                (with_nodes g (node_entries g ++ P), c)
    = Ok (with_nodes g (node_entries g ++ P ++ P'), c') /\
    NoDup (node_entries g ++ P ++ P').*1 /\
    Forall2 (proxy_of g)
            (filter (fun el : Edge * ProxyEdge => has_label el.2 = true) post) P'.
Proof.
  revert P c. induction post as [|[e l] post IH]; intros P c Hin Hnd Hfuel.
  - exists [], c. rewrite app_nil_r. split; [done|]. split; [done|]. constructor.
  - rewrite fmap_cons. cbn [fold_result fst].
    destruct (inject_proxy_step fuel P c e l) as (P1 & c1 & E & Hnd1 & Hlen & HP1).
    { apply Hin, list_elem_of_here. }
    { done. }
    { simpl in Hfuel. lia. }
    rewrite E. cbn [rbind].
    destruct (IH (P ++ P1) c1) as (P2 & c2 & E2 & Hnd2 & HP2).
    { intros el Hel. by apply Hin, list_elem_of_further. }
    { exact Hnd1. }
    { rewrite length_app. simpl in Hfuel. lia. }
    exists (P1 ++ P2), c2. rewrite <- !app_assoc in E2, Hnd2.
    split; [exact E2|]. split; [exact Hnd2|].
    rewrite filter_cons. cbn [snd]. destruct (has_label l).
    + destruct HP1 as (p & -> & Hp). rewrite decide_True by done.
      simpl. by constructor.
    + subst P1. rewrite decide_False by done. exact HP2.
Qed.

Lemma remove_fold_skip (vs : list NodeId) (cur : Graph GL ProxyNode ProxyEdge) :
  (forall v, v ∈ vs ->
     exists nd, node cur v = Some nd /\ p_dummy nd <> Some "edge-proxy"%string) ->
  fold_result remove_proxy vs cur = Ok cur.
Proof.
  induction vs as [|v vs IH]; intros H; [done|].
  simpl. destruct (H v (list_elem_of_here _ _)) as (nd & Hv & Hd).
  unfold remove_proxy at 1. rewrite Hv, bool_decide_eq_false_2 by done.
  simpl. apply IH. intros u Hu. by apply H, list_elem_of_further.
Qed.

Lemma remove_fold (els : list (Edge * ProxyEdge)) P (gl : GL)
    (N : list (NodeId * ProxyNode)) (E : list (Edge * ProxyEdge))
    (parents : list (NodeId * NodeId)) :
  Forall2 (proxy_of g) els P ->
  NoDup (N ++ P).*1 -> NoDup els.*1 ->
  (forall el, el ∈ els -> el.1 ∈ E.*1) ->
  (forall e, e ∈ E.*1 -> (e_v e ∉ P.*1) /\ (e_w e ∉ P.*1)) ->
  exists E' parents',
    fold_result remove_proxy P.*1 (mkGraph gl (N ++ P) E parents)
    = Ok (mkGraph gl N E' parents') /\
    E'.*1 = E.*1 /\
    forall e, assoc_get e E'
              = if decide (e ∈ els.*1)
                then (fun edge => mkProxyEdge (pe_width edge) (pe_height edge)
                                              (label_rank g e))
                     <$> assoc_get e E
                else assoc_get e E.
Proof.
  intros HF. revert E parents.
  induction HF as [|[e0 l0] [id nd] els P Hp HF IH]; intros E parents Hnd Hnde Hin Hends.
  - exists E, parents. rewrite app_nil_r. split; [done|]. split; [done|].
    intros e. by rewrite decide_False by apply not_elem_of_nil.
  - destruct Hp as (r & Hr & Hnd_eq). simpl in Hr, Hnd_eq. subst nd.
    rewrite fmap_cons. cbn [fold_result fst].
    assert (Hid : id ∉ N.*1).
    { rewrite fmap_app in Hnd. apply NoDup_app in Hnd as (_ & H & _).
      intros Hid. apply (H id Hid). rewrite fmap_cons. apply list_elem_of_here. }
    assert (Hnd' : NoDup (N ++ P).*1).
    { rewrite fmap_app, fmap_cons in Hnd. rewrite fmap_app.
      apply NoDup_app in Hnd as (H1 & H2 & H3).
      apply NoDup_cons in H3 as [_ H3]. apply NoDup_app.
      split; [done|]. split; [|done].
      intros k Hk1 Hk2. apply (H2 k Hk1). by apply list_elem_of_further. }
    unfold remove_proxy at 1. unfold node at 1. cbn [node_entries].
    rewrite assoc_get_app_r by done. cbn [assoc_get].
    rewrite decide_True by done. cbn [p_dummy p_e p_rank].
    rewrite bool_decide_eq_true_2 by done. cbn [mbind option_bind].
    unfold edge at 1. cbn [edge_entries].
    destruct (proj2 (assoc_get_is_Some e0 E)
                (Hin (e0, l0) (list_elem_of_here _ _))) as [edge0 He0].
    rewrite He0. cbn [fmap option_fmap option_map].
    set (E1 := assoc_set e0 (mkProxyEdge (pe_width edge0) (pe_height edge0) (Some r)) E).
    assert (Hk1 : E1.*1 = E.*1).
    { apply assoc_set_keys_in. apply assoc_get_is_Some. by rewrite He0. }
    unfold removeNode, set_labelRank, hasNode, nodes. cbn [node_entries graph edge_entries parent_entries].
    rewrite bool_decide_eq_true_2.
    2:{ rewrite fmap_app, fmap_cons. apply elem_of_app. right. apply list_elem_of_here. }
    rewrite (assoc_del_middle id _ N P) by exact Hnd.
    fold E1.
    assert (Hfilt : filter (fun el : Edge * ProxyEdge => e_v el.1 <> id /\ e_w el.1 <> id) E1
                    = E1).
    { apply filter_all. intros [e' l'] He'. simpl.
      assert (Hk : e' ∈ E.*1).
      { rewrite <- Hk1. apply list_elem_of_fmap. by exists (e', l'). }
      destruct (Hends e' Hk) as [H1 H2]. rewrite fmap_cons in H1, H2. simpl in H1, H2.
      split; intros Heq; [apply H1|apply H2]; rewrite Heq; apply list_elem_of_here. }
    rewrite Hfilt.
    destruct (IH E1 (filter (fun cp : NodeId * NodeId => cp.1 <> id /\ cp.2 <> id) parents))
      as (E' & parents' & Efold & Hk' & Hget).
    + exact Hnd'.
    + rewrite fmap_cons in Hnde. by apply NoDup_cons in Hnde as [_ ?].
    + intros el Hel. rewrite Hk1. by apply Hin, list_elem_of_further.
    + intros e He. rewrite Hk1 in He. destruct (Hends e He) as [H1 H2].
      rewrite fmap_cons in H1, H2. split; intros H; [apply H1|apply H2];
        by apply list_elem_of_further.
    + exists E', parents'. split; [exact Efold|]. split; [congruence|].
      intros e. rewrite Hget. rewrite fmap_cons. cbn [fst].
      rewrite fmap_cons in Hnde. apply NoDup_cons in Hnde as [Hn0 _]. simpl in Hn0.
      destruct (decide (e = e0)) as [->|Hne].
      * rewrite decide_False by done.
        rewrite (decide_True (P := e0 ∈ e0 :: els.*1)) by apply list_elem_of_here.
        unfold E1. rewrite assoc_get_set_eq, He0. simpl. by rewrite Hr.
      * assert (Eg : assoc_get e E1 = assoc_get e E)
          by (unfold E1; by apply assoc_get_set_ne).
        rewrite Eg. destruct (decide (e ∈ els.*1)) as [H|H].
        -- by rewrite decide_True by by apply list_elem_of_further.
        -- rewrite decide_False; [done|]. by intros [?|?]%elem_of_cons.
Qed.

(** What [injectEdgeLabelProxies] followed by [removeEdgeLabelProxies]
    returns on a graph object without edge proxies. *)
Lemma proxies_Ok (fuel : nat) (idCounter : nat) :
  (forall v nd, (v, nd) ∈ node_entries g ->
                p_dummy nd <> Some "edge-proxy"%string) ->
  (nodeCount g + length (edges g) < fuel)%nat ->
  exists P c1 g2,
    injectEdgeLabelProxies fuel g idCounter
    = Ok (with_nodes g (node_entries g ++ P), c1) /\
    NoDup (node_entries g ++ P).*1 /\
    Forall2 (proxy_of g)
            (filter (fun el : Edge * ProxyEdge => has_label el.2 = true)
                    (edge_entries g)) P /\
    removeEdgeLabelProxies (with_nodes g (node_entries g ++ P)) = Ok g2 /\
    graph g2 = graph g /\ node_entries g2 = node_entries g /\
    edges g2 = edges g /\
    forall e edge0, edge g e = Some edge0 ->
      edge g2 e
      = Some (if has_label edge0
              then mkProxyEdge (pe_width edge0) (pe_height edge0) (label_rank g e)
              else edge0).
Proof.
  intros Hdummy Hfuel. pose proof Hwf as (Hnd & Hnde & Hends).
  destruct (inject_fold fuel (edge_entries g) [] idCounter) as (P & c1 & E1 & HndP & HP).
  { done. }
  { by rewrite app_nil_r. }
  { unfold edges in Hfuel. rewrite length_fmap in Hfuel. simpl. lia. }
  simpl in E1, HndP.
  assert (Hg : with_nodes g (node_entries g ++ []) = g).
  { unfold with_nodes. rewrite app_nil_r. by destruct g. }
  rewrite Hg in E1.
  set (els := filter (fun el : Edge * ProxyEdge => has_label el.2 = true)
                     (edge_entries g)) in *.
  assert (Hels_nd : NoDup els.*1) by (by apply filter_keys_NoDup).
  destruct (remove_fold els P (graph g) (node_entries g) (edge_entries g)
              (parent_entries g) HP HndP Hels_nd)
    as (E' & parents' & E2 & Hk & Hget).
  { intros el [_ Hel]%list_elem_of_filter. apply list_elem_of_fmap. by exists el. }
  { intros e He. rewrite Forall_forall in Hends. destruct (Hends e He) as [Hv Hw].
    pose proof HndP as HndP'. rewrite fmap_app in HndP'.
    apply NoDup_app in HndP' as (_ & Hdisj & _).
    split; intros H; [exact (Hdisj (e_v e) Hv H)|exact (Hdisj (e_w e) Hw H)]. }
  exists P, c1, (mkGraph (graph g) (node_entries g) E' parents').
  split; [exact E1|]. split; [exact HndP|]. split; [exact HP|].
  split.
  { unfold removeEdgeLabelProxies.
    assert (Hn : nodes (with_nodes g (node_entries g ++ P)) = nodes g ++ P.*1).
    { unfold nodes, with_nodes. simpl. by rewrite fmap_app. }
    rewrite Hn, fold_result_app, remove_fold_skip.
    - exact E2.
    - intros v Hv. rewrite node_with_nodes by done.
      destruct (proj2 (assoc_get_is_Some v (node_entries g)) Hv) as [nd Hnd'].
      exists nd. split; [done|]. apply (Hdummy v). by apply assoc_get_Some_elem. }
  split; [done|]. split; [done|]. split; [exact Hk|].
  intros e edge0 He. unfold edge at 1. simpl. rewrite Hget.
  unfold edge in He. rewrite He. simpl.
  assert (Hiff : e ∈ els.*1 <-> has_label edge0 = true).
  { split.
    - intros ([e' l'] & -> & [Hl Hin]%list_elem_of_filter)%list_elem_of_fmap.
      simpl in *. apply (assoc_get_elem_NoDup e' l') in Hin; [|exact Hnde].
      congruence.
    - intros Hl. apply list_elem_of_fmap. exists (e, edge0). split; [done|].
      apply list_elem_of_filter. split; [done|]. by apply assoc_get_Some_elem. }
  destruct (has_label edge0).
  - by rewrite decide_True by by apply Hiff.
  - rewrite decide_False; [done|]. intros H. apply Hiff in H. done.
Qed.
End ProxyFacts.

Section ProxyTheorems.
Import Graphlib UtilGraph Passes.
Local Open Scope Q_scope.
Context {GL : Type}.
Implicit Types g : Graph GL ProxyNode ProxyEdge.

(** X28. With enough fuel, [injectEdgeLabelProxies] returns on a graph object
    without edge proxies: it adds, after the nodes of the graph, one new
    node for every edge whose label has a width and a height, in the order
    of [g.edges()]; the node has [dummy] set to [edge-proxy], the edge in
    [e] and the rank half way between the ends of the edge.  The edges are
    as before. *)
Theorem injectEdgeLabelProxies_spec g (fuel idCounter : nat) :
  graph_wf g ->
  (forall v nd, (v, nd) ∈ node_entries g ->
                p_dummy nd <> Some "edge-proxy"%string) ->
  (nodeCount g + length (edges g) < fuel)%nat ->
  exists g1 c1 P,
    injectEdgeLabelProxies fuel g idCounter = Ok (g1, c1) /\
    graph g1 = graph g /\ edge_entries g1 = edge_entries g /\
    parent_entries g1 = parent_entries g /\
    node_entries g1 = node_entries g ++ P /\ NoDup (nodes g1) /\
    Forall2 (proxy_of g)
            (filter (fun el : Edge * ProxyEdge => has_label el.2 = true)
                    (edge_entries g)) P.
Proof.
  intros Hwf Hd Hfuel.
  destruct (proxies_Ok g Hwf fuel idCounter Hd Hfuel)
    as (P & c1 & g2 & E1 & Hnd & HP & _).
  exists (with_nodes g (node_entries g ++ P)), c1, P. by split_and!.
Qed.

(** X29. [removeEdgeLabelProxies] undoes [injectEdgeLabelProxies]: after the two
    passes the graph has the nodes and the edges that it had, and the label
    of every edge that has a width and a height has in [labelRank] the rank
    half way between the ends of the edge; the other labels are as they
    were. *)
Theorem edge_label_proxies_round_trip g (fuel idCounter : nat) :
  graph_wf g ->
  (forall v nd, (v, nd) ∈ node_entries g ->
                p_dummy nd <> Some "edge-proxy"%string) ->
  (nodeCount g + length (edges g) < fuel)%nat ->
  exists g1 c1 g2,
    injectEdgeLabelProxies fuel g idCounter = Ok (g1, c1) /\
    removeEdgeLabelProxies g1 = Ok g2 /\
    graph g2 = graph g /\ node_entries g2 = node_entries g /\
    edges g2 = edges g /\
    forall e edge0, edge g e = Some edge0 ->
      edge g2 e
      = Some (if has_label edge0
              then mkProxyEdge (pe_width edge0) (pe_height edge0) (label_rank g e)
              else edge0).
Proof.
  intros Hwf Hd Hfuel.
  destruct (proxies_Ok g Hwf fuel idCounter Hd Hfuel)
    as (P & c1 & g2 & E1 & _ & _ & E2 & H).
  by exists (with_nodes g (node_entries g ++ P)), c1, g2.
Qed.
End ProxyTheorems.

Lemma injectEdgeLabelProxies_spec_witness :
  exists g1 c1,
    Passes.injectEdgeLabelProxies 6 ProxyExamples.one_label 0 = Ok (g1, c1) /\
    Graphlib.node_entries g1
    = Graphlib.node_entries ProxyExamples.one_label
      ++ [("_ep2"%string,
           Passes.mkProxyNode ((4 - 0) / 2 + 0)%Q (Some "edge-proxy"%string)
             (Some (Graphlib.mkEdge "a" "b" None)))].
Proof.
  destruct (injectEdgeLabelProxies_spec ProxyExamples.one_label 6 0)
    as (g1 & c1 & P & E & _).
  - unfold graph_wf. split_and!; apply (bool_decide_unpack _); by vm_compute.
  - intros v nd Hin.
    repeat (apply elem_of_cons in Hin as [[= -> ->]|Hin]);
      [discriminate ..|by apply elem_of_nil in Hin].
  - vm_compute. lia.
  - exists g1, c1. split; [exact E|].
    assert (E' := E). vm_compute in E'. injection E' as <- _. reflexivity.
Defined.

Lemma edge_label_proxies_round_trip_witness :
  exists g1 c1 g2,
    Passes.injectEdgeLabelProxies 6 ProxyExamples.one_label 0 = Ok (g1, c1) /\
    Passes.removeEdgeLabelProxies g1 = Ok g2 /\
    Graphlib.node_entries g2 = Graphlib.node_entries ProxyExamples.one_label /\
    Graphlib.edge g2 (Graphlib.mkEdge "a" "b" None)
    = Some (Passes.mkProxyEdge 30 20 (Some ((4 - 0) / 2 + 0)%Q)).
Proof.
  destruct (edge_label_proxies_round_trip ProxyExamples.one_label 6 0)
    as (g1 & c1 & g2 & E1 & E2 & _ & Hn & _ & He).
  - unfold graph_wf. split_and!; apply (bool_decide_unpack _); by vm_compute.
  - intros v nd Hin.
    repeat (apply elem_of_cons in Hin as [[= -> ->]|Hin]);
      [discriminate ..|by apply elem_of_nil in Hin].
  - vm_compute. lia.
  - exists g1, c1, g2. split; [exact E1|]. split; [exact E2|].
    split; [exact Hn|].
    apply (He (Graphlib.mkEdge "a" "b" None) (Passes.mkProxyEdge 30 20 None)).
    reflexivity.
Defined.

(** ** [removeBorderNodes] *)

Lemma assoc_get_filter_NoDup {K V} `{EqDecision K} (P : K * V -> Prop)
    `{forall kv, Decision (P kv)} (k : K) (x : V) (l : list (K * V)) :
  NoDup l.*1 -> assoc_get k l = Some x ->
  assoc_get k (filter P l) = if decide (P (k, x)) then Some x else None.
Proof.
  intros Hnd Hget.
  destruct (decide (P (k, x))) as [HP|HP].
  - apply assoc_get_elem_NoDup; [by apply filter_keys_NoDup|].
    apply list_elem_of_filter. split; [done|]. by apply assoc_get_Some_elem.
  - apply assoc_get_None.
    intros ([k' y] & -> & [HP' Hin]%list_elem_of_filter)%list_elem_of_fmap.
    simpl in *. apply (assoc_get_elem_NoDup k' y) in Hin; [|done].
    assert (y = x) as -> by congruence. done.
Qed.

Section RemoveBorderLoop.
Import Graphlib Passes.
Context {GL EL : Type}.

(** The second loop on the nodes [rest], the nodes [kept] being done and
    the nodes [removed] removed. *)
Lemma remove_border_fold (rest kept : list (NodeId * BoxNode)) (gl : GL)
    (E : list (Edge * EL)) (parents : list (NodeId * NodeId))
    (removed : list NodeId) :
  NoDup (kept ++ rest).*1 ->
  exists parents',
    fold_result remove_border rest.*1
      (mkGraph gl (kept ++ rest)
         (filter (fun el : Edge * EL => (e_v el.1 ∉ removed) /\ (e_w el.1 ∉ removed)) E)
         parents)
    = Ok (mkGraph gl
            (kept ++ filter (fun kv : NodeId * BoxNode =>
                               bx_dummy kv.2 <> Some "border"%string) rest)
            (filter (fun el : Edge * EL =>
                       (e_v el.1 ∉ removed
                                   ++ (filter (fun kv : NodeId * BoxNode =>
                                                 bx_dummy kv.2 = Some "border"%string)
                                              rest).*1) /\
                       (e_w el.1 ∉ removed
                                   ++ (filter (fun kv : NodeId * BoxNode =>
                                                 bx_dummy kv.2 = Some "border"%string)
                                              rest).*1)) E)
            parents').
Proof.
  revert kept parents removed.
  induction rest as [|[v nd] rest IH]; intros kept parents removed Hnd.
  - exists parents. simpl. by rewrite !app_nil_r.
  - rewrite fmap_cons. cbn [fold_result fst].
    assert (Hv : v ∉ kept.*1).
    { rewrite fmap_app in Hnd. apply NoDup_app in Hnd as (_ & H & _).
      intros Hin. apply (H v Hin). rewrite fmap_cons. apply list_elem_of_here. }
    unfold remove_border at 1. unfold node at 1. cbn [node_entries].
    rewrite assoc_get_app_r by done. cbn [assoc_get].
    rewrite decide_True by done. rewrite !filter_cons. cbn [snd].
    case_bool_decide as Hb.
    + rewrite decide_False by (intros H; by apply H).
      rewrite decide_True by done. cbn [rbind].
      unfold removeNode, hasNode, nodes.
      cbn [node_entries graph edge_entries parent_entries].
      rewrite bool_decide_eq_true_2.
      2:{ rewrite fmap_app, fmap_cons. apply elem_of_app. right. apply list_elem_of_here. }
      rewrite (assoc_del_middle v nd kept rest) by exact Hnd.
      rewrite list_filter_filter.
      rewrite (list_filter_iff _
                 (fun el : Edge * EL =>
                    (e_v el.1 ∉ removed ++ [v]) /\ (e_w el.1 ∉ removed ++ [v]))).
      2:{ intros el. rewrite !not_elem_of_app, !not_elem_of_cons.
          rewrite !elem_of_nil. tauto. }
      destruct (IH kept
                  (filter (fun cp : NodeId * NodeId => cp.1 <> v /\ cp.2 <> v) parents)
                  (removed ++ [v])) as (parents' & E').
      { rewrite fmap_app, fmap_cons in Hnd. rewrite fmap_app.
        apply NoDup_app in Hnd as (H1 & H2 & H3).
        apply NoDup_cons in H3 as [_ H3]. apply NoDup_app.
        split; [done|]. split; [|done].
        intros k Hk1 Hk2. apply (H2 k Hk1). by apply list_elem_of_further. }
      exists parents'. rewrite E'. rewrite fmap_cons. cbn [fst].
      by rewrite <- !app_assoc.
    + rewrite decide_True by done. rewrite decide_False by done. cbn [rbind].
      destruct (IH (kept ++ [(v, nd)]) parents removed) as (parents' & E').
      { by rewrite <- app_assoc. }
      exists parents'. rewrite <- !app_assoc in E'. exact E'.
Qed.
End RemoveBorderLoop.

Section BorderNodeFacts.
Import Graphlib Passes.
Local Open Scope Q_scope.
Context {GL EL : Type} (g : Graph GL BoxNode EL).
Context (Hnd : NoDup (nodes g)).
Context (Hok : forall v nd, node g v = Some nd -> children g v <> [] ->
                 exists t b l r, borders_of g nd t b l r).

Lemma border_box_dummy (cur : Graph GL BoxNode EL) (nd nd' : BoxNode) :
  border_box cur nd = Ok nd' -> bx_dummy nd' = bx_dummy nd.
Proof.
  unfold border_box.
  destruct (borderTop nd ≫= node cur); [|done].
  destruct (borderBottom nd ≫= node cur); [|done].
  destruct ((borderLeft nd ≫= last) ≫= node cur); [|done].
  destruct ((borderRight nd ≫= last) ≫= node cur); [|done].
  by intros [= <-].
Qed.

Lemma box_of_dummy (v : NodeId) (nd : BoxNode) :
  bx_dummy (box_of g v nd) = bx_dummy nd.
Proof.
  unfold box_of. destruct (decide (children g v = [])); [done|].
  destruct (border_box g nd) as [nd'| |] eqn:E; [|done|done].
  by apply border_box_dummy in E.
Qed.

Lemma sized_nil : sized g [] g.
Proof.
  split; [done|]. split; [done|]. split; [done|]. split; [done|].
  intros v nd Hv. destruct (decide (v ∈ [])) as [H|H]; [by apply elem_of_nil in H|done].
Qed.

Lemma border_box_sized (done : list NodeId) (cur : Graph GL BoxNode EL)
    (nd t b l r : BoxNode) :
  sized g done cur -> borders_of g nd t b l r ->
  border_box cur nd = Ok (boxed nd t b l r).
Proof.
  intros (_ & _ & _ & _ & Hget)
         (tid & bid & lid & rid & Ht & Hb & Hl & Hr & Nt & Nb & Nl & Nr & Ct & Cb & Cl & Cr).
  assert (Hsame : forall id x, node g id = Some x -> children g id = [] ->
                               node cur id = Some x).
  { intros id x Hx Hc. rewrite (Hget id x Hx). f_equal.
    destruct (decide (id ∈ done)); [|done]. unfold box_of. by rewrite decide_True. }
  unfold border_box. rewrite Ht, Hb, Hl, Hr. cbn [mbind option_bind].
  rewrite (Hsame tid t), (Hsame bid b), (Hsame lid l), (Hsame rid r) by done.
  unfold boxed. by rewrite Ht, Hb.
Qed.

Lemma box_of_boxed (v : NodeId) (nd t b l r : BoxNode) :
  children g v <> [] -> borders_of g nd t b l r ->
  box_of g v nd = boxed nd t b l r.
Proof.
  intros Hc Hb. unfold box_of. rewrite decide_False by done.
  by rewrite (border_box_sized [] g nd t b l r sized_nil Hb).
Qed.

Lemma size_fold (post done : list NodeId) (cur : Graph GL BoxNode EL) :
  sized g done cur ->
  (forall v, v ∈ post -> v ∈ nodes g /\ (v ∉ done)) -> NoDup post ->
  exists cur', fold_result size_from_borders post cur = Ok cur' /\
               sized g (done ++ post) cur'.
Proof.
  revert done cur. induction post as [|v post IH]; intros done cur Hs Hin Hndp.
  - exists cur. by rewrite app_nil_r.
  - apply NoDup_cons in Hndp as [Hv Hndp].
    destruct (Hin v (list_elem_of_here _ _)) as [Hvg Hvd].
    destruct (proj2 (assoc_get_is_Some v (node_entries g)) Hvg) as [nd Hnode].
    change (node g v = Some nd) in Hnode.
    pose proof Hs as (Hg & He & Hp & Hk & Hget).
    assert (Hch : children cur v = children g v).
    { unfold children. by rewrite Hp. }
    assert (Hstep : exists cur1, size_from_borders cur v = Ok cur1 /\
                                 sized g (done ++ [v]) cur1).
    { unfold size_from_borders. rewrite Hch. case_bool_decide as Hc.
      - assert (Hc' : children g v <> []) by (intros E; by rewrite E in Hc).
        rewrite (Hget v nd Hnode). rewrite decide_False by done.
        destruct (Hok v nd Hnode Hc') as (t & b & l & r & Hb).
        rewrite (border_box_sized done cur nd t b l r Hs Hb). cbn [rbind].
        eexists. split; [done|]. split_and!; try done.
        + unfold nodes, setNode. simpl. rewrite assoc_set_keys_in; [done|].
          fold (nodes cur). by rewrite Hk.
        + intros u ndu Hu. unfold node, setNode. simpl.
          destruct (decide (u = v)) as [->|Hne].
          * rewrite assoc_get_set_eq. f_equal.
            rewrite decide_True by (apply elem_of_app; right; apply list_elem_of_here).
            assert (ndu = nd) as -> by congruence.
            symmetry. by apply box_of_boxed.
          * rewrite assoc_get_set_ne by done. fold (node cur u).
            rewrite (Hget u ndu Hu). f_equal.
            destruct (decide (u ∈ done)) as [H|H].
            -- by rewrite decide_True by (apply elem_of_app; by left).
            -- rewrite decide_False; [done|].
               intros [?|?%list_elem_of_singleton]%elem_of_app; done.
      - assert (Hc' : children g v = []).
        { by apply nil_length_inv. }
        exists cur. split; [done|]. split_and!; try done.
        intros u ndu Hu. rewrite (Hget u ndu Hu). f_equal.
        destruct (decide (u = v)) as [->|Hne].
        + rewrite decide_False by done.
          rewrite decide_True by (apply elem_of_app; right; apply list_elem_of_here).
          unfold box_of. by rewrite decide_True.
        + destruct (decide (u ∈ done)) as [H|H].
          * by rewrite decide_True by (apply elem_of_app; by left).
          * rewrite decide_False; [done|].
            intros [?|?%list_elem_of_singleton]%elem_of_app; done. }
    destruct Hstep as (cur1 & E1 & Hs1). simpl. rewrite E1. cbn [rbind].
    destruct (IH (done ++ [v]) cur1 Hs1) as (cur' & E' & Hs').
    + intros u Hu. destruct (Hin u (list_elem_of_further _ _ _ Hu)) as [H1 H2].
      split; [done|].
      intros [?|Hx%list_elem_of_singleton]%elem_of_app; [done|]. by subst u.
    + done.
    + exists cur'. split; [done|]. by rewrite <- app_assoc in Hs'.
Qed.

(** What [removeBorderNodes] returns. *)
Lemma removeBorderNodes_Ok :
  exists g',
    removeBorderNodes g = Ok g' /\ graph g' = graph g /\
    node_entries g'
    = filter (fun kv : NodeId * BoxNode => bx_dummy kv.2 <> Some "border"%string)
             ((fun kv : NodeId * BoxNode => (kv.1, box_of g kv.1 kv.2))
              <$> node_entries g) /\
    edge_entries g'
    = filter (fun el : Edge * EL =>
                is_border_node g (e_v el.1) = false /\
                is_border_node g (e_w el.1) = false)
             (edge_entries g).
Proof.
  destruct (size_fold (nodes g) [] g sized_nil) as (g1 & E1 & Hs1).
  { intros v Hv. split; [done|]. apply not_elem_of_nil. }
  { exact Hnd. }
  simpl in Hs1. destruct Hs1 as (Hg & He & Hp & Hk & Hget).
  assert (Hentries : node_entries g1
                     = (fun kv : NodeId * BoxNode => (kv.1, box_of g kv.1 kv.2))
                       <$> node_entries g).
  { apply list_eq. intros i. rewrite list_lookup_fmap.
    destruct (node_entries g !! i) as [[v nd]|] eqn:Ei; simpl.
    - assert (Hvn : node g v = Some nd).
      { apply assoc_get_elem_NoDup; [exact Hnd|]. by eapply list_elem_of_lookup_2. }
      pose proof (Hget v nd Hvn) as Hc.
      rewrite decide_True in Hc by (apply list_elem_of_fmap; exists (v, nd);
                                     split; [done|]; by eapply list_elem_of_lookup_2).
      apply assoc_get_Some_elem in Hc.
      apply list_elem_of_lookup in Hc as [j Hj].
      assert (Hij : nodes g1 !! j = Some v).
      { unfold nodes. by rewrite list_lookup_fmap, Hj. }
      assert (Hiv : nodes g !! i = Some v).
      { unfold nodes. by rewrite list_lookup_fmap, Ei. }
      rewrite Hk in Hij.
      assert (i = j) as -> by (eapply NoDup_lookup; eauto).
      done.
    - apply lookup_ge_None in Ei. apply lookup_ge_None.
      assert (Hlen : length (node_entries g1) = length (node_entries g)).
      { rewrite <- (length_fmap fst (node_entries g1)),
                <- (length_fmap fst (node_entries g)).
        fold (nodes g1) (nodes g). by rewrite Hk. }
      lia. }
  unfold removeBorderNodes. rewrite E1. cbn [rbind].
  destruct (remove_border_fold (node_entries g1) [] (graph g1) (edge_entries g1)
              (parent_entries g1) [])
    as (parents' & E2).
  { simpl. fold (nodes g1). by rewrite Hk. }
  assert (Hfe : filter (fun el : Edge * EL => (e_v el.1 ∉ []) /\ (e_w el.1 ∉ []))
                       (edge_entries g1) = edge_entries g1).
  { apply filter_all. intros el _. split; apply not_elem_of_nil. }
  rewrite Hfe in E2. simpl in E2.
  assert (Hg1 : mkGraph (graph g1) (node_entries g1) (edge_entries g1)
                        (parent_entries g1) = g1) by (by destruct g1).
  rewrite Hg1 in E2. unfold nodes at 1. rewrite E2.
  eexists. split; [done|]. simpl. split; [done|]. split; [by rewrite Hentries|].
  rewrite He. apply list_filter_iff. intros [e l]. simpl.
  assert (Hgone : forall v,
            v ∈ (filter (fun kv : NodeId * BoxNode =>
                           bx_dummy kv.2 = Some "border"%string)
                        (node_entries g1)).*1
            <-> is_border_node g v = true).
  { intros v. rewrite Hentries. unfold is_border_node. split.
    - intros ([v' nd'] & -> & [Hb Hin]%list_elem_of_filter)%list_elem_of_fmap.
      apply list_elem_of_fmap in Hin as ([v0 nd0] & [= -> ->] & Hin).
      simpl in *. rewrite box_of_dummy in Hb.
      apply (assoc_get_elem_NoDup v0 nd0) in Hin; [|exact Hnd].
      unfold node. rewrite Hin. by apply bool_decide_eq_true_2.
    - destruct (node g v) as [nd|] eqn:Hv; [|done].
      intros Hb%bool_decide_eq_true_1. apply list_elem_of_fmap.
      exists (v, box_of g v nd). split; [done|].
      apply list_elem_of_filter. split; [simpl; by rewrite box_of_dummy|].
      apply list_elem_of_fmap. exists (v, nd). split; [done|].
      by apply assoc_get_Some_elem. }
  rewrite !Hgone.
  destruct (is_border_node g (e_v e)), (is_border_node g (e_w e)); intuition congruence.
Qed.
End BorderNodeFacts.

Lemma assoc_get_fmap_key {K V W} `{EqDecision K} (h : K -> V -> W) (k : K)
    (l : list (K * V)) :
  assoc_get k ((fun kv : K * V => (kv.1, h kv.1 kv.2)) <$> l) = h k <$> assoc_get k l.
Proof.
  induction l as [|[k' y] l IH]; [done|].
  rewrite fmap_cons. cbn [assoc_get fst snd].
  destruct (decide (k = k')) as [->|Hne]; [done|exact IH].
Qed.

Section BorderNodeTheorem.
Import Graphlib Passes.
Local Open Scope Q_scope.
Context {GL EL : Type}.
Implicit Types g : Graph GL BoxNode EL.

(** X30. [removeBorderNodes] returns on a graph object in which every node with
    children names four border nodes that are nodes without children.  It
    removes the nodes whose [dummy] is [border], with the edges at them, and
    keeps the other edges; a node without children keeps its label; a node
    with children gets the box between its border nodes: its width and
    height are the distances of the right from the left and of the bottom
    from the top border node, and when the left one is not right of the
    right one the box reaches from the one to the other (likewise from top
    to bottom). *)
Theorem removeBorderNodes_spec g :
  NoDup (nodes g) ->
  (forall v nd, node g v = Some nd -> children g v <> [] ->
                exists t b l r, borders_of g nd t b l r) ->
  exists g',
    removeBorderNodes g = Ok g' /\ graph g' = graph g /\
    (forall v nd', (v, nd') ∈ node_entries g' -> ~ is_border nd') /\
    (forall v nd, node g v = Some nd -> is_border nd -> node g' v = None) /\
    (forall v nd, node g v = Some nd -> ~ is_border nd -> children g v = [] ->
                  node g' v = Some nd) /\
    (forall v nd t b l r,
       node g v = Some nd -> ~ is_border nd -> children g v <> [] ->
       borders_of g nd t b l r ->
       exists nd',
         node g' v = Some nd' /\
         bx_width nd' = Qabs (bx_x r - bx_x l) /\
         bx_height nd' = Qabs (bx_y b - bx_y t) /\
         (bx_x l <= bx_x r ->
          bx_x nd' - bx_width nd' / 2 == bx_x l /\
          bx_x nd' + bx_width nd' / 2 == bx_x r) /\
         (bx_y t <= bx_y b ->
          bx_y nd' - bx_height nd' / 2 == bx_y t /\
          bx_y nd' + bx_height nd' / 2 == bx_y b)) /\
    edge_entries g'
    = filter (fun el : Edge * EL =>
                is_border_node g (e_v el.1) = false /\
                is_border_node g (e_w el.1) = false)
             (edge_entries g).
Proof.
  intros Hnd Hok.
  destruct (removeBorderNodes_Ok g Hnd Hok) as (g' & E & Hg & Hn & He).
  exists g'. split; [exact E|]. split; [exact Hg|].
  assert (Hlook : forall v nd, node g v = Some nd ->
            node g' v = if decide (bx_dummy nd <> Some "border"%string)
                        then Some (box_of g v nd) else None).
  { intros v nd Hv. unfold node at 1. rewrite Hn.
    rewrite (assoc_get_filter_NoDup _ v (box_of g v nd)).
    - simpl. rewrite box_of_dummy. done.
    - rewrite <- list_fmap_compose.
      replace (fst ∘ (fun kv : NodeId * BoxNode => (kv.1, box_of g kv.1 kv.2)))
        with (@fst NodeId BoxNode) by done.
      exact Hnd.
    - rewrite (assoc_get_fmap_key (box_of g)). unfold node in Hv. by rewrite Hv. }
  split.
  { intros v nd' Hin. rewrite Hn in Hin. by apply list_elem_of_filter in Hin as [H _]. }
  split.
  { intros v nd Hv Hb. rewrite (Hlook v nd Hv). by rewrite decide_False by (intros H; by apply H). }
  split.
  { intros v nd Hv Hb Hc. rewrite (Hlook v nd Hv), decide_True by done.
    unfold box_of. by rewrite decide_True. }
  split; [|exact He].
  intros v nd t b l r Hv Hb Hc Hbs.
  exists (boxed nd t b l r). split.
  { rewrite (Hlook v nd Hv), decide_True by done.
    by rewrite (box_of_boxed g v nd t b l r Hc Hbs). }
  split; [done|]. split; [done|]. unfold boxed. cbn [bx_x bx_y bx_width bx_height].
  split.
  - intros Hle. rewrite Qabs_pos by lra. split; field.
  - intros Hle. rewrite Qabs_pos by lra. split; field.
Qed.
End BorderNodeTheorem.

Lemma removeBorderNodes_spec_witness :
  exists g',
    Passes.removeBorderNodes BorderExamples.bordered = Ok g' /\
    Graphlib.nodes g' = ["p"; "c"]%string /\
    Graphlib.edges g' = [Graphlib.mkEdge "c" "c" None] /\
    exists nd',
      Graphlib.node g' "p" = Some nd' /\
      Passes.bx_width nd' = Qabs (9 - 1) /\
      Passes.bx_height nd' = Qabs (10 - 0).
Proof.
  destruct (removeBorderNodes_spec BorderExamples.bordered)
    as (g' & E & _ & _ & _ & _ & Hbox & _).
  - apply (bool_decide_unpack _). by vm_compute.
  - intros v nd Hv Hc.
    assert (Hvp : v = "p"%string).
    { unfold Graphlib.node in Hv. apply assoc_get_Some_elem in Hv.
      repeat (apply elem_of_cons in Hv as [[= -> ->]|Hv]);
        [done|by destruct Hc ..|by apply elem_of_nil in Hv]. }
    subst v. injection Hv as <-.
    exists (BorderExamples.plain 5 0 0 0 (Some "border"%string)),
           (BorderExamples.plain 5 10 0 0 (Some "border"%string)),
           (BorderExamples.plain 1 5 0 0 (Some "border"%string)),
           (BorderExamples.plain 9 5 0 0 (Some "border"%string)).
    exists "t"%string, "b"%string, "l"%string, "r"%string.
    split_and!; reflexivity.
  - exists g'. split; [exact E|].
    assert (E' := E). vm_compute in E'. injection E' as <-.
    split; [reflexivity|]. split; [reflexivity|].
    destruct (Hbox "p"%string
                (Passes.mkBoxNode 0 0 0 0 None (Some "t"%string) (Some "b"%string)
                   (Some ["l"%string]) (Some ["r"%string]))
                (BorderExamples.plain 5 0 0 0 (Some "border"%string))
                (BorderExamples.plain 5 10 0 0 (Some "border"%string))
                (BorderExamples.plain 1 5 0 0 (Some "border"%string))
                (BorderExamples.plain 9 5 0 0 (Some "border"%string)))
      as (nd' & Hn & Hw & Hh & _).
    + reflexivity.
    + discriminate.
    + discriminate.
    + exists "t"%string, "b"%string, "l"%string, "r"%string.
      split_and!; reflexivity.
    + exists nd'. split; [exact Hn|]. split; [exact Hw|exact Hh].
Defined.
